(** * ReflexDACExample_4_1V_Version: a shallow embedding of the sketch

    The sketch drives a bipolar 14-bit DAC over SPI.  This development
    embeds its functions ([dacBipolarVoltageToCode], [buildLUT],
    [fullRangeTest], [quickChangeTest], [setup], [loop]) and proves the
    properties its specification states about them.

    - [float] is IEEE-754 binary32, embedded with the Standard Library's
      [SpecFloat] at precision 24 and maximal exponent 128; every
      operation rounds to nearest even on its own (no fused multiply-add);
    - machine integers are [Z] with their wrap-around written out;
    - the SPI bus and the chip-select line are an event trace;
    - loops that may run forever take fuel and report whether the function
      returned, was still running, or left defined behaviour. *)

From Stdlib Require Import ZArith List Bool Lia Sorted SpecFloat Reals Lra.
Import ListNotations.
Local Open Scope Z_scope.

(** ** Machine integers *)

Definition wrap (w z : Z) : Z := z mod 2 ^ w.

Definition to_uint8 : Z -> Z := wrap 8.
Definition to_uint16 : Z -> Z := wrap 16.
Definition to_uint32 : Z -> Z := wrap 32.

(** Conversion to [int32_t] of a value computed on 32 unsigned bits. *)
Definition to_int32 (z : Z) : Z :=
  let u := wrap 32 z in if u <? 2 ^ 31 then u else u - 2 ^ 32.

(** ** Boards

    The sketch "targets ANY Arduino board".  Two things in it depend on the
    board: the width of [int] (the integer promotions in the ramp loop) and
    the format of [double] (the literal [4.096] and the [PI] expression). *)

Inductive board := AVR8 | ARM32.

Definition int_bits (b : board) : Z :=
  match b with AVR8 => 16 | ARM32 => 32 end.

Definition double_prec (b : board) : Z :=
  match b with AVR8 => 24 | ARM32 => 53 end.

Definition double_emax (b : board) : Z :=
  match b with AVR8 => 128 | ARM32 => 1024 end.

(** ** Floating point *)

(** A decimal literal [num/den] read in the format [(prec, emax)]:
    the quotient of the two integers, rounded once to nearest even. *)
Definition literal (prec emax : Z) (num den : positive) : spec_float :=
  SFdiv prec emax (S754_finite false num 0) (S754_finite false den 0).

(** Conversion of a floating-point value to the format [(prec, emax)]. *)
Definition convert (prec emax : Z) (x : spec_float) : spec_float :=
  match x with
  | S754_finite s m e => binary_round prec emax s m e
  | _ => x
  end.

(** Truncation toward zero of a floating-point value; [None] for
    infinities and NaN. *)
Definition truncate (x : spec_float) : option Z :=
  match x with
  | S754_zero _ => Some 0
  | S754_finite s m e => Some (cond_Zopp s (Z.shiftl (Zpos m) e))
  | S754_infinity _ | S754_nan => None
  end.

(** A floating-integral conversion of C++: the value is truncated, and
    the behaviour is undefined ([None]) when the truncated value is not
    in the destination's range [lo .. hi]. *)
Definition float_to_int (lo hi : Z) (x : spec_float) : option Z :=
  match truncate x with
  | Some z => if (lo <=? z) && (z <=? hi) then Some z else None
  | None => None
  end.

Module F32.
Definition prec : Z := 24.
Definition emax : Z := 128.

Definition add : spec_float -> spec_float -> spec_float := SFadd prec emax.
Definition mul : spec_float -> spec_float -> spec_float := SFmul prec emax.
Definition div : spec_float -> spec_float -> spec_float := SFdiv prec emax.
Definition neg : spec_float -> spec_float := SFopp.

Definition eqb : spec_float -> spec_float -> bool := SFeqb.
Definition ltb : spec_float -> spec_float -> bool := SFltb.
Definition leb : spec_float -> spec_float -> bool := SFleb.
Definition gtb (x y : spec_float) : bool := SFltb y x.
Definition geb (x y : spec_float) : bool := SFleb y x.

Definition valid : spec_float -> bool := valid_binary prec emax.

(** [(float)z] for an integer [z]. *)
Definition of_Z (z : Z) : spec_float := binary_normalize prec emax z 0 false.

(** [(float)d] for a [double] [d]. *)
Definition of_double : spec_float -> spec_float := convert prec emax.

(** [(int32_t)x] and [static_cast<uint16_t>(x)]. *)
Definition to_int32 : spec_float -> option Z :=
  float_to_int (- 2 ^ 31) (2 ^ 31 - 1).
Definition to_uint16 : spec_float -> option Z :=
  float_to_int 0 (2 ^ 16 - 1).

Definition zero : spec_float := S754_zero false.
Definition half : spec_float := Eval vm_compute in literal prec emax 5 10.
Definition one : spec_float := Eval vm_compute in of_Z 1.
Definition two : spec_float := Eval vm_compute in of_Z 2.
End F32.

(** ** Constants of the sketch *)

Definition DAC_14_BIT : Z := 16383.

(** [#define REF_VOLT (float)4.096]: a [double] literal converted to
    [float]. *)
Definition REF_VOLT (b : board) : spec_float :=
  F32.of_double (literal (double_prec b) (double_emax b) 4096 1000).

Definition TABLE_SIZE : Z := 16.

(** [float outputThisVoltage = -1.000;] *)
Definition outputThisVoltage_init : spec_float := F32.neg F32.one.

(** ** Undefined behaviour as [option] *)

Definition obind {A B} (m : option A) (k : A -> option B) : option B :=
  match m with Some a => k a | None => None end.

Notation "x <- m ;; k" := (obind m (fun x => k))
  (at level 61, m at next level, right associativity).

(** ** The voltage-to-code converter

<<
uint16_t dacBipolarVoltageToCode(uint8_t bits, float vref, float vout)
>>
    [bits] is the value of the [uint8_t] parameter, [0 <= bits < 256]. *)
Definition dacBipolarVoltageToCode (bits : Z) (vref vout : spec_float)
  : option Z :=
  if bits =? 0 then Some 0 else
  let bits := if bits >? 14 then 14 else bits in
  let VREF := if F32.geb vref F32.zero then vref else F32.neg vref in
  if F32.eqb VREF F32.zero then Some 0 else
  let vout := if F32.gtb vout VREF then VREF else vout in
  let vout := if F32.ltb vout (F32.neg VREF) then F32.neg VREF else vout in
  let halfScale := to_uint32 (Z.shiftl 1 (bits - 1)) in
  let code_f :=
    F32.add (F32.mul (F32.div vout VREF) (F32.of_Z halfScale))
            (F32.of_Z halfScale) in
  code_i <- F32.to_int32 (F32.add code_f F32.half) ;;
  let maxCode := to_int32 (to_uint32 (Z.shiftl 1 bits) - 1) in
  let code_i := if code_i <? 0 then 0 else code_i in
  let code_i := if code_i >? maxCode then maxCode else code_i in
  Some (to_uint16 code_i).

(** A call [dacBipolarVoltageToCode(b, vref, vout)] with an integer
    argument [b]: the argument is converted to [uint8_t] first. *)
Definition call_dacBipolarVoltageToCode (b : Z) (vref vout : spec_float)
  : option Z :=
  dacBipolarVoltageToCode (to_uint8 b) vref vout.

(** ** The bus and the globals *)

Inductive level := LOW | HIGH.

(** What the sketch does to the outside world, in program order.  The
    only pin it touches is [PIN_CS]. *)
Inductive event :=
| PinModeOutput
| DigitalWrite (l : level)
| SPIBegin
| SPIBeginTransaction
| Transfer16 (w : Z).

(** The words sent over the bus, in order. *)
Fixpoint transfers (t : list event) : list Z :=
  match t with
  | [] => []
  | Transfer16 w :: t' => w :: transfers t'
  | _ :: t' => transfers t'
  end.

(** [uint16_t sineLUT[TABLE_SIZE]; uint16_t tableCounter = 0;] *)
Record globals := {
  sineLUT : list Z;
  tableCounter : Z
}.

(** Objects with static storage duration are zero-initialised. *)
Definition globals_init : globals :=
  {| sineLUT := repeat 0 (Z.to_nat TABLE_SIZE); tableCounter := 0 |}.

(** ** Computations

    A computation starts from the globals and reports the events it
    emitted, together with how it ended. *)

Inductive outcome (A : Type) :=
| Returned (a : A) (g : globals)
| Running
| Undefined.
Arguments Returned {A} a g.
Arguments Running {A}.
Arguments Undefined {A}.

Definition M (A : Type) : Type := globals -> list event * outcome A.

Definition ret {A} (a : A) : M A := fun g => ([], Returned a g).

Definition bind {A B} (m : M A) (k : A -> M B) : M B :=
  fun g =>
    match m g with
    | (t, Returned a g') => let (t', o) := k a g' in (t ++ t', o)
    | (t, Running) => (t, Running)
    | (t, Undefined) => (t, Undefined)
    end.

Definition emit (e : event) : M unit := fun g => ([e], Returned tt g).
Definition out_of_fuel {A} : M A := fun _ => ([], Running).
Definition undefined {A} : M A := fun _ => ([], Undefined).
Definition get : M globals := fun g => ([], Returned g g).
Definition put (g : globals) : M unit := fun _ => ([], Returned tt g).

Definition lift {A} (o : option A) : M A :=
  match o with Some a => ret a | None => undefined end.

Declare Scope sketch_scope.
Delimit Scope sketch_scope with sketch.
Notation "x <-- m ;; k" := (bind m (fun x => k))
  (at level 61, m at next level, right associativity) : sketch_scope.
Notation "m ;;; k" := (bind m (fun _ => k))
  (at level 61, right associativity) : sketch_scope.
Local Open Scope sketch_scope.

Definition trace_of {A} (r : list event * outcome A) : list event := fst r.
Definition outcome_of {A} (r : list event * outcome A) : outcome A := snd r.

(** The Arduino calls of the sketch. *)
Definition pinMode_OUTPUT : M unit := emit PinModeOutput.
Definition digitalWrite (l : level) : M unit := emit (DigitalWrite l).
Definition SPI_begin : M unit := emit SPIBegin.
Definition SPI_beginTransaction : M unit := emit SPIBeginTransaction.
(** [SPI.transfer16] takes a [uint16_t]. *)
Definition SPI_transfer16 (w : Z) : M unit := emit (Transfer16 (to_uint16 w)).

(** ** Integer promotion

    Arithmetic on two [uint16_t] operands (or one and an [int] constant):
    where [int] has 16 bits the operands become [unsigned int] and the
    result wraps; where it has 32 bits they become [int] and it does not. *)
Definition promoted (b : board) (z : Z) : Z :=
  if int_bits b =? 16 then to_uint16 z else z.

(** ** The ramp

<<
void fullRangeTest(bool cntUp, uint16_t bits)
>>
    The two [for] loops, from the value [j] of the counter. *)
Fixpoint fullRangeTest_up (b : board) (fuel : nat) (bits j : Z) : M unit :=
  match fuel with
  | O => out_of_fuel
  | S fuel' =>
      if j <? promoted b (bits + 1) then
        digitalWrite LOW ;;;
        SPI_transfer16 j ;;;
        digitalWrite HIGH ;;;
        fullRangeTest_up b fuel' bits (to_uint16 (j + 1))
      else ret tt
  end.

Fixpoint fullRangeTest_down (b : board) (fuel : nat) (bits j : Z) : M unit :=
  match fuel with
  | O => out_of_fuel
  | S fuel' =>
      if j <? promoted b (bits + 1) then
        digitalWrite LOW ;;;
        SPI_transfer16 (promoted b (bits - j)) ;;;
        digitalWrite HIGH ;;;
        fullRangeTest_down b fuel' bits (to_uint16 (j + 1))
      else ret tt
  end.

Definition fullRangeTest (b : board) (fuel : nat) (cntUp : bool) (bits : Z)
  : M unit :=
  if cntUp then fullRangeTest_up b fuel bits 0
  else fullRangeTest_down b fuel bits 0.

(** ** The toggle

<<
void quickChangeTest(uint16_t bits)
>>
    The [while(1)] loop, from the value of [val]; it has no exit. *)
Fixpoint quickChangeTest_loop (fuel : nat) (bits : Z) (val : bool) : M unit :=
  match fuel with
  | O => out_of_fuel
  | S fuel' =>
      digitalWrite LOW ;;;
      val' <-- (if val
                then SPI_transfer16 bits ;;; ret false
                else SPI_transfer16 0 ;;; ret true) ;;
      digitalWrite HIGH ;;;
      quickChangeTest_loop fuel' bits val'
  end.

Definition quickChangeTest (fuel : nat) (bits : Z) : M unit :=
  quickChangeTest_loop fuel bits false.

(** ** The sine table *)

(** [double] arithmetic on board [b]. *)
Module Dbl.
Definition mul (b : board) := SFmul (double_prec b) (double_emax b).
Definition div (b : board) := SFdiv (double_prec b) (double_emax b).
Definition of_float (b : board) := convert (double_prec b) (double_emax b).
Definition of_Z (b : board) (z : Z) :=
  binary_normalize (double_prec b) (double_emax b) z 0 false.
End Dbl.

(** [#define PI 3.1415926535897932384626433832795] of the Arduino core,
    a [double] literal. *)
Definition PI (b : board) : spec_float :=
  literal (double_prec b) (double_emax b)
    31415926535897932384626433832795 10000000000000000000000000000000.

(** [sineLUT[i] = v]: writing outside the array is undefined. *)
Fixpoint store (l : list Z) (i : nat) (v : Z) : option (list Z) :=
  match l, i with
  | [], _ => None
  | _ :: l', O => Some (v :: l')
  | x :: l', S i' => l'' <- store l' i' v ;; Some (x :: l'')
  end.

Definition write_sineLUT (i v : Z) : M unit :=
  g <-- get ;;
  l <-- lift (store (sineLUT g) (Z.to_nat i) v) ;;
  put {| sineLUT := l; tableCounter := tableCounter g |}.

Definition read_sineLUT (i : Z) : M Z :=
  g <-- get ;; lift (nth_error (sineLUT g) (Z.to_nat i)).

Section Sketch.

(** The board the sketch is built for, and the [sinf] of its C library. *)
Variable b : board.
Variable sinf : spec_float -> spec_float.

(** [float theta = (2.0f * PI * i) / tableSize;] *)
Definition theta (tableSize i : Z) : spec_float :=
  F32.of_double
    (Dbl.div b
       (Dbl.mul b (Dbl.mul b (Dbl.of_float b F32.two) (PI b)) (Dbl.of_Z b i))
       (Dbl.of_Z b tableSize)).

(** [float amp = sinf(theta) * 0.5f + 0.5f;] *)
Definition amp (th : spec_float) : spec_float :=
  F32.add (F32.mul (sinf th) F32.half) F32.half.

(** [static_cast<uint16_t>(amp * (float)bits + 0.5f)] *)
Definition lut_code (bits : Z) (a : spec_float) : option Z :=
  F32.to_uint16 (F32.add (F32.mul a (F32.of_Z bits)) F32.half).

(**
<<
void buildLUT(uint16_t tableSize, uint16_t bits)
>>
    The [for] loop, from the value [i] of the counter. *)
Fixpoint buildLUT_loop (fuel : nat) (tableSize bits i : Z) : M unit :=
  match fuel with
  | O => out_of_fuel
  | S fuel' =>
      if i <? tableSize then
        code <-- lift (lut_code bits (amp (theta tableSize i))) ;;
        write_sineLUT i (Z.land code 16383) ;;;
        buildLUT_loop fuel' tableSize bits (to_uint16 (i + 1))
      else ret tt
  end.

Definition buildLUT (fuel : nat) (tableSize bits : Z) : M unit :=
  buildLUT_loop fuel tableSize bits 0.

(** ** [setup] and [loop] *)

(** The [#define MODE_OUTPUT_...] switches and the single-value
    parameter. *)
Record config := {
  MODE_OUTPUT_SINGLE_VALUE : bool;
  MODE_OUTPUT_FULL_RANGE : bool;
  MODE_OUTPUT_SINE_WAVE : bool;
  MODE_OUTPUT_QUICK_CHANGE : bool;
  outputThisVoltage : spec_float
}.

Variable cfg : config.

Definition when (c : bool) (m : M unit) : M unit := if c then m else ret tt.

Definition setup (fuel : nat) : M unit :=
  pinMode_OUTPUT ;;;
  digitalWrite HIGH ;;;
  when (MODE_OUTPUT_SINE_WAVE cfg) (buildLUT fuel TABLE_SIZE DAC_14_BIT) ;;;
  SPI_begin ;;;
  SPI_beginTransaction ;;;
  when (MODE_OUTPUT_SINGLE_VALUE cfg)
    (dacCode <-- lift (call_dacBipolarVoltageToCode DAC_14_BIT (REF_VOLT b)
                         (outputThisVoltage cfg)) ;;
     digitalWrite LOW ;;;
     SPI_transfer16 dacCode ;;;
     digitalWrite HIGH).

Definition loop (fuel : nat) : M unit :=
  when (MODE_OUTPUT_SINE_WAVE cfg)
    (digitalWrite LOW ;;;
     g <-- get ;;
     w <-- read_sineLUT (tableCounter g) ;;
     SPI_transfer16 w ;;;
     digitalWrite HIGH ;;;
     let c := to_uint16 (tableCounter g + 1) in
     let c := if c >=? TABLE_SIZE then 0 else c in
     put {| sineLUT := sineLUT g; tableCounter := c |}) ;;;
  when (MODE_OUTPUT_FULL_RANGE cfg) (fullRangeTest b fuel true DAC_14_BIT) ;;;
  when (MODE_OUTPUT_QUICK_CHANGE cfg) (quickChangeTest fuel DAC_14_BIT).

(** The Arduino core's [main] calls [setup()] once and then [loop()]
    for ever; [drive n] is its first [n] calls of [loop()]. *)
Fixpoint drive (fuel : nat) (n : nat) : M unit :=
  match n with
  | O => ret tt
  | S n' => loop fuel ;;; drive fuel n'
  end.

Definition sketch (fuel : nat) (n : nat) : M unit :=
  setup fuel ;;; drive fuel n.

End Sketch.

(** The four modes, one switch each, and the sketch as it is shipped. *)
Definition single_value (v : spec_float) : config :=
  {| MODE_OUTPUT_SINGLE_VALUE := true; MODE_OUTPUT_FULL_RANGE := false;
     MODE_OUTPUT_SINE_WAVE := false; MODE_OUTPUT_QUICK_CHANGE := false;
     outputThisVoltage := v |}.
Definition full_range : config :=
  {| MODE_OUTPUT_SINGLE_VALUE := false; MODE_OUTPUT_FULL_RANGE := true;
     MODE_OUTPUT_SINE_WAVE := false; MODE_OUTPUT_QUICK_CHANGE := false;
     outputThisVoltage := outputThisVoltage_init |}.
Definition sine_wave : config :=
  {| MODE_OUTPUT_SINGLE_VALUE := false; MODE_OUTPUT_FULL_RANGE := false;
     MODE_OUTPUT_SINE_WAVE := true; MODE_OUTPUT_QUICK_CHANGE := false;
     outputThisVoltage := outputThisVoltage_init |}.
Definition quick_change : config :=
  {| MODE_OUTPUT_SINGLE_VALUE := false; MODE_OUTPUT_FULL_RANGE := false;
     MODE_OUTPUT_SINE_WAVE := false; MODE_OUTPUT_QUICK_CHANGE := true;
     outputThisVoltage := outputThisVoltage_init |}.

(** * Vocabulary of the specification *)

(** ** Frames on the bus *)

(** One transfer, framed by the select line, as the sketch writes it
    around every [SPI.transfer16]. *)
Definition frame (w : Z) : list event :=
  [DigitalWrite LOW; Transfer16 w; DigitalWrite HIGH].

Definition frames (ws : list Z) : list event := flat_map frame ws.

(** ** Binary32 numbers as real numbers *)

Definition bpow (e : Z) : R := powerRZ 2 e.

(** The real number [m * 2^e]. *)
Definition F2R (m e : Z) : R := (IZR m * bpow e)%R.

Definition SF2R (x : spec_float) : R :=
  match x with
  | S754_finite s m e => F2R (cond_Zopp s (Zpos m)) e
  | _ => 0%R
  end.

Definition is_finite (x : spec_float) : bool :=
  match x with
  | S754_zero _ | S754_finite _ _ _ => true
  | _ => false
  end.

(** The exponent of the binary32 numbers of magnitude [2^(d-1) .. 2^d]. *)
Definition fexp32 (d : Z) : Z := Z.max (d - 24) (-149).

(** [compare_agrees c x y]: the comparison [c] is defined and is that of
    the reals [x] and [y]. *)
Definition compare_agrees (c : option comparison) (x y : R) : Prop :=
  match c with
  | Some Lt => (x < y)%R
  | Some Eq => x = y
  | Some Gt => (y < x)%R
  | None => False
  end.

(** [located X m l]: the real [X] lies in [[m, m+1)], at the place [l]
    says. *)
Definition located (X : R) (m : Z) (l : location) : Prop :=
  match l with
  | loc_Exact => X = IZR m
  | loc_Inexact Lt => (IZR m < X < IZR m + / 2)%R
  | loc_Inexact Eq => X = (IZR m + / 2)%R
  | loc_Inexact Gt => (IZR m + / 2 < X < IZR m + 1)%R
  end.

Definition rloc (mrs : shr_record) (X : R) : Prop :=
  located X (shr_m mrs) (loc_of_shr_record mrs).

(** [f] is a valid finite binary32 number, and none is nearer to [x]. *)
Definition nearest (x : R) (f : spec_float) : Prop :=
  F32.valid f = true /\ is_finite f = true /\
  forall g, F32.valid g = true -> is_finite g = true ->
    (Rabs (SF2R f - x) <= Rabs (SF2R g - x))%R.

(** The last steps of [binary_round_aux]: the rounded mantissa [N] is
    brought back to the format (it may have one digit too many) and
    packed. *)
Definition pack (N E : Z) : spec_float :=
  let '(mrs, e) := shr_fexp F32.prec F32.emax N E loc_Exact in
  match shr_m mrs with
  | Z0 => S754_zero false
  | Zpos m =>
      if e <=? F32.emax - F32.prec then S754_finite false m e
      else S754_infinity false
  | Zneg _ => S754_nan
  end.

(** [bounded_by k a]: [a] is a valid finite binary32 number with
    [|a| <= 2^k]. *)
Definition bounded_by (k : Z) (a : spec_float) : Prop :=
  F32.valid a = true /\ is_finite a = true /\ (Rabs (SF2R a) <= bpow k)%R.

(** The binary32 number [2^k]. *)
Definition pow2 (k : Z) : spec_float := S754_finite false 8388608 (k - 23).

(** ** The converter *)

(** The rounded, shifted and offset quotient of the converter, before
    the conversion to an integer: [code_f + 0.5f] as a function of the
    quotient [vout / VREF]. *)
Definition code_plus_half (bits : Z) (q : spec_float) : spec_float :=
  F32.add (F32.add (F32.mul q (pow2 (bits - 1))) (pow2 (bits - 1))) F32.half.

(** The integer clamp and the final conversion of the converter. *)
Definition clamp_code (bits code_i : Z) : Z :=
  let maxCode := to_int32 (to_uint32 (Z.shiftl 1 bits) - 1) in
  let code_i := if code_i <? 0 then 0 else code_i in
  let code_i := if code_i >? maxCode then maxCode else code_i in
  to_uint16 code_i.

(** What the converter computes from the quotient [q = vout / VREF]. *)
Definition quantize (bits : Z) (q : spec_float) : option Z :=
  let halfScale := to_uint32 (Z.shiftl 1 (bits - 1)) in
  let code_f :=
    F32.add (F32.mul q (F32.of_Z halfScale)) (F32.of_Z halfScale) in
  code_i <- F32.to_int32 (F32.add code_f F32.half) ;;
  Some (clamp_code bits code_i).

(** ** The sine table *)

(** What the C library must grant for the table: at an angle of the
    table, [sinf] returns a binary32 number between -1 and 1. *)
Definition sinf_in_range (s : spec_float) : Prop :=
  F32.valid s = true
  /\ F32.leb (F32.neg F32.one) s = true /\ F32.leb s F32.one = true.

(** [sinf_in_range], decided. *)
Definition sinf_in_rangeb (s : spec_float) : bool :=
  F32.valid s && F32.leb (F32.neg F32.one) s && F32.leb s F32.one.

(** [1 - 2^-14]. *)
Definition near_one : spec_float := S754_finite false 16776192 (-24).

(** The argument of the conversion in [lut_code], as a function of the
    value of [sinf]. *)
Definition lut_pre (s : spec_float) : spec_float :=
  F32.add (F32.mul (F32.add (F32.mul s F32.half) F32.half) (F32.of_Z 16383))
          F32.half.

(** The entry [buildLUT] stores for the sine value [s]. *)
Definition lut_entry (s : spec_float) : Z :=
  match F32.to_uint16 (lut_pre s) with
  | Some code => Z.land code 16383
  | None => 0
  end.

(** A reference [sinf] for small angles: the sine series, summed
    exactly by Horner's rule as a fraction and rounded once. *)
Fixpoint sin_horner (K : nat) (k : Z) (n2 : Z) (d2 : positive) : Z * positive :=
  match K with
  | O => (1, 1%positive)
  | S K' =>
      let '(hn, hd) := sin_horner K' (k + 1) n2 d2 in
      let c := (d2 * Z.to_pos (2 * k * (2 * k + 1)) * hd)%positive in
      (Zpos c - n2 * hn, c)
  end.

Definition round_fraction (n : Z) (d : positive) : spec_float :=
  match n with
  | Z0 => S754_zero false
  | Zpos p =>
      SFdiv F32.prec F32.emax (S754_finite false p 0) (S754_finite false d 0)
  | Zneg p =>
      SFdiv F32.prec F32.emax (S754_finite true p 0) (S754_finite false d 0)
  end.

Definition sinf_series (x : spec_float) : spec_float :=
  match x with
  | S754_zero _ => x
  | S754_finite s m e =>
      let n := match e with Zneg _ => Zpos m | _ => Zpos m * 2 ^ e end in
      let d := match e with
               | Zneg p => Z.to_pos (2 ^ Zpos p)
               | _ => 1%positive
               end in
      let '(hn, hd) := sin_horner 30 1 (n * n) (d * d) in
      round_fraction (cond_Zopp s n * hn) (d * hd)
  | _ => S754_nan
  end.

(** ** The pattern generators *)

(** [count_from j n] is [j; j+1; ...; j+n-1]. *)
Fixpoint count_from (j : Z) (n : nat) : list Z :=
  match n with
  | O => []
  | S n' => j :: count_from (j + 1) n'
  end.

(** The codes of one ascending and of one descending sweep. *)
Definition ramp_up (bits : Z) : list Z := count_from 0 (S (Z.to_nat bits)).
Definition ramp_down (bits : Z) : list Z :=
  map (fun j => bits - j) (ramp_up bits).

(** The codes of [n] rounds of the [while(1)] loop entered with [val]. *)
Fixpoint toggle (n : nat) (bits : Z) (val : bool) : list Z :=
  match n with
  | O => []
  | S n' => (if val then bits else 0) :: toggle n' bits (negb val)
  end.

Definition with_tableCounter (g : globals) (c : Z) : globals :=
  {| sineLUT := sineLUT g; tableCounter := c |}.

(** The word sent by the [k]-th round of playback started at cursor [c]. *)
Definition sample (lut : list Z) (c : Z) (k : nat) : Z :=
  to_uint16 (nth (Z.to_nat ((c + Z.of_nat k) mod TABLE_SIZE)) lut 0).

(** ** The command format *)

(** A word whose two top bits are zero. *)
Definition code_ok (w : Z) : Prop := 0 <= w <= 16383.

Definition lut_ok (g : globals) : Prop := Forall code_ok (sineLUT g).

(** [safe Q m]: started with a table of 14-bit codes, [m] sends only
    14-bit codes, and if it returns it leaves such a table and a result
    satisfying [Q]. *)
Definition safe {A} (Q : A -> Prop) (m : M A) : Prop :=
  forall g, lut_ok g ->
    Forall code_ok (transfers (trace_of (m g)))
    /\ forall a g', outcome_of (m g) = Returned a g' -> lut_ok g' /\ Q a.

(** ** The converter outside its nominal range *)

(** [VREF], the magnitude of the reference, as the converter computes
    it. *)
Definition magnitude (vref : spec_float) : spec_float :=
  if F32.geb vref F32.zero then vref else F32.neg vref.

(** The two clamps of the voltage to [[-VREF, VREF]]. *)
Definition clamp_vout (VREF vout : spec_float) : spec_float :=
  let vout := if F32.gtb vout VREF then VREF else vout in
  if F32.ltb vout (F32.neg VREF) then F32.neg VREF else vout.

Definition is_nan (x : spec_float) : bool :=
  match x with S754_nan => true | _ => false end.

(** The representation of [x] with [k] added to its exponent field.
    It need not be a binary32 number; where it is one ([F32.valid]), it
    is the product of [x] by [2^k]. *)
Definition shift_exponent (k : Z) (x : spec_float) : spec_float :=
  match x with
  | S754_finite s m e => S754_finite s m (e + k)
  | _ => x
  end.

(** The code an ideal converter would compute before rounding: the
    voltage, limited to [[-V, V]], on the scale [0 .. 2^bits]. *)
Definition ideal_code (bits : Z) (V v : R) : R :=
  (Rmax (- V) (Rmin V v) / V * bpow (bits - 1) + bpow (bits - 1))%R.

(** ** The whole sketch *)

(** What [setup()] does to the pin and the bus before any transfer. *)
Definition bus_setup : list event :=
  [PinModeOutput; DigitalWrite HIGH; SPIBegin; SPIBeginTransaction].

(** The sine part of [loop()]: one sample, and the cursor moved on. *)
Definition sine_step : M unit :=
  digitalWrite LOW ;;;
  g <-- get ;;
  w <-- read_sineLUT (tableCounter g) ;;
  SPI_transfer16 w ;;;
  digitalWrite HIGH ;;;
  let c := to_uint16 (tableCounter g + 1) in
  let c := if c >=? TABLE_SIZE then 0 else c in
  put {| sineLUT := sineLUT g; tableCounter := c |}.

(** The table has its [TABLE_SIZE] entries and the cursor is inside. *)
Definition table_ok (g : globals) : Prop :=
  length (sineLUT g) = Z.to_nat TABLE_SIZE
  /\ 0 <= tableCounter g < TABLE_SIZE.

(** [framed m]: started with the cursor inside the table, [m] emits
    only whole frames, has no undefined behaviour, and leaves the cursor
    inside the table when it returns. *)
Definition framed {A} (m : M A) : Prop :=
  forall g, table_ok g ->
    (exists ws, trace_of (m g) = frames ws)
    /\ outcome_of (m g) <> Undefined
    /\ forall a g', outcome_of (m g) = Returned a g' -> table_ok g'.

(** * Properties *)

(** ** Traces of sequenced computations *)

Lemma bind_emit {B} (e : event) (k : unit -> M B) (g : globals) :
  bind (emit e) k g = (e :: trace_of (k tt g), outcome_of (k tt g)).
Proof.
  unfold bind, emit, trace_of, outcome_of. destruct (k tt g); reflexivity.
Qed.

Lemma bind_ret {A B} (a : A) (k : A -> M B) (g : globals) :
  bind (ret a) k g = k a g.
Proof.
  unfold bind, ret. destruct (k a g); reflexivity.
Qed.

Lemma bind_returned {A B} (m : M A) (k : A -> M B) g t a g' :
  m g = (t, Returned a g') ->
  bind m k g = (t ++ trace_of (k a g'), outcome_of (k a g')).
Proof.
  intros E. unfold bind, trace_of, outcome_of. rewrite E.
  destruct (k a g'); reflexivity.
Qed.

Lemma transfers_app (t1 t2 : list event) :
  transfers (t1 ++ t2) = transfers t1 ++ transfers t2.
Proof.
  induction t1 as [|e t1 IH]; simpl; [reflexivity|].
  destruct e; simpl; rewrite IH; reflexivity.
Qed.

Lemma transfers_frames (ws : list Z) : transfers (frames ws) = ws.
Proof.
  induction ws as [|w ws IH]; simpl; [reflexivity|]. now rewrite IH.
Qed.

Lemma to_uint16_small (z : Z) : 0 <= z < 65536 -> to_uint16 z = z.
Proof. intros H. unfold to_uint16, wrap. apply Z.mod_small. simpl. lia. Qed.

Lemma to_uint16_range (z : Z) : 0 <= to_uint16 z < 65536.
Proof. unfold to_uint16, wrap. apply Z.mod_pos_bound. reflexivity. Qed.

(** ** Binary32 as real numbers *)

Lemma fexp32_eq d : fexp F32.prec F32.emax d = fexp32 d.
Proof. reflexivity. Qed.

Lemma bpow_gt_0 e : (0 < bpow e)%R.
Proof. apply powerRZ_lt. lra. Qed.

Lemma bpow_plus a b : bpow (a + b) = (bpow a * bpow b)%R.
Proof. apply powerRZ_add. lra. Qed.

Lemma bpow_0 : bpow 0 = 1%R.
Proof. reflexivity. Qed.

Lemma bpow_1 : bpow 1 = 2%R.
Proof. unfold bpow. simpl. lra. Qed.

Lemma bpow_m1 : bpow (-1) = (/ 2)%R.
Proof. unfold bpow. simpl. f_equal. lra. Qed.

Lemma bpow_opp e : bpow (- e) = (/ bpow e)%R.
Proof. apply powerRZ_neg'. Qed.

Lemma bpow_IZR k : 0 <= k -> bpow k = IZR (2 ^ k).
Proof.
  intros Hk. destruct k as [|p|p]; [reflexivity| |lia].
  unfold bpow, powerRZ. rewrite pow_IZR. f_equal.
  now rewrite positive_nat_Z.
Qed.

Lemma bpow_le a b : a <= b -> (bpow a <= bpow b)%R.
Proof.
  intros H. replace b with (a + (b - a)) by lia. rewrite bpow_plus.
  rewrite (bpow_IZR (b - a)) by lia.
  assert (0 < 2 ^ (b - a)) by (apply Z.pow_pos_nonneg; lia).
  assert (1 <= 2 ^ (b - a)) by lia.
  apply IZR_le in H1. pose proof (bpow_gt_0 a). nra.
Qed.

Lemma bpow_lt a b : a < b -> (bpow a < bpow b)%R.
Proof.
  intros H. replace b with (a + 1 + (b - a - 1)) by lia.
  rewrite !bpow_plus, bpow_1.
  pose proof (bpow_le 0 (b - a - 1) ltac:(lia)) as L. rewrite bpow_0 in L.
  pose proof (bpow_gt_0 a). nra.
Qed.

Lemma bpow_lt_inv a b : (bpow a < bpow b)%R -> a < b.
Proof.
  intros H. destruct (Z_lt_le_dec a b) as [L|L]; [exact L|].
  apply bpow_le in L. lra.
Qed.

Lemma F2R_bpow_shift m e k : 0 <= k -> F2R (m * 2 ^ k) (e - k) = F2R m e.
Proof.
  intros Hk. unfold F2R. rewrite mult_IZR, <- bpow_IZR by lia.
  replace e with ((e - k) + k) at 2 by lia. rewrite bpow_plus. ring.
Qed.

(** *** Number of digits *)

Lemma digits2_pos_bounds (p : positive) :
  2 ^ (Zpos (digits2_pos p) - 1) <= Zpos p < 2 ^ Zpos (digits2_pos p).
Proof.
  induction p as [p IH|p IH|]; cbn [digits2_pos].
  - rewrite Pos2Z.inj_succ.
    replace (Z.succ (Zpos (digits2_pos p)) - 1)
      with (Z.succ (Zpos (digits2_pos p) - 1)) by lia.
    rewrite !Z.pow_succ_r by lia. lia.
  - rewrite Pos2Z.inj_succ.
    replace (Z.succ (Zpos (digits2_pos p)) - 1)
      with (Z.succ (Zpos (digits2_pos p) - 1)) by lia.
    rewrite !Z.pow_succ_r by lia. lia.
  - simpl. lia.
Qed.

Lemma Zdigits2_bounds (m : Z) :
  0 < m -> 2 ^ (Zdigits2 m - 1) <= m < 2 ^ Zdigits2 m.
Proof.
  destruct m as [|p|p]; try lia. intros _. apply digits2_pos_bounds.
Qed.

Lemma Zdigits2_nonneg (m : Z) : 0 <= Zdigits2 m.
Proof. destruct m; simpl; lia. Qed.

Lemma Zdigits2_unique (m d : Z) :
  2 ^ (d - 1) <= m < 2 ^ d -> 0 < m -> Zdigits2 m = d.
Proof.
  intros H Hm. pose proof (Zdigits2_bounds m Hm) as B.
  pose proof (Zdigits2_nonneg m).
  assert (0 < d).
  { destruct (Z_lt_le_dec 0 d); [assumption|].
    assert (2 ^ d <= 2 ^ 0) by (apply Z.pow_le_mono_r; lia). simpl in *. lia. }
  destruct (Z.lt_trichotomy (Zdigits2 m) d) as [L|[L|L]]; [|exact L|].
  - assert (2 ^ Zdigits2 m <= 2 ^ (d - 1)) by (apply Z.pow_le_mono_r; lia). lia.
  - assert (2 ^ d <= 2 ^ (Zdigits2 m - 1)) by (apply Z.pow_le_mono_r; lia). lia.
Qed.

(** The magnitude of a positive float. *)
Lemma F2R_mag (m e : Z) :
  0 < m ->
  (bpow (Zdigits2 m + e - 1) <= F2R m e < bpow (Zdigits2 m + e))%R.
Proof.
  intros Hm. pose proof (Zdigits2_bounds m Hm) as [L U].
  assert (0 < Zdigits2 m).
  { destruct m; simpl; lia. }
  unfold F2R.
  replace (Zdigits2 m + e - 1) with ((Zdigits2 m - 1) + e) by lia.
  rewrite !bpow_plus, (bpow_IZR (Zdigits2 m - 1)), (bpow_IZR (Zdigits2 m)) by lia.
  apply IZR_le in L. apply IZR_lt in U. pose proof (bpow_gt_0 e). split; nra.
Qed.

(** *** Valid floats and their order *)

Lemma valid_finite_inv (s : bool) (m : positive) (e : Z) :
  F32.valid (S754_finite s m e) = true ->
  fexp32 (Zpos (digits2_pos m) + e) = e /\ e <= 104.
Proof.
  unfold F32.valid, valid_binary, SpecFloat.bounded, canonical_mantissa.
  rewrite fexp32_eq. intros H. apply andb_prop in H. destruct H as [H1 H2].
  apply Z.eqb_eq in H1. apply Z.leb_le in H2.
  split; [exact H1|exact H2].
Qed.

Lemma valid_finite_intro (s : bool) (m : positive) (e : Z) :
  fexp32 (Zpos (digits2_pos m) + e) = e -> e <= 104 ->
  F32.valid (S754_finite s m e) = true.
Proof.
  intros H1 H2.
  unfold F32.valid, valid_binary, SpecFloat.bounded, canonical_mantissa.
  rewrite fexp32_eq. apply andb_true_intro. split.
  - now apply Z.eqb_eq.
  - now apply Z.leb_le.
Qed.

Lemma valid_opp (x : spec_float) : F32.valid (SFopp x) = F32.valid x.
Proof. destruct x; reflexivity. Qed.

Lemma is_finite_opp (x : spec_float) : is_finite (SFopp x) = is_finite x.
Proof. destruct x; reflexivity. Qed.

Lemma SF2R_opp (x : spec_float) : SF2R (SFopp x) = (- SF2R x)%R.
Proof.
  destruct x as [s|s| |s m e]; cbn [SFopp SF2R]; try lra.
  unfold F2R. destruct s; cbn [negb cond_Zopp]; rewrite ?opp_IZR; lra.
Qed.

Lemma F2R_pos (m : positive) (e : Z) : (0 < F2R (Zpos m) e)%R.
Proof.
  unfold F2R. pose proof (bpow_gt_0 e).
  assert (0 < IZR (Zpos m))%R by (apply IZR_lt; lia). nra.
Qed.

Lemma canonical_lt (m1 m2 : positive) (e1 e2 : Z) :
  fexp32 (Zpos (digits2_pos m1) + e1) = e1 ->
  fexp32 (Zpos (digits2_pos m2) + e2) = e2 ->
  e1 < e2 ->
  (F2R (Zpos m1) e1 < F2R (Zpos m2) e2)%R.
Proof.
  intros C1 C2 H.
  assert (D : Zpos (digits2_pos m1) + e1 < Zpos (digits2_pos m2) + e2).
  { unfold fexp32 in *. lia. }
  pose proof (F2R_mag (Zpos m1) e1 ltac:(lia)) as [_ U].
  pose proof (F2R_mag (Zpos m2) e2 ltac:(lia)) as [L _].
  cbn [Zdigits2] in *.
  pose proof (bpow_le (Zpos (digits2_pos m1) + e1)
                (Zpos (digits2_pos m2) + e2 - 1) ltac:(lia)).
  lra.
Qed.

Lemma F2R_lt_same_exp (m1 m2 e : Z) :
  m1 < m2 -> (F2R m1 e < F2R m2 e)%R.
Proof.
  intros H. unfold F2R. apply IZR_lt in H. pose proof (bpow_gt_0 e). nra.
Qed.

Lemma compare_pos (m1 m2 : positive) (e1 e2 : Z) :
  fexp32 (Zpos (digits2_pos m1) + e1) = e1 ->
  fexp32 (Zpos (digits2_pos m2) + e2) = e2 ->
  compare_agrees
    (Some match e1 ?= e2 with
          | Lt => Lt
          | Gt => Gt
          | Eq => Pos.compare_cont Eq m1 m2
          end)
    (F2R (Zpos m1) e1) (F2R (Zpos m2) e2).
Proof.
  intros C1 C2. destruct (Z.compare_spec e1 e2) as [E|L|G]; cbn [compare_agrees].
  - subst e2. change (Pos.compare_cont Eq m1 m2) with (Pos.compare m1 m2).
    destruct (Pos.compare_spec m1 m2) as [E|L|G].
    + now subst.
    + apply F2R_lt_same_exp. lia.
    + apply F2R_lt_same_exp. lia.
  - now apply canonical_lt.
  - now apply canonical_lt.
Qed.

Lemma SFcompare_spec (x y : spec_float) :
  F32.valid x = true -> F32.valid y = true ->
  is_finite x = true -> is_finite y = true ->
  compare_agrees (SFcompare x y) (SF2R x) (SF2R y).
Proof.
  intros Vx Vy Fx Fy.
  destruct x as [sx|sx| |sx mx ex]; try discriminate Fx;
    destruct y as [sy|sy| |sy my ey]; try discriminate Fy;
    cbn [SFcompare SF2R].
  - reflexivity.
  - pose proof (F2R_pos my ey) as P. unfold F2R in *.
    destruct sy; cbn [compare_agrees cond_Zopp]; rewrite ?opp_IZR; lra.
  - pose proof (F2R_pos mx ex) as P. unfold F2R in *.
    destruct sx; cbn [compare_agrees cond_Zopp]; rewrite ?opp_IZR; lra.
  - apply valid_finite_inv in Vx, Vy. destruct Vx as [Cx _], Vy as [Cy _].
    pose proof (F2R_pos mx ex) as Px. pose proof (F2R_pos my ey) as Py.
    destruct sx, sy; cbn [cond_Zopp].
    + pose proof (compare_pos mx my ex ey Cx Cy) as H.
      unfold F2R in *. rewrite !opp_IZR.
      destruct (ex ?= ey); [destruct (Pos.compare_cont Eq mx my)| |];
        cbn [compare_agrees CompOpp] in *; lra.
    + cbn [compare_agrees]. unfold F2R in *. rewrite opp_IZR. lra.
    + cbn [compare_agrees]. unfold F2R in *. rewrite opp_IZR. lra.
    + apply (compare_pos mx my ex ey Cx Cy).
Qed.

Lemma SFleb_spec (x y : spec_float) :
  F32.valid x = true -> F32.valid y = true ->
  is_finite x = true -> is_finite y = true ->
  SFleb x y = true <-> (SF2R x <= SF2R y)%R.
Proof.
  intros Vx Vy Fx Fy. pose proof (SFcompare_spec x y Vx Vy Fx Fy) as H.
  unfold SFleb. destruct (SFcompare x y) as [[| |]|]; cbn [compare_agrees] in H;
    split; intros G; try reflexivity; try discriminate; try lra; tauto.
Qed.

Lemma SFltb_spec (x y : spec_float) :
  F32.valid x = true -> F32.valid y = true ->
  is_finite x = true -> is_finite y = true ->
  SFltb x y = true <-> (SF2R x < SF2R y)%R.
Proof.
  intros Vx Vy Fx Fy. pose proof (SFcompare_spec x y Vx Vy Fx Fy) as H.
  unfold SFltb. destruct (SFcompare x y) as [[| |]|]; cbn [compare_agrees] in H;
    split; intros G; try reflexivity; try discriminate; try lra; tauto.
Qed.

(** Two valid finite floats of the same value are the same float, or
    both are zeros. *)
Lemma SF2R_inj (x y : spec_float) :
  F32.valid x = true -> F32.valid y = true ->
  is_finite x = true -> is_finite y = true ->
  SF2R x = SF2R y ->
  x = y \/ (exists sx sy, x = S754_zero sx /\ y = S754_zero sy).
Proof.
  intros Vx Vy Fx Fy E.
  destruct x as [sx|sx| |sx mx ex]; try discriminate Fx;
    destruct y as [sy|sy| |sy my ey]; try discriminate Fy;
    cbn [SF2R] in E.
  - right. now exists sx, sy.
  - exfalso. pose proof (F2R_pos my ey). unfold F2R in *.
    destruct sy; cbn [cond_Zopp] in E; rewrite ?opp_IZR in E; lra.
  - exfalso. pose proof (F2R_pos mx ex). unfold F2R in *.
    destruct sx; cbn [cond_Zopp] in E; rewrite ?opp_IZR in E; lra.
  - left. apply valid_finite_inv in Vx, Vy. destruct Vx as [Cx _], Vy as [Cy _].
    pose proof (F2R_pos mx ex) as Px. pose proof (F2R_pos my ey) as Py.
    assert (S : sx = sy).
    { unfold F2R in *.
      destruct sx, sy; cbn [cond_Zopp] in E; rewrite ?opp_IZR in E;
        try reflexivity; lra. }
    subst sy.
    assert (E' : F2R (Zpos mx) ex = F2R (Zpos my) ey).
    { unfold F2R in *.
      destruct sx; cbn [cond_Zopp] in E; rewrite ?opp_IZR in E; lra. }
    pose proof (compare_pos mx my ex ey Cx Cy) as H.
    destruct (Z.compare_spec ex ey) as [Ee|L|G]; cbn [compare_agrees] in H;
      try lra.
    subst ey. change (Pos.compare_cont Eq mx my) with (Pos.compare mx my) in H.
    destruct (Pos.compare_spec mx my) as [Em|L|G]; cbn [compare_agrees] in H;
      try lra.
    now subst.
Qed.

Lemma located_bounds (X : R) (m : Z) (l : location) :
  located X m l -> (IZR m <= X < IZR m + 1)%R.
Proof. destruct l as [|[| |]]; cbn [located]; lra. Qed.

Lemma rloc_of_loc (X : R) (m : Z) (l : location) :
  located X m l -> rloc (shr_record_of_loc m l) X.
Proof. destruct l as [|[| |]]; exact (fun H => H). Qed.

Lemma shr_m_of_loc (m : Z) (l : location) : shr_m (shr_record_of_loc m l) = m.
Proof. destruct l as [|[| |]]; reflexivity. Qed.

Lemma shr_1_located (mrs : shr_record) (X : R) :
  0 <= shr_m mrs -> rloc mrs X ->
  rloc (shr_1 mrs) (X * / 2) /\ 0 <= shr_m (shr_1 mrs).
Proof.
  destruct mrs as [m r s]. unfold rloc. cbn [shr_m]. intros Hm H.
  destruct m as [|p|p]; [| |lia].
  - destruct r, s; cbn in *; split; try lia; lra.
  - destruct p as [p|p|]; cbn [shr_1 shr_m]; (split; [|lia]).
    + pose proof (IZR_POS_xI p) as EI.
      destruct r, s; cbn [orb loc_of_shr_record located] in *; lra.
    + pose proof (IZR_POS_xO p) as EO.
      destruct r, s; cbn [orb loc_of_shr_record located] in *; lra.
    + destruct r, s; cbn [orb loc_of_shr_record located] in *; lra.
Qed.

Lemma iter_shr_1_located (p : positive) : forall (mrs : shr_record) (X : R),
  0 <= shr_m mrs -> rloc mrs X ->
  rloc (SpecFloat.iter_pos shr_1 p mrs) (X * bpow (- Zpos p))
  /\ 0 <= shr_m (SpecFloat.iter_pos shr_1 p mrs).
Proof.
  induction p as [p IH|p IH|]; intros mrs X Hm H; cbn [SpecFloat.iter_pos].
  - destruct (shr_1_located mrs X Hm H) as [H1 M1].
    destruct (IH _ _ M1 H1) as [H2 M2].
    destruct (IH _ _ M2 H2) as [H3 M3].
    split; [|exact M3].
    replace (X * bpow (- Zpos p~1))%R
      with (X * / 2 * bpow (- Zpos p) * bpow (- Zpos p))%R; [exact H3|].
    replace (- Zpos p~1) with (- 1 + (- Zpos p + - Zpos p)) by lia.
    rewrite !bpow_plus, bpow_m1. ring.
  - destruct (IH _ _ Hm H) as [H2 M2].
    destruct (IH _ _ M2 H2) as [H3 M3].
    split; [|exact M3].
    replace (X * bpow (- Zpos p~0))%R
      with (X * bpow (- Zpos p) * bpow (- Zpos p))%R; [exact H3|].
    replace (- Zpos p~0) with (- Zpos p + - Zpos p) by lia.
    rewrite !bpow_plus. ring.
  - change (bpow (- Zpos 1)) with (bpow (-1)). rewrite bpow_m1.
    now apply shr_1_located.
Qed.

Lemma shr_located (m : Z) (l : location) (e n : Z) (X : R) :
  0 <= m -> located X m l -> 0 <= n ->
  exists mrs,
    shr (shr_record_of_loc m l) e n = (mrs, e + n)
    /\ rloc mrs (X * bpow (- n)) /\ 0 <= shr_m mrs.
Proof.
  intros Hm H Hn. destruct n as [|p|p]; [| |lia].
  - exists (shr_record_of_loc m l). cbn [shr].
    rewrite Z.add_0_r. change (bpow (- 0)) with 1%R. rewrite Rmult_1_r.
    split; [reflexivity|]. split; [now apply rloc_of_loc|].
    now rewrite shr_m_of_loc.
  - exists (SpecFloat.iter_pos shr_1 p (shr_record_of_loc m l)). cbn [shr].
    split; [reflexivity|].
    apply iter_shr_1_located; [now rewrite shr_m_of_loc|now apply rloc_of_loc].
Qed.

Lemma shr_fexp_located (m : Z) (l : location) (e : Z) (X : R) :
  0 <= m -> located X m l -> e <= fexp32 (Zdigits2 m + e) ->
  exists mrs,
    shr_fexp F32.prec F32.emax m e l = (mrs, fexp32 (Zdigits2 m + e))
    /\ rloc mrs (X * bpow (e - fexp32 (Zdigits2 m + e)))
    /\ 0 <= shr_m mrs.
Proof.
  intros Hm H He. unfold shr_fexp. rewrite fexp32_eq.
  destruct (shr_located m l e (fexp32 (Zdigits2 m + e) - e) X Hm H ltac:(lia))
    as (mrs & E & L & M).
  exists mrs. split; [|split].
  - rewrite E. f_equal. lia.
  - replace (e - fexp32 (Zdigits2 m + e))
      with (- (fexp32 (Zdigits2 m + e) - e)) by lia. exact L.
  - exact M.
Qed.

(** Rounding to nearest, ties to even, of a located real. *)
Lemma round_nearest_even_located (X : R) (n : Z) (l : location) :
  located X n l ->
  let N := round_nearest_even n l in
  (N = n \/ N = n + 1) /\ (- / 2 <= IZR N - X <= / 2)%R.
Proof.
  intros H N. subst N.
  destruct l as [|[| |]]; cbn [located round_nearest_even] in *.
  - split; [now left|]. lra.
  - destruct (Z.even n); (split; [auto|]); rewrite ?plus_IZR; lra.
  - split; [now left|]. lra.
  - split; [now right|]. rewrite plus_IZR. lra.
Qed.

(** *** Rounding *)

Lemma binary_round_aux_pack (m e : Z) (l : location) (mrs : shr_record) (E : Z) :
  shr_fexp F32.prec F32.emax m e l = (mrs, E) ->
  binary_round_aux F32.prec F32.emax false m e l
  = pack (round_nearest_even (shr_m mrs) (loc_of_shr_record mrs)) E.
Proof. intros H. unfold binary_round_aux, pack. rewrite H. reflexivity. Qed.

Lemma binary_round_aux_opp (m e : Z) (l : location) :
  binary_round_aux F32.prec F32.emax true m e l
  = SFopp (binary_round_aux F32.prec F32.emax false m e l).
Proof.
  unfold binary_round_aux.
  destruct (shr_fexp F32.prec F32.emax m e l) as [mrs' e'].
  destruct (shr_fexp F32.prec F32.emax _ e' loc_Exact) as [mrs'' e''].
  destruct (shr_m mrs''); [reflexivity| |reflexivity].
  destruct (e'' <=? F32.emax - F32.prec); reflexivity.
Qed.

Lemma pack_spec (N E : Z) :
  0 <= N -> -149 <= E <= 100 ->
  N = 0 \/ fexp32 (Zdigits2 N + E) = E \/ N = 2 ^ 24 ->
  F32.valid (pack N E) = true /\ is_finite (pack N E) = true
  /\ SF2R (pack N E) = F2R N E.
Proof.
  intros HN HE [H|[H|H]].
  - subst N. unfold pack, shr_fexp. rewrite fexp32_eq. cbn [Zdigits2].
    assert (K : fexp32 (0 + E) - E <= 0) by (unfold fexp32; lia).
    destruct (fexp32 (0 + E) - E) as [|p|p] eqn:Ek; try lia;
      cbn; unfold F2R; (split; [reflexivity|split; [reflexivity|lra]]).
  - destruct (Z.eq_dec N 0) as [->|NZ].
    { unfold pack, shr_fexp. rewrite fexp32_eq, H, Z.sub_diag.
      cbn. unfold F2R. split; [reflexivity|split; [reflexivity|lra]]. }
    unfold pack, shr_fexp. rewrite fexp32_eq, H, Z.sub_diag.
    cbn [shr shr_record_of_loc shr_m]. destruct N as [|p|p]; try lia.
    replace (E <=? F32.emax - F32.prec) with true
      by (symmetry; apply Z.leb_le; unfold F32.emax, F32.prec; lia).
    split; [|split; reflexivity].
    apply valid_finite_intro; [exact H|lia].
  - subst N. unfold pack, shr_fexp. rewrite fexp32_eq.
    change (Zdigits2 (2 ^ 24)) with 25.
    replace (fexp32 (25 + E) - E) with 1 by (unfold fexp32; lia).
    cbn [shr shr_record_of_loc SpecFloat.iter_pos].
    change (shr_1 {| shr_m := 2 ^ 24; shr_r := false; shr_s := false |})
      with {| shr_m := 2 ^ 23; shr_r := false; shr_s := false |}.
    cbn [shr_m]. change (2 ^ 23) with (Zpos (2 ^ 23)).
    cbv iota.
    replace (E + 1 <=? F32.emax - F32.prec) with true
      by (symmetry; apply Z.leb_le; unfold F32.emax, F32.prec; lia).
    split; [|split; [reflexivity|]].
    + apply valid_finite_intro; [|lia].
      change (Zpos (digits2_pos (2 ^ 23))) with 24. unfold fexp32. lia.
    + cbn [SF2R cond_Zopp].
      change (Zpos (2 ^ 23)) with (2 ^ 23).
      rewrite <- (F2R_bpow_shift (2 ^ 23) (E + 1) 1) by lia.
      f_equal. lia.
Qed.

(** The grid of binary32 numbers around [x]: no valid number lies
    strictly between [n * 2^E] and [(n+1) * 2^E]. *)
Lemma grid (E n : Z) (x : R) (g : spec_float) :
  0 <= n ->
  E = -149 \/ (-149 <= E /\ (bpow (E + 23) <= x)%R) ->
  (IZR n <= x * bpow (- E) < IZR n + 1)%R ->
  F32.valid g = true -> is_finite g = true -> (0 <= SF2R g)%R ->
  (SF2R g <= F2R n E \/ F2R (n + 1) E <= SF2R g)%R.
Proof.
  intros Hn HE Hx Vg Fg Pg.
  pose proof (bpow_gt_0 E) as U.
  destruct g as [s|s| |s mg eg]; try discriminate Fg.
  - left. cbn [SF2R]. unfold F2R. apply IZR_le in Hn. nra.
  - apply valid_finite_inv in Vg. destruct Vg as [Cg _].
    pose proof (F2R_pos mg eg) as Pm.
    destruct s; cbn [SF2R cond_Zopp] in *.
    { exfalso. unfold F2R in *. rewrite opp_IZR in Pg. lra. }
    destruct (Z_lt_le_dec eg E) as [L|L].
    + left.
      assert (E23 : (bpow (E + 23) <= x)%R).
      { destruct HE as [->|[_ H]]; [unfold fexp32 in Cg; lia|exact H]. }
      pose proof (F2R_mag (Zpos mg) eg ltac:(lia)) as [_ Ug]. cbn [Zdigits2] in Ug.
      assert (D : Zpos (digits2_pos mg) + eg <= E + 23) by (unfold fexp32 in Cg; lia).
      apply bpow_le in D.
      assert (N23 : 2 ^ 23 <= n).
      { assert (IZR (2 ^ 23) < IZR (n + 1))%R; [|apply lt_IZR in H; lia].
        rewrite plus_IZR, <- bpow_IZR by lia.
        assert (bpow 23 <= x * bpow (- E))%R; [|lra].
        replace 23 with ((E + 23) + - E) by lia. rewrite bpow_plus.
        pose proof (bpow_gt_0 (- E)). nra. }
      apply IZR_le in N23. rewrite <- bpow_IZR in N23 by lia.
      unfold F2R at 2. pose proof (bpow_plus E 23) as P23.
      assert (bpow E * bpow 23 <= IZR n * bpow E)%R by nra.
      lra.
    + rewrite <- (F2R_bpow_shift (Zpos mg) eg (eg - E)) by lia.
      replace (eg - (eg - E)) with E by lia.
      destruct (Z_le_gt_dec (Zpos mg * 2 ^ (eg - E)) n) as [C|C].
      * left. unfold F2R. apply IZR_le in C. nra.
      * right. unfold F2R.
        assert (C' : n + 1 <= Zpos mg * 2 ^ (eg - E)) by lia.
        apply IZR_le in C'. nra.
Qed.

Lemma Rabs_le_Rabs_pos (a b : R) : (- b <= a <= b)%R -> (Rabs a <= Rabs b)%R.
Proof. intros H. unfold Rabs. destruct (Rcase_abs a), (Rcase_abs b); lra. Qed.

Lemma Rabs_le_Rabs_neg (a b : R) : (b <= a <= - b)%R -> (Rabs a <= Rabs b)%R.
Proof. intros H. unfold Rabs. destruct (Rcase_abs a), (Rcase_abs b); lra. Qed.

Lemma scaled_back (x : R) (E : Z) : (x * bpow (- E) * bpow E = x)%R.
Proof.
  rewrite Rmult_assoc, <- bpow_plus. replace (- E + E) with 0 by lia.
  rewrite bpow_0. ring.
Qed.

(** [binary_round_aux] applied to a located positive real [x] returns a
    nearest binary32 number. *)
Lemma binary_round_aux_nearest (m e : Z) (l : location) (x : R) :
  0 <= m -> located (x * bpow (- e)) m l ->
  e <= fexp32 (Zdigits2 m + e) ->
  (0 < x < bpow 100)%R ->
  nearest x (binary_round_aux F32.prec F32.emax false m e l)
  /\ (0 <= SF2R (binary_round_aux F32.prec F32.emax false m e l))%R.
Proof.
  intros Hm H He Hx.
  destruct (shr_fexp_located m l e _ Hm H He) as (mrs & E1 & L1 & M1).
  rewrite (binary_round_aux_pack _ _ _ _ _ E1).
  remember (fexp32 (Zdigits2 m + e)) as E eqn:EE.
  assert (XE : (x * bpow (- e) * bpow (e - E) = x * bpow (- E))%R).
  { rewrite Rmult_assoc, <- bpow_plus. do 2 f_equal. lia. }
  rewrite XE in L1. unfold rloc in L1.
  remember (shr_m mrs) as n eqn:En.
  remember (loc_of_shr_record mrs) as l' eqn:El.
  pose proof (located_bounds _ _ _ L1) as B.
  pose proof (located_bounds _ _ _ H) as B0.
  pose proof (bpow_gt_0 E) as U.
  pose proof (bpow_gt_0 e) as Ue.
  pose proof (scaled_back x e) as Xe.
  pose proof (scaled_back x E) as XEb.
  assert (E149 : -149 <= E) by (subst E; unfold fexp32; lia).
  assert (Hcase : (n = 0 /\ E = -149)
                  \/ (exists d, 1 <= n /\ Zdigits2 n + E = d /\ E = fexp32 d
                                /\ (bpow (d - 1) <= x < bpow d)%R)).
  { destruct (Z.eq_dec m 0) as [->|NZ].
    - left. cbn [Zdigits2] in *.
      assert (e <= -149 /\ E = -149) as [He' HE'] by (unfold fexp32 in *; lia).
      split; [|exact HE'].
      pose proof (bpow_le (e - E) 0 ltac:(lia)) as P. rewrite bpow_0 in P.
      pose proof (bpow_gt_0 (e - E)).
      assert (IZR n < 1)%R by (rewrite <- XE in B; nra).
      apply (lt_IZR n 1) in H1. lia.
    - pose proof (F2R_mag m e ltac:(lia)) as [ML MU]. unfold F2R in ML, MU.
      pose proof (Zdigits2_bounds m ltac:(lia)) as [_ DU].
      assert (XL : (bpow (Zdigits2 m + e - 1) <= x)%R) by nra.
      assert (XU : (x < bpow (Zdigits2 m + e))%R).
      { assert (IZR (m + 1) <= IZR (2 ^ Zdigits2 m))%R by (apply IZR_le; lia).
        rewrite plus_IZR, <- bpow_IZR in H0 by apply Zdigits2_nonneg.
        rewrite bpow_plus. nra. }
      remember (Zdigits2 m + e) as d eqn:Ed.
      destruct (Z_le_gt_dec E (d - 1)) as [C|C].
      + right. exists d.
        assert (NL : 2 ^ (d - 1 - E) <= n).
        { assert (IZR (2 ^ (d - 1 - E)) < IZR (n + 1))%R;
            [|apply lt_IZR in H0; lia].
          rewrite plus_IZR, <- bpow_IZR by lia.
          replace (d - 1 - E) with ((d - 1) + - E) by lia. rewrite bpow_plus.
          pose proof (bpow_gt_0 (- E)). nra. }
        assert (NU : n < 2 ^ (d - E)).
        { apply lt_IZR. rewrite <- bpow_IZR by lia.
          replace (d - E) with (d + - E) by lia. rewrite bpow_plus.
          pose proof (bpow_gt_0 (- E)). nra. }
        assert (0 < 2 ^ (d - 1 - E)) by (apply Z.pow_pos_nonneg; lia).
        split; [lia|]. split; [|split; [exact EE|split; assumption]].
        rewrite (Zdigits2_unique n (d - E)); [lia| |lia].
        replace (d - E - 1) with (d - 1 - E) by lia. lia.
      + left. assert (E = -149) by (unfold fexp32 in EE; lia).
        split; [|assumption].
        pose proof (bpow_le (d - E) 0 ltac:(lia)) as P. rewrite bpow_0 in P.
        assert (x * bpow (- E) < 1)%R.
        { pose proof (bpow_gt_0 (- E)).
          replace (d - E) with (d + - E) in P by lia. rewrite bpow_plus in P.
          nra. }
        assert (IZR n < 1)%R by lra.
        apply (lt_IZR n 1) in H2. lia. }
  destruct (round_nearest_even_located _ _ _ L1) as [HN HA].
  remember (round_nearest_even n l') as N eqn:EN.
  assert (E100 : E <= 100).
  { destruct Hcase as [[_ ->]|(d & _ & _ & Ed & Bd)]; [lia|].
    assert (d - 1 < 100) by (apply bpow_lt_inv; lra).
    unfold fexp32 in Ed. lia. }
  assert (HP : N = 0 \/ fexp32 (Zdigits2 N + E) = E \/ N = 2 ^ 24).
  { destruct Hcase as [[-> ->]|(d & Hn1 & Dn & Ed & Bd)].
    - destruct HN as [->| ->]; [now left|right; left; reflexivity].
    - destruct HN as [->| ->]; [right; left; congruence|].
      pose proof (Zdigits2_bounds n ltac:(lia)) as [DL DU].
      pose proof (Zdigits2_nonneg n) as Dnn.
      destruct (Z_lt_le_dec (n + 1) (2 ^ Zdigits2 n)) as [C|C].
      + right; left.
        rewrite (Zdigits2_unique (n + 1) (Zdigits2 n)); [congruence|lia|lia].
      + assert (Nn : n + 1 = 2 ^ Zdigits2 n) by lia.
        destruct (Z.eq_dec E (d - 24)) as [C'|C'].
        * right; right. rewrite Nn. f_equal. lia.
        * right; left.
          rewrite (Zdigits2_unique (n + 1) (Zdigits2 n + 1)).
          -- unfold fexp32 in *. lia.
          -- replace (Zdigits2 n + 1 - 1) with (Zdigits2 n) by lia.
             rewrite Z.pow_add_r by lia. lia.
          -- lia. }
  assert (N0 : 0 <= N) by lia.
  destruct (pack_spec N E N0 ltac:(lia) HP) as (V & F & S).
  split.
  2:{ rewrite S. unfold F2R. apply IZR_le in N0. nra. }
  split; [exact V|]. split; [exact F|].
  intros g Vg Fg. rewrite S. unfold F2R.
  pose proof (scaled_back (SF2R g) E) as Gb.
  remember (SF2R g * bpow (- E))%R as gq eqn:Egq.
  remember (x * bpow (- E))%R as xq eqn:Exq.
  rewrite <- XEb, <- Gb.
  replace (IZR N * bpow E - xq * bpow E)%R with ((IZR N - xq) * bpow E)%R by ring.
  replace (gq * bpow E - xq * bpow E)%R with ((gq - xq) * bpow E)%R by ring.
  rewrite !Rabs_mult, (Rabs_pos_eq (bpow E)) by lra.
  apply Rmult_le_compat_r; [lra|].
  assert (Nn : (IZR N = IZR n \/ IZR N = IZR n + 1)%R).
  { destruct HN as [->| ->]; [now left|right; now rewrite plus_IZR]. }
  assert (n0 : (0 <= IZR n)%R) by (apply IZR_le; lia).
  destruct (Rlt_le_dec (SF2R g) 0) as [Gneg|Gpos].
  - assert (gq < 0)%R.
    { subst gq. pose proof (bpow_gt_0 (- E)). nra. }
    apply Rabs_le_Rabs_neg. lra.
  - assert (HG : E = -149 \/ -149 <= E /\ (bpow (E + 23) <= x)%R).
    { destruct Hcase as [[_ ->]|(d & _ & _ & Ed & Bd)]; [now left|].
      destruct (Z.eq_dec E (-149)) as [C|C]; [now left|right].
      split; [lia|]. replace (E + 23) with (d - 1) by (unfold fexp32 in Ed; lia).
      lra. }
    assert (B' : (IZR n <= x * bpow (- E) < IZR n + 1)%R) by (subst xq; exact B).
    assert (Hn0 : 0 <= n) by lia.
    destruct (grid E n x g Hn0 HG B' Vg Fg Gpos) as [G|G];
      unfold F2R in G; rewrite ?plus_IZR in G.
    + assert (gq <= IZR n)%R.
      { apply (Rmult_le_reg_r (bpow E)); [lra|]. lra. }
      apply Rabs_le_Rabs_neg. lra.
    + assert (IZR n + 1 <= gq)%R.
      { apply (Rmult_le_reg_r (bpow E)); [lra|]. lra. }
      apply Rabs_le_Rabs_pos. lra.
Qed.

(** *** What follows from being nearest *)

Lemma nearest_self (f : spec_float) :
  F32.valid f = true -> is_finite f = true -> nearest (SF2R f) f.
Proof.
  intros V F. split; [exact V|]. split; [exact F|].
  intros g _ _. rewrite Rminus_diag, Rabs_R0. apply Rabs_pos.
Qed.

Lemma nearest_zero (s : bool) : nearest 0 (S754_zero s).
Proof. apply (nearest_self (S754_zero s)); reflexivity. Qed.

Lemma nearest_opp (x : R) (f : spec_float) :
  nearest x f -> nearest (- x) (SFopp f).
Proof.
  intros (V & F & N). split; [now rewrite valid_opp|].
  split; [now rewrite is_finite_opp|].
  intros g Vg Fg. rewrite SF2R_opp.
  specialize (N (SFopp g)). rewrite valid_opp, is_finite_opp, SF2R_opp in N.
  specialize (N Vg Fg).
  replace (- SF2R f - - x)%R with (- (SF2R f - x))%R by ring.
  replace (SF2R g - - x)%R with (- (- SF2R g - x))%R by ring.
  now rewrite !Rabs_Ropp.
Qed.

Lemma nearest_exact (x : R) (f g : spec_float) :
  nearest x f -> F32.valid g = true -> is_finite g = true -> SF2R g = x ->
  SF2R f = x.
Proof.
  intros (_ & _ & N) Vg Fg E. specialize (N g Vg Fg).
  rewrite E, Rminus_diag, Rabs_R0 in N.
  pose proof (Rabs_pos (SF2R f - x)).
  assert (Z : Rabs (SF2R f - x) = 0%R) by lra.
  unfold Rabs in Z. destruct (Rcase_abs (SF2R f - x)); lra.
Qed.

Lemma nearest_ge (x : R) (f a : spec_float) :
  nearest x f -> F32.valid a = true -> is_finite a = true ->
  (SF2R a <= x)%R -> (SF2R a <= SF2R f)%R.
Proof.
  intros (_ & _ & N) Va Fa H. specialize (N a Va Fa).
  unfold Rabs in N.
  destruct (Rcase_abs (SF2R f - x)), (Rcase_abs (SF2R a - x)); lra.
Qed.

Lemma nearest_le (x : R) (f a : spec_float) :
  nearest x f -> F32.valid a = true -> is_finite a = true ->
  (x <= SF2R a)%R -> (SF2R f <= SF2R a)%R.
Proof.
  intros (_ & _ & N) Va Fa H. specialize (N a Va Fa).
  unfold Rabs in N.
  destruct (Rcase_abs (SF2R f - x)), (Rcase_abs (SF2R a - x)); lra.
Qed.

(** Rounding to nearest is monotone. *)
Lemma nearest_lt_mono (x y : R) (f g : spec_float) :
  nearest x f -> nearest y g -> (x < y)%R -> (SF2R f <= SF2R g)%R.
Proof.
  intros (Vf & Ff & Nf) (Vg & Fg & Ng) H.
  specialize (Nf g Vg Fg). specialize (Ng f Vf Ff).
  unfold Rabs in Nf, Ng.
  destruct (Rcase_abs (SF2R f - x)), (Rcase_abs (SF2R g - x)),
    (Rcase_abs (SF2R g - y)), (Rcase_abs (SF2R f - y)); lra.
Qed.

(** *** Rounding a signed located real *)

Lemma binary_round_aux_signed (s : bool) (m e : Z) (l : location) (x : R) :
  0 <= m -> located (x * bpow (- e)) m l ->
  e <= fexp32 (Zdigits2 m + e) ->
  (0 < x < bpow 100)%R ->
  nearest (if s then - x else x)%R (binary_round_aux F32.prec F32.emax s m e l).
Proof.
  intros Hm H He Hx.
  destruct (binary_round_aux_nearest m e l x Hm H He Hx) as [N _].
  destruct s; [|exact N].
  rewrite binary_round_aux_opp. now apply nearest_opp.
Qed.

(** *** Aligning a mantissa *)

Lemma Pos_iter_xO (m d : positive) :
  Zpos (Pos.iter xO m d) = Zpos m * 2 ^ Zpos d.
Proof.
  induction d as [|d IH] using Pos.peano_ind.
  - cbn [Pos.iter]. lia.
  - rewrite Pos.iter_succ, Pos2Z.inj_xO, IH, Pos2Z.inj_succ, Z.pow_succ_r; lia.
Qed.

Lemma shl_align_spec (m : positive) (e e' : Z) :
  let '(mz, ez) := shl_align m e e' in
  ez = Z.min e e' /\ Zpos mz = Zpos m * 2 ^ (e - ez).
Proof.
  unfold shl_align. destruct (e' - e) as [|p|p] eqn:D.
  - split; [lia|]. replace (e - e) with 0 by lia. lia.
  - split; [lia|]. replace (e - e) with 0 by lia. lia.
  - split; [lia|]. rewrite Pos_iter_xO. do 2 f_equal. lia.
Qed.

Lemma Zdigits2_shift (m : positive) (k : Z) :
  0 <= k -> Zdigits2 (Zpos m * 2 ^ k) = Zpos (digits2_pos m) + k.
Proof.
  intros Hk. pose proof (digits2_pos_bounds m) as [L U].
  assert (0 < 2 ^ k) by (apply Z.pow_pos_nonneg; lia).
  apply Zdigits2_unique; [|lia].
  replace (Zpos (digits2_pos m) + k - 1) with (Zpos (digits2_pos m) - 1 + k) by lia.
  rewrite !Z.pow_add_r by lia. nia.
Qed.

Lemma binary_round_nearest (s : bool) (m : positive) (e : Z) :
  (F2R (Zpos m) e < bpow 100)%R ->
  nearest (F2R (cond_Zopp s (Zpos m)) e) (binary_round F32.prec F32.emax s m e).
Proof.
  intros B. unfold binary_round. rewrite fexp32_eq.
  pose proof (shl_align_spec m e (fexp32 (Zpos (digits2_pos m) + e))) as A.
  destruct (shl_align m e (fexp32 (Zpos (digits2_pos m) + e))) as [mz ez].
  destruct A as [Ez Mz].
  assert (V : F2R (Zpos mz) ez = F2R (Zpos m) e).
  { rewrite Mz. replace ez with (e - (e - ez)) at 2 by lia.
    apply F2R_bpow_shift. lia. }
  assert (D : Zdigits2 (Zpos mz) + ez = Zpos (digits2_pos m) + e).
  { rewrite Mz, Zdigits2_shift by lia. lia. }
  replace (F2R (cond_Zopp s (Zpos m)) e)
    with (if s then (- F2R (Zpos m) e)%R else F2R (Zpos m) e).
  2:{ destruct s; cbn [cond_Zopp]; [|reflexivity].
      unfold F2R. rewrite opp_IZR. ring. }
  rewrite <- V.
  apply binary_round_aux_signed.
  - lia.
  - cbn [located]. unfold F2R. rewrite Rmult_assoc, <- bpow_plus.
    replace (ez + - ez) with 0 by lia. rewrite bpow_0. ring.
  - rewrite D. lia.
  - rewrite V. split; [apply F2R_pos|exact B].
Qed.

Lemma binary_normalize_nearest (m e : Z) (sz : bool) :
  (Rabs (F2R m e) < bpow 100)%R ->
  nearest (F2R m e) (binary_normalize F32.prec F32.emax m e sz).
Proof.
  intros B. destruct m as [|p|p]; cbn [binary_normalize].
  - replace (F2R 0 e) with 0%R by (unfold F2R; ring). apply nearest_zero.
  - apply (binary_round_nearest false p e).
    rewrite Rabs_pos_eq in B; [exact B|]. pose proof (F2R_pos p e). lra.
  - apply (binary_round_nearest true p e).
    replace (F2R (Zneg p) e) with (- F2R (Zpos p) e)%R in B
      by (unfold F2R; change (Zneg p) with (- Zpos p); rewrite opp_IZR; ring).
    rewrite Rabs_Ropp, Rabs_pos_eq in B; [exact B|].
    pose proof (F2R_pos p e). lra.
Qed.

(** *** Addition *)

Lemma F2R_plus (a b e : Z) : F2R (a + b) e = (F2R a e + F2R b e)%R.
Proof. unfold F2R. rewrite plus_IZR. ring. Qed.

Lemma F2R_cond_Zopp (s : bool) (m e : Z) :
  F2R (cond_Zopp s m) e = (if s then - F2R m e else F2R m e)%R.
Proof. destruct s; cbn [cond_Zopp]; unfold F2R; rewrite ?opp_IZR; ring. Qed.

Lemma F2R_shl_align (s : bool) (m : positive) (e ez : Z) :
  ez <= e ->
  F2R (cond_Zopp s (Zpos (fst (shl_align m e ez)))) ez
  = F2R (cond_Zopp s (Zpos m)) e.
Proof.
  intros H. pose proof (shl_align_spec m e ez) as A.
  destruct (shl_align m e ez) as [mz ez']. destruct A as [Ez Mz]. cbn [fst].
  rewrite !F2R_cond_Zopp.
  assert (F2R (Zpos mz) ez = F2R (Zpos m) e) as ->; [|reflexivity].
  rewrite Mz. replace ez' with ez by lia.
  replace ez with (e - (e - ez)) at 2 by lia.
  apply F2R_bpow_shift. lia.
Qed.

Lemma SFadd_nearest (x y : spec_float) :
  F32.valid x = true -> F32.valid y = true ->
  is_finite x = true -> is_finite y = true ->
  (Rabs (SF2R x + SF2R y) < bpow 100)%R ->
  nearest (SF2R x + SF2R y) (F32.add x y).
Proof.
  intros Vx Vy Fx Fy B. unfold F32.add.
  destruct x as [sx|sx| |sx mx ex]; try discriminate Fx;
    destruct y as [sy|sy| |sy my ey]; try discriminate Fy.
  - cbn [SF2R]. rewrite Rplus_0_l.
    destruct sx, sy; apply nearest_zero.
  - cbn [SFadd]. replace (SF2R (S754_zero sx)) with 0%R by reflexivity.
    rewrite Rplus_0_l. now apply nearest_self.
  - cbn [SFadd]. replace (SF2R (S754_zero sy)) with 0%R by reflexivity.
    rewrite Rplus_0_r. now apply nearest_self.
  - cbn [SFadd SF2R] in *.
    rewrite <- (F2R_shl_align sx mx ex (Z.min ex ey)) in * by lia.
    rewrite <- (F2R_shl_align sy my ey (Z.min ex ey)) in * by lia.
    rewrite <- F2R_plus in *.
    now apply binary_normalize_nearest.
Qed.

(** *** Multiplication *)

Lemma Zdigits2_lower (m k : Z) : 0 < m -> 2 ^ (k - 1) <= m -> k <= Zdigits2 m.
Proof.
  intros Hm H. pose proof (Zdigits2_bounds m Hm) as [_ U].
  pose proof (Zdigits2_nonneg m).
  destruct (Z_le_gt_dec k (Zdigits2 m)) as [C|C]; [exact C|].
  assert (2 ^ Zdigits2 m <= 2 ^ (k - 1)) by (apply Z.pow_le_mono_r; lia).
  lia.
Qed.

Lemma SFmul_nearest (x y : spec_float) :
  F32.valid x = true -> F32.valid y = true ->
  is_finite x = true -> is_finite y = true ->
  (Rabs (SF2R x * SF2R y) < bpow 100)%R ->
  nearest (SF2R x * SF2R y) (F32.mul x y).
Proof.
  intros Vx Vy Fx Fy B. unfold F32.mul.
  destruct x as [sx|sx| |sx mx ex]; try discriminate Fx;
    destruct y as [sy|sy| |sy my ey]; try discriminate Fy;
    cbn [SFmul]; try (cbn [SF2R]; rewrite ?Rmult_0_l, ?Rmult_0_r;
                      apply nearest_zero).
  apply valid_finite_inv in Vx, Vy. destruct Vx as [Cx _], Vy as [Cy _].
  pose proof (F2R_pos mx ex) as Px. pose proof (F2R_pos my ey) as Py.
  assert (P : F2R (Zpos (mx * my)) (ex + ey)
              = (F2R (Zpos mx) ex * F2R (Zpos my) ey)%R).
  { unfold F2R. rewrite Pos2Z.inj_mul, mult_IZR, bpow_plus. ring. }
  cbn [SF2R] in *. rewrite !F2R_cond_Zopp in *.
  replace ((if sx then (- F2R (Zpos mx) ex)%R else F2R (Zpos mx) ex)
           * (if sy then (- F2R (Zpos my) ey)%R else F2R (Zpos my) ey))%R
    with (if xorb sx sy then (- F2R (Zpos (mx * my)) (ex + ey))%R
          else F2R (Zpos (mx * my)) (ex + ey)) in *
    by (rewrite P; destruct sx, sy; cbn [xorb]; ring).
  apply binary_round_aux_signed.
  - lia.
  - cbn [located]. unfold F2R. rewrite Rmult_assoc, <- bpow_plus.
    replace (ex + ey + - (ex + ey)) with 0 by lia. rewrite bpow_0. ring.
  - pose proof (digits2_pos_bounds mx) as [Lx _].
    pose proof (digits2_pos_bounds my) as [Ly _].
    assert (Dx : 0 < Zpos (digits2_pos mx)) by lia.
    assert (Dy : 0 < Zpos (digits2_pos my)) by lia.
    assert (D : Zpos (digits2_pos mx) + Zpos (digits2_pos my) - 1
                <= Zdigits2 (Zpos (mx * my))).
    { apply Zdigits2_lower; [lia|].
      replace (Zpos (digits2_pos mx) + Zpos (digits2_pos my) - 1 - 1)
        with ((Zpos (digits2_pos mx) - 1) + (Zpos (digits2_pos my) - 1)) by lia.
      rewrite Z.pow_add_r, Pos2Z.inj_mul by lia.
      apply Z.mul_le_mono_nonneg; try lia;
        apply Z.pow_nonneg; lia. }
    unfold fexp32 in *. lia.
  - split; [apply F2R_pos|].
    destruct (xorb sx sy); [rewrite Rabs_Ropp in B|];
      rewrite Rabs_pos_eq in B; try exact B;
      pose proof (F2R_pos (mx * my) (ex + ey)); lra.
Qed.

(** *** Division *)

Lemma new_location_located (nb k q : Z) :
  0 < nb -> 0 <= k < nb ->
  located (IZR q + IZR k / IZR nb) q (new_location nb k).
Proof.
  intros Hnb Hk.
  assert (Pn : (0 < IZR nb)%R) by (apply IZR_lt; lia).
  remember (IZR k / IZR nb)%R as f eqn:Ef.
  assert (Fk : (f * IZR nb = IZR k)%R) by (subst f; field; lra).
  assert (K2 : (IZR (2 * k) = 2 * IZR k)%R) by (rewrite mult_IZR; reflexivity).
  assert (K21 : (IZR (2 * k + 1) = 2 * IZR k + 1)%R)
    by (rewrite plus_IZR, mult_IZR; reflexivity).
  assert (Z0 : k = 0 -> (f = 0)%R).
  { intros ->. destruct (Rmult_integral _ _ Fk) as [Z|Z]; [exact Z|lra]. }
  assert (Pf : k <> 0 -> (0 < f < 1)%R).
  { intros NZ. assert (0 < IZR k)%R by (apply IZR_lt; lia).
    assert (IZR k < IZR nb)%R by (apply IZR_lt; lia). split; nra. }
  unfold new_location. destruct (Z.even nb) eqn:Ev.
  - unfold new_location_even. destruct (Z.eqb_spec k 0) as [K0|NZ].
    + cbn [located]. rewrite (Z0 K0). lra.
    + specialize (Pf NZ).
      destruct (Z.compare_spec (2 * k) nb) as [E|L|G]; cbn [located].
      * apply (f_equal IZR) in E. rewrite K2 in E.
        assert (f = / 2)%R by nra. lra.
      * apply IZR_lt in L. rewrite K2 in L.
        assert (f < / 2)%R by nra. lra.
      * apply IZR_lt in G. rewrite K2 in G.
        assert (/ 2 < f)%R by nra. lra.
  - unfold new_location_odd. destruct (Z.eqb_spec k 0) as [K0|NZ].
    + cbn [located]. rewrite (Z0 K0). lra.
    + specialize (Pf NZ).
      assert (Odd : 2 * k <> nb).
      { intros E. rewrite <- E, Z.even_mul in Ev. discriminate Ev. }
      destruct (Z.compare_spec (2 * k + 1) nb) as [E|L|G]; cbn [located].
      * assert (L : 2 * k < nb) by lia.
        apply IZR_lt in L. rewrite K2 in L.
        assert (f < / 2)%R by nra. lra.
      * assert (L' : 2 * k < nb) by lia.
        apply IZR_lt in L'. rewrite K2 in L'.
        assert (f < / 2)%R by nra. lra.
      * assert (G' : nb < 2 * k) by lia.
        apply IZR_lt in G'. rewrite K2 in G'.
        assert (/ 2 < f)%R by nra. lra.
Qed.

Lemma SFdiv_core_binary_located (m1 m2 : positive) (e1 e2 : Z) :
  let '(q, e', l) :=
    SFdiv_core_binary F32.prec F32.emax (Zpos m1) e1 (Zpos m2) e2 in
  0 <= q
  /\ located (F2R (Zpos m1) e1 / F2R (Zpos m2) e2 * bpow (- e')) q l
  /\ e' <= fexp32 (Zdigits2 q + e').
Proof.
  unfold SFdiv_core_binary. rewrite fexp32_eq. cbn [Zdigits2].
  remember (Zpos (digits2_pos m1)) as d1 eqn:Ed1.
  remember (Zpos (digits2_pos m2)) as d2 eqn:Ed2.
  remember (Z.min (fexp32 (d1 + e1 - (d2 + e2))) (e1 - e2)) as e' eqn:Ee'.
  remember (e1 - e2 - e') as s eqn:Es.
  assert (Hs : 0 <= s) by lia.
  assert (M' : match s with
               | Z0 => Zpos m1
               | Zpos _ => Z.shiftl (Zpos m1) s
               | Zneg _ => 0
               end = Zpos m1 * 2 ^ s).
  { destruct s as [|p|p]; [lia| |lia]. now rewrite Z.shiftl_mul_pow2. }
  rewrite M'.
  pose proof (Z_div_mod (Zpos m1 * 2 ^ s) (Zpos m2) ltac:(lia)) as DM.
  destruct (Z.div_eucl (Zpos m1 * 2 ^ s) (Zpos m2)) as [q r].
  destruct DM as [Eq Hr].
  assert (P2 : 0 < 2 ^ s) by (apply Z.pow_pos_nonneg; lia).
  assert (Hq : 0 <= q) by nia.
  split; [exact Hq|]. split.
  - replace (F2R (Zpos m1) e1 / F2R (Zpos m2) e2 * bpow (- e'))%R
      with (IZR q + IZR r / IZR (Zpos m2))%R.
    { apply new_location_located; lia. }
    assert (Pm2 : (0 < IZR (Zpos m2))%R) by (apply IZR_lt; lia).
    pose proof (bpow_gt_0 e2) as U2.
    unfold F2R.
    replace e1 with (s + e2 + e') by lia.
    rewrite !bpow_plus, bpow_opp, bpow_IZR by lia.
    pose proof (bpow_gt_0 e') as U'.
    apply (f_equal IZR) in Eq. rewrite plus_IZR, !mult_IZR in Eq.
    field_simplify_eq; [|lra]. rewrite Eq. ring.
  - destruct (Z_le_gt_dec e' (-149)) as [C|C]; [unfold fexp32; lia|].
    assert (C' : e' <= d1 + e1 - (d2 + e2) - 24) by (unfold fexp32 in Ee'; lia).
    pose proof (digits2_pos_bounds m1) as [L1 _].
    pose proof (digits2_pos_bounds m2) as [_ U2].
    rewrite <- Ed1 in L1. rewrite <- Ed2 in U2.
    assert (Dd1 : 0 < d1) by lia. assert (Dd2 : 0 < d2) by lia.
    assert (QL : 2 ^ (d1 - 1 + s - d2) <= q).
    { apply Z.lt_succ_r.
      assert (Zpos m2 * 2 ^ (d1 - 1 + s - d2) < Zpos m2 * Z.succ q); [|nia].
      assert (2 ^ d2 * 2 ^ (d1 - 1 + s - d2) <= Zpos m1 * 2 ^ s).
      { rewrite <- Z.pow_add_r by lia.
        replace (d2 + (d1 - 1 + s - d2)) with ((d1 - 1) + s) by lia.
        rewrite Z.pow_add_r by lia. nia. }
      assert (0 < 2 ^ (d1 - 1 + s - d2)) by (apply Z.pow_pos_nonneg; lia).
      nia. }
    assert (0 < 2 ^ (d1 - 1 + s - d2)) by (apply Z.pow_pos_nonneg; lia).
    pose proof (Zdigits2_lower q (d1 + s - d2) ltac:(lia)) as DL.
    replace (d1 + s - d2 - 1) with (d1 - 1 + s - d2) in DL by lia.
    specialize (DL QL). unfold fexp32. lia.
Qed.

Lemma SFdiv_nearest (x y : spec_float) :
  is_finite x = true -> is_finite y = true ->
  SF2R y <> 0%R ->
  (Rabs (SF2R x / SF2R y) < bpow 100)%R ->
  nearest (SF2R x / SF2R y) (F32.div x y).
Proof.
  intros Fx Fy NZ B. unfold F32.div.
  destruct x as [sx|sx| |sx mx ex]; try discriminate Fx;
    destruct y as [sy|sy| |sy my ey]; try discriminate Fy;
    cbn [SFdiv]; try (exfalso; apply NZ; reflexivity).
  - cbn [SF2R]. unfold Rdiv. rewrite Rmult_0_l. apply nearest_zero.
  - pose proof (SFdiv_core_binary_located mx my ex ey) as H.
    destruct (SFdiv_core_binary F32.prec F32.emax (Zpos mx) ex (Zpos my) ey)
      as [[q e'] l].
    destruct H as (Hq & L & P).
    pose proof (F2R_pos mx ex) as Px. pose proof (F2R_pos my ey) as Py.
    assert (Pq : (0 < F2R (Zpos mx) ex / F2R (Zpos my) ey)%R)
      by (apply Rdiv_lt_0_compat; assumption).
    cbn [SF2R] in *. rewrite !F2R_cond_Zopp in *.
    replace ((if sx then (- F2R (Zpos mx) ex)%R else F2R (Zpos mx) ex)
             / (if sy then (- F2R (Zpos my) ey)%R else F2R (Zpos my) ey))%R
      with (if xorb sx sy then (- (F2R (Zpos mx) ex / F2R (Zpos my) ey))%R
            else (F2R (Zpos mx) ex / F2R (Zpos my) ey)%R) in *
      by (destruct sx, sy; cbn [xorb]; field; lra).
    apply binary_round_aux_signed; try assumption.
    split; [exact Pq|].
    destruct (xorb sx sy); [rewrite Rabs_Ropp in B|];
      rewrite Rabs_pos_eq in B; try exact B; lra.
Qed.

(** *** Bounded floats and monotone operations *)

Lemma pow2_spec (k : Z) :
  -126 <= k <= 127 ->
  F32.valid (pow2 k) = true /\ is_finite (pow2 k) = true
  /\ SF2R (pow2 k) = bpow k.
Proof.
  intros Hk. split; [|split; [reflexivity|]].
  - apply valid_finite_intro; [|lia].
    change (Zpos (digits2_pos 8388608)) with 24. unfold fexp32. lia.
  - cbn [pow2 SF2R cond_Zopp]. unfold F2R.
    change 8388608 with (2 ^ 23). rewrite <- bpow_IZR, <- bpow_plus by lia.
    f_equal. lia.
Qed.

Lemma nearest_bounded (x : R) (f : spec_float) (k : Z) :
  nearest x f -> -126 <= k <= 127 -> (Rabs x <= bpow k)%R -> bounded_by k f.
Proof.
  intros N Hk B. destruct (pow2_spec k Hk) as (V & F & S).
  pose proof N as (Vf & Ff & _). split; [exact Vf|]. split; [exact Ff|].
  assert (U : (SF2R f <= SF2R (pow2 k))%R).
  { apply (nearest_le x); try assumption. rewrite S.
    unfold Rabs in B. destruct (Rcase_abs x); lra. }
  assert (L : (SF2R (SFopp (pow2 k)) <= SF2R f)%R).
  { apply (nearest_ge x); try assumption;
      rewrite ?valid_opp, ?is_finite_opp, ?SF2R_opp, ?S; try assumption.
    unfold Rabs in B. destruct (Rcase_abs x); lra. }
  rewrite SF2R_opp in L. rewrite S in *. apply Rabs_le. lra.
Qed.

Lemma bounded_weaken (k k' : Z) (a : spec_float) :
  bounded_by k a -> k <= k' -> bounded_by k' a.
Proof.
  intros (V & F & B) H. split; [exact V|]. split; [exact F|].
  apply bpow_le in H. lra.
Qed.

Lemma bpow_double (k : Z) : (bpow k + bpow k = bpow (k + 1))%R.
Proof. rewrite bpow_plus, bpow_1. ring. Qed.

(** One operation with its second operand fixed, as a function of the
    first: if it rounds a strictly increasing real function, it is
    monotone. *)
Lemma rounded_mono (op : spec_float -> spec_float) (phi : R -> R)
      (a b : spec_float) :
  F32.valid a = true -> is_finite a = true ->
  F32.valid b = true -> is_finite b = true ->
  nearest (phi (SF2R a)) (op a) -> nearest (phi (SF2R b)) (op b) ->
  (forall x y : R, (x < y)%R -> (phi x < phi y)%R) ->
  (forall s s', SF2R (op (S754_zero s)) = SF2R (op (S754_zero s'))) ->
  (SF2R a <= SF2R b)%R -> (SF2R (op a) <= SF2R (op b))%R.
Proof.
  intros Va Fa Vb Fb Na Nb Hphi Hz [L|E].
  - apply (nearest_lt_mono (phi (SF2R a)) (phi (SF2R b))); auto.
  - destruct (SF2R_inj a b Va Vb Fa Fb E) as [->|(sa & sb & -> & ->)].
    + lra.
    + rewrite (Hz sa sb). lra.
Qed.

Lemma add_bounded (k : Z) (a c : spec_float) :
  bounded_by k a -> bounded_by k c -> -126 <= k < 99 ->
  nearest (SF2R a + SF2R c) (F32.add a c) /\ bounded_by (k + 1) (F32.add a c).
Proof.
  intros (Va & Fa & Ba) (Vc & Fc & Bc) Hk.
  pose proof (Rabs_triang (SF2R a) (SF2R c)) as T.
  pose proof (bpow_double k) as D.
  pose proof (bpow_lt (k + 1) 100 ltac:(lia)) as L.
  assert (N : nearest (SF2R a + SF2R c) (F32.add a c)).
  { apply SFadd_nearest; try assumption. lra. }
  split; [exact N|]. apply (nearest_bounded _ _ _ N); [lia|lra].
Qed.

Lemma add_mono (k : Z) (a b c : spec_float) :
  bounded_by k a -> bounded_by k b -> bounded_by k c -> -126 <= k < 99 ->
  (SF2R a <= SF2R b)%R -> (SF2R (F32.add a c) <= SF2R (F32.add b c))%R.
Proof.
  intros Ha Hb Hc Hk L.
  destruct (add_bounded k a c Ha Hc Hk) as [Na _].
  destruct (add_bounded k b c Hb Hc Hk) as [Nb _].
  destruct Ha as (Va & Fa & _), Hb as (Vb & Fb & _).
  apply (rounded_mono (fun x => F32.add x c) (fun x => (x + SF2R c)%R) a b);
    try assumption.
  - intros x y H. lra.
  - intros s s'. destruct Hc as (_ & Fc & _).
    destruct c as [sc|sc| |sc mc ec]; try discriminate Fc.
    + destruct s, s', sc; reflexivity.
    + reflexivity.
Qed.

Lemma mul_bounded (k k' : Z) (a c : spec_float) :
  bounded_by k a -> bounded_by k' c -> -126 <= k + k' < 100 ->
  nearest (SF2R a * SF2R c) (F32.mul a c) /\ bounded_by (k + k') (F32.mul a c).
Proof.
  intros (Va & Fa & Ba) (Vc & Fc & Bc) Hk.
  pose proof (bpow_lt (k + k') 100 ltac:(lia)) as L.
  assert (B : (Rabs (SF2R a * SF2R c) <= bpow (k + k'))%R).
  { rewrite Rabs_mult, bpow_plus.
    pose proof (Rabs_pos (SF2R a)). pose proof (Rabs_pos (SF2R c)).
    apply Rmult_le_compat; assumption. }
  assert (N : nearest (SF2R a * SF2R c) (F32.mul a c)).
  { apply SFmul_nearest; try assumption. lra. }
  split; [exact N|]. apply (nearest_bounded _ _ _ N); [lia|exact B].
Qed.

Lemma mul_mono (k k' : Z) (a b c : spec_float) :
  bounded_by k a -> bounded_by k b -> bounded_by k' c -> -126 <= k + k' < 100 ->
  (0 < SF2R c)%R ->
  (SF2R a <= SF2R b)%R -> (SF2R (F32.mul a c) <= SF2R (F32.mul b c))%R.
Proof.
  intros Ha Hb Hc Hk Pc L.
  destruct (mul_bounded k k' a c Ha Hc Hk) as [Na _].
  destruct (mul_bounded k k' b c Hb Hc Hk) as [Nb _].
  destruct Ha as (Va & Fa & _), Hb as (Vb & Fb & _).
  apply (rounded_mono (fun x => F32.mul x c) (fun x => (x * SF2R c)%R) a b);
    try assumption.
  - intros x y H. nra.
  - intros s s'. destruct Hc as (_ & Fc & _).
    destruct c as [sc|sc| |sc mc ec]; try discriminate Fc; reflexivity.
Qed.

Lemma div_bounded (a c : spec_float) :
  F32.valid a = true -> is_finite a = true -> is_finite c = true ->
  (0 < SF2R c)%R -> (Rabs (SF2R a) <= SF2R c)%R ->
  nearest (SF2R a / SF2R c) (F32.div a c) /\ bounded_by 0 (F32.div a c).
Proof.
  intros Va Fa Fc Pc B.
  assert (Q : (Rabs (SF2R a / SF2R c) <= 1)%R).
  { unfold Rdiv. rewrite Rabs_mult, Rabs_inv, (Rabs_pos_eq (SF2R c)) by lra.
    apply (Rmult_le_reg_r (SF2R c)); [exact Pc|].
    rewrite Rmult_assoc, Rinv_l by lra. lra. }
  pose proof (bpow_lt 0 100 ltac:(lia)) as L. rewrite bpow_0 in L.
  assert (N : nearest (SF2R a / SF2R c) (F32.div a c)).
  { apply SFdiv_nearest; try assumption; lra. }
  split; [exact N|].
  apply (nearest_bounded _ _ _ N); [lia|now rewrite bpow_0].
Qed.

Lemma div_mono (a b c : spec_float) :
  F32.valid a = true -> is_finite a = true ->
  F32.valid b = true -> is_finite b = true ->
  is_finite c = true ->
  (0 < SF2R c)%R -> (Rabs (SF2R a) <= SF2R c)%R -> (Rabs (SF2R b) <= SF2R c)%R ->
  (SF2R a <= SF2R b)%R -> (SF2R (F32.div a c) <= SF2R (F32.div b c))%R.
Proof.
  intros Va Fa Vb Fb Fc Pc Ba Bb L.
  destruct (div_bounded a c Va Fa Fc Pc Ba) as [Na _].
  destruct (div_bounded b c Vb Fb Fc Pc Bb) as [Nb _].
  apply (rounded_mono (fun x => F32.div x c) (fun x => (x / SF2R c)%R) a b);
    try assumption.
  - intros x y H. unfold Rdiv.
    apply Rmult_lt_compat_r; [now apply Rinv_0_lt_compat|exact H].
  - intros s s'.
    destruct c as [sc|sc| |sc mc ec]; try discriminate Fc; reflexivity.
Qed.

(** *** Truncation *)

Lemma shiftl_floor (m : positive) (e : Z) :
  (IZR (Z.shiftl (Zpos m) e) <= F2R (Zpos m) e
   < IZR (Z.shiftl (Zpos m) e) + 1)%R
  /\ 0 <= Z.shiftl (Zpos m) e.
Proof.
  destruct (Z_le_gt_dec 0 e) as [C|C].
  - rewrite Z.shiftl_mul_pow2 by lia. unfold F2R.
    rewrite mult_IZR, <- bpow_IZR by lia.
    split; [lra|]. apply Z.mul_nonneg_nonneg; [lia|apply Z.pow_nonneg; lia].
  - rewrite Z.shiftl_div_pow2 by lia.
    assert (P : 0 < 2 ^ (- e)) by (apply Z.pow_pos_nonneg; lia).
    pose proof (Z.div_mod (Zpos m) (2 ^ (- e)) ltac:(lia)) as DM.
    pose proof (Z.mod_pos_bound (Zpos m) (2 ^ (- e)) P) as MB.
    remember (Zpos m / 2 ^ (- e)) as t eqn:Et.
    remember (Zpos m mod 2 ^ (- e)) as r eqn:Er.
    split; [|nia].
    unfold F2R. replace e with (- (- e)) at 1 2 by lia.
    rewrite bpow_opp, bpow_IZR by lia.
    assert (PR : (0 < IZR (2 ^ (- e)))%R) by (apply IZR_lt; lia).
    assert (E : IZR (Zpos m) = (IZR (2 ^ (- e)) * IZR t + IZR r)%R).
    { rewrite DM at 1. now rewrite plus_IZR, mult_IZR. }
    assert (R0 : (0 <= IZR r)%R) by (apply IZR_le; lia).
    assert (R1 : (IZR r < IZR (2 ^ (- e)))%R) by (apply IZR_lt; lia).
    rewrite E. split.
    + apply (Rmult_le_reg_r (IZR (2 ^ (- e)))); [exact PR|].
      rewrite Rmult_assoc, Rinv_l by lra. lra.
    + apply (Rmult_lt_reg_r (IZR (2 ^ (- e)))); [exact PR|].
      rewrite Rmult_assoc, Rinv_l by lra. lra.
Qed.

(** Truncation toward zero is defined on finite floats, is monotone and
    keeps bounds. *)
Lemma truncate_spec (a : spec_float) :
  is_finite a = true ->
  exists z, truncate a = Some z
    /\ ((0 <= SF2R a)%R -> (IZR z <= SF2R a < IZR z + 1)%R /\ 0 <= z)
    /\ ((SF2R a <= 0)%R -> (IZR z - 1 < SF2R a <= IZR z)%R /\ z <= 0).
Proof.
  intros F. destruct a as [s|s| |s m e]; try discriminate F.
  - exists 0. cbn [truncate SF2R]. split; [reflexivity|]. split; intros _; split; lra || lia.
  - cbn [truncate SF2R]. eexists. split; [reflexivity|].
    destruct (shiftl_floor m e) as [[L U] P]. pose proof (F2R_pos m e) as Pm.
    rewrite F2R_cond_Zopp.
    destruct s; cbn [cond_Zopp]; rewrite ?opp_IZR; split; intros H;
      split; lra || lia.
Qed.

Lemma truncate_mono (a b : spec_float) (za zb : Z) :
  is_finite a = true -> is_finite b = true ->
  truncate a = Some za -> truncate b = Some zb ->
  (SF2R a <= SF2R b)%R -> za <= zb.
Proof.
  intros Fa Fb Ea Eb L.
  destruct (truncate_spec a Fa) as (za' & Ea' & Pa & Na).
  destruct (truncate_spec b Fb) as (zb' & Eb' & Pb & Nb).
  rewrite Ea in Ea'. rewrite Eb in Eb'.
  injection Ea' as <-. injection Eb' as <-.
  destruct (Rle_lt_dec 0 (SF2R a)) as [A|A];
    destruct (Rle_lt_dec 0 (SF2R b)) as [B|B].
  - destruct (Pa A) as [[A1 A2] _]. destruct (Pb B) as [[B1 B2] _].
    assert (IZR za < IZR (zb + 1))%R by (rewrite plus_IZR; lra).
    apply lt_IZR in H. lia.
  - lra.
  - destruct (Na ltac:(lra)) as [_ A']. destruct (Pb B) as [_ B']. lia.
  - destruct (Na ltac:(lra)) as [[A1 A2] _].
    destruct (Nb ltac:(lra)) as [[B1 B2] _].
    assert (IZR (za - 1) < IZR zb)%R by (rewrite minus_IZR; lra).
    apply lt_IZR in H. lia.
Qed.

Lemma truncate_bounded (k : Z) (a : spec_float) :
  bounded_by k a -> 0 <= k ->
  exists z, truncate a = Some z /\ - 2 ^ k <= z <= 2 ^ k.
Proof.
  intros (V & F & B) Hk.
  destruct (truncate_spec a F) as (z & E & P & N).
  exists z. split; [exact E|].
  rewrite bpow_IZR in B by lia.
  unfold Rabs in B. destruct (Rcase_abs (SF2R a)) as [C|C].
  - destruct (N ltac:(lra)) as [[L U] Z].
    assert (IZR (- 2 ^ k - 1) < IZR z)%R
      by (rewrite minus_IZR, opp_IZR; lra).
    apply lt_IZR in H. lia.
  - destruct (P ltac:(lra)) as [[L U] Z].
    assert (IZR z <= IZR (2 ^ k))%R by lra.
    apply le_IZR in H. lia.
Qed.

(** ** The converter on the shipped inputs *)

(** The shipped single-value call, [bits = 14], [vref = 4.096f],
    [vout = -1.0f], does not give 6208. *)
Lemma dacBipolarVoltageToCode_scenario_not_6208 :
  dacBipolarVoltageToCode 14 (REF_VOLT AVR8) outputThisVoltage_init <> Some 6208
  /\ dacBipolarVoltageToCode 14 (REF_VOLT ARM32) outputThisVoltage_init
     <> Some 6208.
Proof. split; vm_compute; discriminate. Qed.

(** C1 (amended).  For [bits = 14], [vref = 4.096f], [vout = -1.0f] the
    converter returns code 6192 on every board: the quotient
    [-1.0f / 4.096f] scaled by 8192 and shifted by 8192 rounds to 6192.0,
    and adding one half and truncating leaves 6192.  It is also the
    value of the expression over the reals,
    [(-1.0 / 4.096) * 8192 + 8192 = 6192]. *)
Theorem dacBipolarVoltageToCode_scenario (b : board) :
  dacBipolarVoltageToCode 14 (REF_VOLT b) outputThisVoltage_init = Some 6192
  /\ (-1 / 4.096 * 8192 + 8192 = 6192)%R.
Proof.
  split.
  - destruct b; vm_compute; reflexivity.
  - lra.
Qed.

Lemma drive_single_value (b : board) (v : spec_float) (fuel n : nat)
      (g : globals) :
  drive b (single_value v) fuel n g = ([], Returned tt g).
Proof.
  induction n as [|n IH]; [reflexivity|].
  cbn [drive].
  assert (E : loop b (single_value v) fuel g = ([], Returned tt g)).
  { unfold loop, when; cbn [MODE_OUTPUT_SINE_WAVE MODE_OUTPUT_FULL_RANGE
      MODE_OUTPUT_QUICK_CHANGE single_value].
    rewrite !bind_ret. reflexivity. }
  erewrite bind_returned by exact E. rewrite IH. reflexivity.
Qed.

(** The shipped single-value sketch, end to end: [setup()] configures
    the pin and the bus and sends the one framed word 6192; [loop()]
    then does nothing. *)
Lemma sketch_single_value (b : board) (sinf : spec_float -> spec_float)
      (fuel n : nat) :
  sketch b sinf (single_value outputThisVoltage_init) fuel n globals_init
  = ([PinModeOutput; DigitalWrite HIGH; SPIBegin; SPIBeginTransaction]
       ++ frame 6192,
     Returned tt globals_init).
Proof.
  unfold sketch.
  assert (E : setup b sinf (single_value outputThisVoltage_init) fuel
                globals_init
              = ([PinModeOutput; DigitalWrite HIGH; SPIBegin;
                  SPIBeginTransaction] ++ frame 6192,
                 Returned tt globals_init))
    by (destruct b; vm_compute; reflexivity).
  erewrite bind_returned by exact E.
  rewrite drive_single_value. unfold trace_of, outcome_of; cbn [fst snd].
  now rewrite app_nil_r.
Qed.

(** ** The degenerate reference *)

Lemma eqb_zero_inv (x : spec_float) :
  F32.eqb x F32.zero = true -> exists s, x = S754_zero s.
Proof.
  destruct x as [s|s| |s m e]; simpl; intros H.
  - now exists s.
  - destruct s; discriminate.
  - discriminate.
  - destruct s; discriminate.
Qed.

(** A negative reference is not degenerate: with [vref = -4.096f] and
    [vout = 0] the converter returns mid-scale. *)
Lemma dacBipolarVoltageToCode_negative_vref :
  F32.ltb (F32.neg (REF_VOLT AVR8)) F32.zero = true
  /\ dacBipolarVoltageToCode 14 (F32.neg (REF_VOLT AVR8)) F32.zero = Some 8192.
Proof. split; vm_compute; reflexivity. Qed.

(** C2 (amended).  For every [bits] and every [vout], a reference that
    compares equal to zero ([+0] or [-0]) gives code 0; a negative
    reference is replaced by its magnitude, so it gives what the positive
    reference of the same magnitude gives. *)
Theorem dacBipolarVoltageToCode_zero_vref (bits : Z) (vref vout : spec_float) :
  (F32.eqb vref F32.zero = true ->
   dacBipolarVoltageToCode bits vref vout = Some 0)
  /\ (F32.ltb vref F32.zero = true ->
      dacBipolarVoltageToCode bits vref vout
      = dacBipolarVoltageToCode bits (F32.neg vref) vout).
Proof.
  split; intros H.
  - apply eqb_zero_inv in H. destruct H as [s ->].
    unfold dacBipolarVoltageToCode.
    destruct (bits =? 0); [reflexivity|].
    destruct s; reflexivity.
  - unfold dacBipolarVoltageToCode.
    destruct (bits =? 0); [reflexivity|].
    destruct vref as [s|s| |s m e]; try discriminate H;
      destruct s; try discriminate H; reflexivity.
Qed.

Lemma dacBipolarVoltageToCode_zero_vref_witness :
  dacBipolarVoltageToCode 14 (S754_zero true) outputThisVoltage_init = Some 0
  /\ dacBipolarVoltageToCode 14 (F32.neg (REF_VOLT AVR8)) outputThisVoltage_init
     = dacBipolarVoltageToCode 14 (F32.neg (F32.neg (REF_VOLT AVR8)))
         outputThisVoltage_init.
Proof.
  split.
  - apply (proj1 (dacBipolarVoltageToCode_zero_vref 14 (S754_zero true)
                    outputThisVoltage_init)).
    reflexivity.
  - apply (proj2 (dacBipolarVoltageToCode_zero_vref 14
                    (F32.neg (REF_VOLT AVR8)) outputThisVoltage_init)).
    vm_compute. reflexivity.
Defined.

(** ** The [uint8_t] parameter *)

(** C10.  The [bits] parameter is a [uint8_t]: an argument [b] with
    [b mod 256 >= 14] gives, for every [vref] and [vout], exactly what
    [bits = 14] gives; the only call of the sketch passes
    [DAC_14_BIT = 16383], which is converted to 255 and clamped to 14. *)
Theorem call_dacBipolarVoltageToCode_clamped (b : Z) (vref vout : spec_float) :
  b mod 256 >= 14 ->
  call_dacBipolarVoltageToCode b vref vout
  = dacBipolarVoltageToCode 14 vref vout
  /\ to_uint8 DAC_14_BIT = 255
  /\ call_dacBipolarVoltageToCode DAC_14_BIT vref vout
     = dacBipolarVoltageToCode 14 vref vout.
Proof.
  assert (G : forall c, c >= 14 ->
            dacBipolarVoltageToCode c vref vout
            = dacBipolarVoltageToCode 14 vref vout).
  { intros c Hc. unfold dacBipolarVoltageToCode.
    replace (c =? 0) with false by (symmetry; apply Z.eqb_neq; lia).
    change (14 =? 0) with false. cbv iota.
    destruct (Z.gtb_spec c 14) as [Hgt|Hle].
    - reflexivity.
    - replace c with 14 by lia. reflexivity. }
  intros H. unfold call_dacBipolarVoltageToCode.
  split; [|split].
  - apply G. unfold to_uint8, wrap. exact H.
  - reflexivity.
  - apply G. vm_compute. discriminate.
Qed.

Lemma call_dacBipolarVoltageToCode_clamped_witness :
  call_dacBipolarVoltageToCode 16383 (REF_VOLT AVR8) outputThisVoltage_init
  = dacBipolarVoltageToCode 14 (REF_VOLT AVR8) outputThisVoltage_init
  /\ to_uint8 DAC_14_BIT = 255
  /\ call_dacBipolarVoltageToCode DAC_14_BIT (REF_VOLT AVR8)
       outputThisVoltage_init
     = dacBipolarVoltageToCode 14 (REF_VOLT AVR8) outputThisVoltage_init.
Proof.
  apply (call_dacBipolarVoltageToCode_clamped 16383 (REF_VOLT AVR8)
           outputThisVoltage_init).
  vm_compute. discriminate.
Defined.

(** ** The converter on its whole domain *)

Lemma of_Z_pow2 (k : Z) : 0 <= k <= 23 -> F32.of_Z (2 ^ k) = pow2 k.
Proof.
  intros Hk. destruct (pow2_spec k ltac:(lia)) as (V & F & S).
  assert (P : (0 < 2 ^ k)) by (apply Z.pow_pos_nonneg; lia).
  assert (E : F2R (2 ^ k) 0 = bpow k).
  { unfold F2R. rewrite bpow_0, <- bpow_IZR by lia. ring. }
  assert (N : nearest (F2R (2 ^ k) 0) (F32.of_Z (2 ^ k))).
  { apply binary_normalize_nearest. rewrite E.
    rewrite Rabs_pos_eq by (pose proof (bpow_gt_0 k); lra).
    apply bpow_lt. lia. }
  pose proof (nearest_exact _ _ _ N V F ltac:(rewrite S; now symmetry)) as X.
  destruct N as (Vn & Fn & _).
  destruct (SF2R_inj _ _ Vn V Fn F ltac:(now rewrite X, S, E))
    as [Q|(sa & sb & _ & Q)]; [exact Q|discriminate Q].
Qed.

Lemma half_bounded : bounded_by (-1) F32.half.
Proof. change F32.half with (pow2 (-1)).
  destruct (pow2_spec (-1) ltac:(lia)) as (V & F & S).
  split; [exact V|]. split; [exact F|]. rewrite S.
  rewrite Rabs_pos_eq; [lra|]. pose proof (bpow_gt_0 (-1)). lra.
Qed.

Lemma pow2_bounded (k : Z) : -126 <= k <= 127 -> bounded_by k (pow2 k).
Proof.
  intros Hk. destruct (pow2_spec k Hk) as (V & F & S).
  split; [exact V|]. split; [exact F|]. rewrite S.
  rewrite Rabs_pos_eq; [lra|]. pose proof (bpow_gt_0 k). lra.
Qed.

Lemma code_plus_half_bounded (bits : Z) (q : spec_float) :
  0 < bits <= 14 -> bounded_by 0 q -> bounded_by 15 (code_plus_half bits q).
Proof.
  intros Hb Hq. unfold code_plus_half.
  pose proof (bounded_weaken _ 13 _ (pow2_bounded (bits - 1) ltac:(lia))
                ltac:(lia)) as Hh.
  destruct (mul_bounded 0 13 q _ Hq Hh ltac:(lia)) as [_ B1].
  cbn [Z.add] in B1.
  destruct (add_bounded 13 _ _ B1 Hh ltac:(lia)) as [_ B2].
  destruct (add_bounded 14 _ F32.half B2
              (bounded_weaken _ 14 _ half_bounded ltac:(lia)) ltac:(lia))
    as [_ B3].
  exact B3.
Qed.

Lemma code_plus_half_mono (bits : Z) (q1 q2 : spec_float) :
  0 < bits <= 14 -> bounded_by 0 q1 -> bounded_by 0 q2 ->
  (SF2R q1 <= SF2R q2)%R ->
  (SF2R (code_plus_half bits q1) <= SF2R (code_plus_half bits q2))%R.
Proof.
  intros Hb H1 H2 L. unfold code_plus_half.
  destruct (pow2_spec (bits - 1) ltac:(lia)) as (_ & _ & S).
  pose proof (bounded_weaken _ 13 _ (pow2_bounded (bits - 1) ltac:(lia))
                ltac:(lia)) as Hh.
  pose proof (bounded_weaken _ 14 _ half_bounded ltac:(lia)) as Hhalf.
  destruct (mul_bounded 0 13 q1 _ H1 Hh ltac:(lia)) as [_ B1].
  destruct (mul_bounded 0 13 q2 _ H2 Hh ltac:(lia)) as [_ B2].
  cbn [Z.add] in B1, B2.
  destruct (add_bounded 13 _ _ B1 Hh ltac:(lia)) as [_ C1].
  destruct (add_bounded 13 _ _ B2 Hh ltac:(lia)) as [_ C2].
  apply (add_mono 14); try assumption; [lia|].
  apply (add_mono 13); try assumption; [lia|].
  apply (mul_mono 0 13); try assumption; [lia| ].
  rewrite S. apply bpow_gt_0.
Qed.

Lemma pow2_lt_32 (k : Z) : 0 <= k <= 14 -> 0 < 2 ^ k <= 16384.
Proof.
  intros H. split; [apply Z.pow_pos_nonneg; lia|].
  change 16384 with (2 ^ 14). apply Z.pow_le_mono_r; lia.
Qed.

Lemma clamp_code_spec (bits z : Z) :
  0 < bits <= 14 ->
  clamp_code bits z = Z.min (Z.max z 0) (2 ^ bits - 1).
Proof.
  intros Hb. unfold clamp_code, to_int32, to_uint32, to_uint16, wrap.
  rewrite Z.shiftl_mul_pow2, Z.mul_1_l by lia.
  pose proof (pow2_lt_32 bits ltac:(lia)) as P.
  rewrite (Z.mod_small (2 ^ bits)) by (change (2 ^ 32) with 4294967296; lia).
  rewrite (Z.mod_small (2 ^ bits - 1)) by (change (2 ^ 32) with 4294967296; lia).
  replace (2 ^ bits - 1 <? 2 ^ 31) with true
    by (symmetry; apply Z.ltb_lt; change (2 ^ 31) with 2147483648; lia).
  destruct (Z.ltb_spec z 0) as [A|A];
    [destruct (Z.gtb_spec 0 (2 ^ bits - 1)) as [B|B]
    |destruct (Z.gtb_spec z (2 ^ bits - 1)) as [B|B]];
    rewrite Z.mod_small by (change (2 ^ 16) with 65536; lia); lia.
Qed.

(** The converter once its guards are passed: [vref] is finite and
    positive and [vout] lies between [-vref] and [vref]. *)
Lemma dacBipolarVoltageToCode_in_range (bits : Z) (vref vout : spec_float) :
  0 < bits <= 14 ->
  F32.valid vref = true -> is_finite vref = true ->
  F32.valid vout = true -> is_finite vout = true ->
  (0 < SF2R vref)%R -> (- SF2R vref <= SF2R vout <= SF2R vref)%R ->
  dacBipolarVoltageToCode bits vref vout
  = (code_i <- F32.to_int32 (code_plus_half bits (F32.div vout vref)) ;;
     Some (clamp_code bits code_i)).
Proof.
  intros Hb Vr Fr Vo Fo Pr Bo. unfold dacBipolarVoltageToCode.
  replace (bits =? 0) with false by (symmetry; apply Z.eqb_neq; lia).
  replace (bits >? 14) with false
    by (symmetry; destruct (Z.gtb_spec bits 14); [lia|reflexivity]).
  assert (Vz : F32.valid F32.zero = true) by reflexivity.
  assert (Fz : is_finite F32.zero = true) by reflexivity.
  assert (G : F32.geb vref F32.zero = true).
  { unfold F32.geb. apply SFleb_spec; try assumption. cbn [SF2R F32.zero]. lra. }
  rewrite G.
  assert (Z : F32.eqb vref F32.zero = false).
  { unfold F32.eqb, SFeqb.
    pose proof (SFcompare_spec vref F32.zero Vr Vz Fr Fz) as C.
    destruct (SFcompare vref F32.zero) as [[| |]|]; try reflexivity.
    cbn [compare_agrees SF2R F32.zero] in C. lra. }
  rewrite Z.
  assert (G1 : F32.gtb vout vref = false).
  { unfold F32.gtb. destruct (SFltb vref vout) eqn:E; [|reflexivity].
    apply SFltb_spec in E; try assumption. lra. }
  rewrite G1.
  assert (G2 : F32.ltb vout (F32.neg vref) = false).
  { unfold F32.ltb, F32.neg. destruct (SFltb vout (SFopp vref)) eqn:E; [|reflexivity].
    apply SFltb_spec in E; rewrite ?valid_opp, ?is_finite_opp; try assumption.
    rewrite SF2R_opp in E. lra. }
  rewrite G2.
  assert (H : to_uint32 (Z.shiftl 1 (bits - 1)) = 2 ^ (bits - 1)).
  { unfold to_uint32, wrap. rewrite Z.shiftl_mul_pow2, Z.mul_1_l by lia.
    pose proof (pow2_lt_32 (bits - 1) ltac:(lia)).
    apply Z.mod_small. change (2 ^ 32) with 4294967296. lia. }
  rewrite H, of_Z_pow2 by lia. reflexivity.
Qed.

Lemma to_int32_bounded (a : spec_float) :
  bounded_by 15 a ->
  exists z, truncate a = Some z /\ F32.to_int32 a = Some z.
Proof.
  intros B. destruct (truncate_bounded 15 a B ltac:(lia)) as (z & E & R).
  exists z. split; [exact E|].
  unfold F32.to_int32, float_to_int. rewrite E.
  change (2 ^ 15) with 32768 in R.
  replace (- 2 ^ 31 <=? z) with true
    by (symmetry; apply Z.leb_le; change (2 ^ 31) with 2147483648; lia).
  replace (z <=? 2 ^ 31 - 1) with true
    by (symmetry; apply Z.leb_le; change (2 ^ 31) with 2147483648; lia).
  reflexivity.
Qed.

(** C5.  For [bits] in (0,14], a finite [vref > 0] and voltages
    [v1 < v2], both within [[-vref, vref]], the converter returns a code
    for each, and the code of [v1] is at most the code of [v2]. *)
Theorem dacBipolarVoltageToCode_monotone
        (bits : Z) (vref v1 v2 : spec_float) :
  0 < bits <= 14 ->
  F32.valid vref = true -> is_finite vref = true ->
  F32.gtb vref F32.zero = true ->
  F32.valid v1 = true -> F32.valid v2 = true ->
  F32.ltb v1 v2 = true ->
  F32.leb (F32.neg vref) v1 = true -> F32.leb v2 vref = true ->
  exists c1 c2 : Z,
    dacBipolarVoltageToCode bits vref v1 = Some c1
    /\ dacBipolarVoltageToCode bits vref v2 = Some c2
    /\ c1 <= c2.
Proof.
  intros Hb Vr Fr Pr V1 V2 L12 L1 U2.
  assert (F1 : is_finite v1 = true).
  { destruct vref as [sr|sr| |sr mr er]; try discriminate Fr;
      destruct v1 as [s|s| |s m e]; try reflexivity;
      try discriminate L1; destruct v2 as [s2|s2| |s2 m2 e2];
      try discriminate U2; try discriminate L12;
      destruct s, sr; try discriminate L1; destruct s2; discriminate. }
  assert (F2 : is_finite v2 = true).
  { destruct vref as [sr|sr| |sr mr er]; try discriminate Fr;
      destruct v2 as [s|s| |s m e]; try reflexivity;
      try discriminate U2; destruct v1 as [s1|s1| |s1 m1 e1];
      try discriminate F1; try discriminate L12;
      destruct s, sr; try discriminate U2; destruct s1; discriminate. }
  assert (Vz : F32.valid F32.zero = true) by reflexivity.
  assert (Fz : is_finite F32.zero = true) by reflexivity.
  unfold F32.gtb, F32.ltb, F32.leb, F32.neg in *.
  apply SFltb_spec in Pr; try assumption. cbn [SF2R F32.zero] in Pr.
  apply SFltb_spec in L12; try assumption.
  apply SFleb_spec in L1; rewrite ?valid_opp, ?is_finite_opp; try assumption.
  apply SFleb_spec in U2; try assumption.
  rewrite SF2R_opp in L1.
  rewrite !dacBipolarVoltageToCode_in_range by (try assumption; lra).
  destruct (div_bounded v1 vref V1 F1 Fr Pr ltac:(apply Rabs_le; lra))
    as [_ Q1].
  destruct (div_bounded v2 vref V2 F2 Fr Pr ltac:(apply Rabs_le; lra))
    as [_ Q2].
  assert (Q : (SF2R (F32.div v1 vref) <= SF2R (F32.div v2 vref))%R).
  { apply div_mono; try assumption; try (apply Rabs_le; lra); lra. }
  pose proof (code_plus_half_bounded bits _ Hb Q1) as B1.
  pose proof (code_plus_half_bounded bits _ Hb Q2) as B2.
  pose proof (code_plus_half_mono bits _ _ Hb Q1 Q2 Q) as M.
  destruct (to_int32_bounded _ B1) as (z1 & T1 & E1).
  destruct (to_int32_bounded _ B2) as (z2 & T2 & E2).
  rewrite E1, E2. cbn [obind].
  exists (clamp_code bits z1), (clamp_code bits z2).
  split; [reflexivity|]. split; [reflexivity|].
  assert (z1 <= z2).
  { apply (truncate_mono _ _ _ _ (proj1 (proj2 B1)) (proj1 (proj2 B2)) T1 T2 M). }
  rewrite !clamp_code_spec by lia. lia.
Qed.

Lemma dacBipolarVoltageToCode_monotone_witness :
  exists c1 c2 : Z,
    dacBipolarVoltageToCode 14 (REF_VOLT AVR8) outputThisVoltage_init = Some c1
    /\ dacBipolarVoltageToCode 14 (REF_VOLT AVR8) F32.one = Some c2
    /\ c1 <= c2.
Proof.
  apply (dacBipolarVoltageToCode_monotone 14 (REF_VOLT AVR8)
           outputThisVoltage_init F32.one); try reflexivity.
  lia.
Defined.

(** ** The end points of the converter *)

Lemma dacBipolarVoltageToCode_guards (bits : Z) (vref vout : spec_float) :
  0 < bits <= 14 ->
  F32.geb vref F32.zero = true -> F32.eqb vref F32.zero = false ->
  F32.gtb vout vref = false -> F32.ltb vout (F32.neg vref) = false ->
  dacBipolarVoltageToCode bits vref vout = quantize bits (F32.div vout vref).
Proof.
  intros Hb G Z G1 G2. unfold dacBipolarVoltageToCode.
  replace (bits =? 0) with false by (symmetry; apply Z.eqb_neq; lia).
  replace (bits >? 14) with false
    by (symmetry; destruct (Z.gtb_spec bits 14); [lia|reflexivity]).
  rewrite G, Z, G1, G2. reflexivity.
Qed.

Lemma Z_div_eucl_mul (a b : Z) : 0 < b -> Z.div_eucl (b * a) b = (a, 0).
Proof.
  intros Hb. pose proof (Z_div_mod (b * a) b ltac:(lia)) as H.
  destruct (Z.div_eucl (b * a) b) as [q r]. destruct H as [E R].
  assert (q = a) by nia. subst q. f_equal. lia.
Qed.

(** A finite number divided by itself is exactly one. *)
Lemma div_same (s : bool) (m : positive) (e : Z) :
  F32.div (S754_finite s m e) (S754_finite false m e)
  = S754_finite s 8388608 (-23).
Proof.
  unfold F32.div, SFdiv.
  assert (C : SFdiv_core_binary F32.prec F32.emax (Zpos m) e (Zpos m) e
              = (2 ^ 24, -24, loc_Exact)).
  { unfold SFdiv_core_binary.
    replace (Zdigits2 (Zpos m) + e - (Zdigits2 (Zpos m) + e)) with 0 by lia.
    replace (e - e) with 0 by lia.
    change (Z.min (fexp F32.prec F32.emax 0) 0) with (-24).
    change (0 - -24) with 24. cbv iota.
    change (IntDef.Z.div_eucl (IntDef.Z.shiftl (Zpos m) 24) (Zpos m))
      with (Z.div_eucl (Z.shiftl (Zpos m) 24) (Zpos m)).
    rewrite Z.shiftl_mul_pow2, Z_div_eucl_mul by lia.
    unfold new_location. destruct (Z.even (Zpos m)); reflexivity. }
  rewrite C. destruct s; reflexivity.
Qed.

Lemma SFcompare_refl (s : bool) (m : positive) (e : Z) :
  SFcompare (S754_finite s m e) (S754_finite s m e) = Some Eq.
Proof.
  cbn [SFcompare]. rewrite Z.compare_refl, Pos.compare_cont_refl.
  destruct s; reflexivity.
Qed.

Lemma bits_cases (bits : Z) :
  0 < bits <= 14 ->
  In bits [1; 2; 3; 4; 5; 6; 7; 8; 9; 10; 11; 12; 13; 14].
Proof. intros H. cbn [In]. lia. Qed.

Lemma quantize_endpoints (bits : Z) :
  0 < bits <= 14 ->
  (forall s, quantize bits (S754_zero s) = Some (2 ^ (bits - 1)))
  /\ quantize bits (S754_finite false 8388608 (-23)) = Some (2 ^ bits - 1)
  /\ quantize bits (S754_finite true 8388608 (-23)) = Some 0.
Proof.
  intros H. apply bits_cases in H. cbn [In] in H.
  repeat (destruct H as [<-|H]; [split; [intros []; vm_compute; reflexivity
                                        |split; vm_compute; reflexivity]|]).
  contradiction.
Qed.

(** C4.  For [bits] in (0,14] and a finite reference [vref > 0], zero
    volts gives mid-scale [2^(bits-1)], [vout = vref] gives
    [2^bits - 1], and [vout = -vref] gives 0. *)
Theorem dacBipolarVoltageToCode_endpoints (bits : Z) (vref : spec_float) :
  0 < bits <= 14 ->
  is_finite vref = true -> F32.gtb vref F32.zero = true ->
  dacBipolarVoltageToCode bits vref F32.zero = Some (2 ^ (bits - 1))
  /\ dacBipolarVoltageToCode bits vref vref = Some (2 ^ bits - 1)
  /\ dacBipolarVoltageToCode bits vref (F32.neg vref) = Some 0.
Proof.
  intros Hb F P.
  destruct vref as [s|s| |s m e]; try discriminate F; try discriminate P.
  destruct s; try discriminate P.
  destruct (quantize_endpoints bits Hb) as (Q0 & Q1 & Q2).
  split; [|split].
  - rewrite dacBipolarVoltageToCode_guards; try assumption; try reflexivity.
    apply (Q0 false).
  - rewrite dacBipolarVoltageToCode_guards; try assumption; try reflexivity.
    + now rewrite div_same.
    + unfold F32.gtb, SFltb. now rewrite SFcompare_refl.
  - rewrite dacBipolarVoltageToCode_guards; try assumption; try reflexivity.
    + cbn [F32.neg SFopp negb]. now rewrite div_same.
    + unfold F32.ltb, F32.neg, SFltb. cbn [SFopp negb].
      now rewrite SFcompare_refl.
Qed.

Lemma dacBipolarVoltageToCode_endpoints_witness :
  dacBipolarVoltageToCode 14 (REF_VOLT AVR8) F32.zero = Some (2 ^ (14 - 1))
  /\ dacBipolarVoltageToCode 14 (REF_VOLT AVR8) (REF_VOLT AVR8)
     = Some (2 ^ 14 - 1)
  /\ dacBipolarVoltageToCode 14 (REF_VOLT AVR8) (F32.neg (REF_VOLT AVR8))
     = Some 0.
Proof.
  apply (dacBipolarVoltageToCode_endpoints 14 (REF_VOLT AVR8));
    [lia|reflexivity|reflexivity].
Defined.

(** An infinite reference is not a voltage: with [vref = vout = +inf]
    the quotient is NaN and the conversion to [int32_t] is undefined. *)
Lemma dacBipolarVoltageToCode_infinite_vref :
  dacBipolarVoltageToCode 14 (S754_infinity false) (S754_infinity false) = None.
Proof. reflexivity. Qed.

(** ** Every code of the converter fits 14 bits *)

Lemma clamp_code_range (bits z : Z) :
  0 < bits <= 14 -> 0 <= clamp_code bits z <= 2 ^ bits - 1.
Proof.
  intros Hb. rewrite clamp_code_spec by exact Hb.
  pose proof (pow2_lt_32 bits ltac:(lia)). lia.
Qed.

Lemma dacBipolarVoltageToCode_range (bits : Z) (vref vout : spec_float) (c : Z) :
  0 <= bits ->
  dacBipolarVoltageToCode bits vref vout = Some c ->
  0 <= c <= 2 ^ (Z.min bits 14) - 1.
Proof.
  intros Hb. unfold dacBipolarVoltageToCode.
  destruct (Z.eqb_spec bits 0) as [->|NZ].
  { intros [= <-]. cbn. lia. }
  destruct (F32.eqb _ F32.zero).
  { intros [= <-].
    assert (0 < 2 ^ Z.min bits 14) by (apply Z.pow_pos_nonneg; lia). lia. }
  destruct (F32.to_int32 _) as [code_i|]; [|discriminate].
  cbn [obind]. intros [= <-].
  destruct (Z.gtb_spec bits 14) as [G|G].
  - rewrite Z.min_r by lia. apply (clamp_code_range 14 code_i). lia.
  - rewrite Z.min_l by lia. apply (clamp_code_range bits code_i). lia.
Qed.

(** ** The sine table *)

Lemma bounded_of_leb (k : Z) (a : spec_float) :
  -126 <= k <= 127 -> F32.valid a = true ->
  SFleb (SFopp (pow2 k)) a = true -> SFleb a (pow2 k) = true ->
  bounded_by k a.
Proof.
  intros Hk V L U. destruct (pow2_spec k Hk) as (Vp & Fp & S).
  assert (F : is_finite a = true).
  { destruct a as [s|s| |s m e]; try reflexivity;
      try discriminate L; destruct s; try discriminate L; discriminate U. }
  apply SFleb_spec in L; rewrite ?valid_opp, ?is_finite_opp; try assumption.
  apply SFleb_spec in U; try assumption.
  rewrite SF2R_opp in L. rewrite S in *.
  split; [exact V|]. split; [exact F|]. apply Rabs_le. lra.
Qed.

Lemma sinf_in_range_bounded (s : spec_float) : sinf_in_range s -> bounded_by 0 s.
Proof.
  intros (V & L & U). apply bounded_of_leb; try assumption; lia.
Qed.

Lemma f16383_bounded : bounded_by 14 (F32.of_Z 16383).
Proof. apply bounded_of_leb; try reflexivity; lia. Qed.

Lemma f16383_pos : (0 < SF2R (F32.of_Z 16383))%R.
Proof.
  change 0%R with (SF2R F32.zero). apply SFltb_spec; reflexivity.
Qed.

Lemma half_pos : (0 < SF2R F32.half)%R.
Proof.
  change 0%R with (SF2R F32.zero). apply SFltb_spec; reflexivity.
Qed.

Lemma lut_pre_bounded (s : spec_float) : bounded_by 0 s -> bounded_by 15 (lut_pre s).
Proof.
  intros Hs. unfold lut_pre.
  destruct (mul_bounded 0 (-1) s _ Hs half_bounded ltac:(lia)) as [_ B1].
  change (0 + -1) with (-1) in B1.
  destruct (add_bounded (-1) _ _ B1 half_bounded ltac:(lia)) as [_ B2].
  change (-1 + 1) with 0 in B2.
  destruct (mul_bounded 0 14 _ _ B2 f16383_bounded ltac:(lia)) as [_ B3].
  change (0 + 14) with 14 in B3.
  destruct (add_bounded 14 _ F32.half B3
              (bounded_weaken _ 14 _ half_bounded ltac:(lia)) ltac:(lia))
    as [_ B4].
  exact B4.
Qed.

Lemma lut_pre_mono (s1 s2 : spec_float) :
  bounded_by 0 s1 -> bounded_by 0 s2 -> (SF2R s1 <= SF2R s2)%R ->
  (SF2R (lut_pre s1) <= SF2R (lut_pre s2))%R.
Proof.
  intros H1 H2 L. unfold lut_pre.
  pose proof (bounded_weaken _ 14 _ half_bounded ltac:(lia)) as Hhalf.
  destruct (mul_bounded 0 (-1) s1 _ H1 half_bounded ltac:(lia)) as [_ A1].
  destruct (mul_bounded 0 (-1) s2 _ H2 half_bounded ltac:(lia)) as [_ A2].
  change (0 + -1) with (-1) in A1, A2.
  destruct (add_bounded (-1) _ _ A1 half_bounded ltac:(lia)) as [_ B1].
  destruct (add_bounded (-1) _ _ A2 half_bounded ltac:(lia)) as [_ B2].
  change (-1 + 1) with 0 in B1, B2.
  destruct (mul_bounded 0 14 _ _ B1 f16383_bounded ltac:(lia)) as [_ C1].
  destruct (mul_bounded 0 14 _ _ B2 f16383_bounded ltac:(lia)) as [_ C2].
  change (0 + 14) with 14 in C1, C2.
  apply (add_mono 14); try assumption; [lia|].
  apply (mul_mono 0 14); try assumption;
    [apply f16383_bounded|lia|apply f16383_pos|].
  apply (add_mono (-1)); try assumption; try apply half_bounded; [lia|].
  apply (mul_mono 0 (-1)); try assumption;
    [apply half_bounded|lia|apply half_pos].
Qed.

(** Between two sine values whose codes are known, the conversion is
    defined and the code lies between theirs. *)
Lemma lut_code_between (lo hi s : spec_float) (zlo zhi : Z) :
  bounded_by 0 lo -> bounded_by 0 hi -> bounded_by 0 s ->
  (SF2R lo <= SF2R s <= SF2R hi)%R ->
  truncate (lut_pre lo) = Some zlo -> truncate (lut_pre hi) = Some zhi ->
  0 <= zlo -> zhi <= 65535 ->
  exists z, F32.to_uint16 (lut_pre s) = Some z /\ zlo <= z <= zhi.
Proof.
  intros Hlo Hhi Hs [L U] Tlo Thi Zlo Zhi.
  pose proof (lut_pre_bounded _ Hlo) as (_ & Flo & _).
  pose proof (lut_pre_bounded _ Hhi) as (_ & Fhi & _).
  pose proof (lut_pre_bounded _ Hs) as Bs.
  destruct (truncate_bounded 15 _ Bs ltac:(lia)) as (z & Tz & _).
  destruct Bs as (_ & Fs & _).
  pose proof (truncate_mono _ _ _ _ Flo Fs Tlo Tz (lut_pre_mono _ _ Hlo Hs L)).
  pose proof (truncate_mono _ _ _ _ Fs Fhi Tz Thi (lut_pre_mono _ _ Hs Hhi U)).
  exists z. split; [|lia].
  unfold F32.to_uint16, float_to_int. rewrite Tz.
  replace (0 <=? z) with true by (symmetry; apply Z.leb_le; lia).
  replace (z <=? 2 ^ 16 - 1) with true
    by (symmetry; apply Z.leb_le; change (2 ^ 16 - 1) with 65535; lia).
  reflexivity.
Qed.

Lemma one_bounded : bounded_by 0 F32.one.
Proof. apply (pow2_bounded 0). lia. Qed.

Lemma neg_one_bounded : bounded_by 0 (F32.neg F32.one).
Proof. apply bounded_of_leb; try reflexivity; lia. Qed.

Lemma near_one_bounded : bounded_by 0 near_one.
Proof. apply bounded_of_leb; try reflexivity; lia. Qed.

Lemma sinf_in_range_between (s : spec_float) :
  sinf_in_range s -> (SF2R (F32.neg F32.one) <= SF2R s <= SF2R F32.one)%R.
Proof.
  intros H. pose proof (sinf_in_range_bounded s H) as (V & F & _).
  destruct H as (_ & L & U).
  split; apply SFleb_spec; try assumption; reflexivity.
Qed.

Lemma lut_code_defined (s : spec_float) :
  sinf_in_range s ->
  exists z, F32.to_uint16 (lut_pre s) = Some z /\ 0 <= z <= 16383.
Proof.
  intros H.
  apply (lut_code_between (F32.neg F32.one) F32.one s 0 16383);
    try reflexivity; try lia.
  - apply neg_one_bounded.
  - apply one_bounded.
  - now apply sinf_in_range_bounded.
  - now apply sinf_in_range_between.
Qed.

Lemma lut_code_near_one (s : spec_float) :
  sinf_in_range s -> F32.leb near_one s = true ->
  F32.to_uint16 (lut_pre s) = Some 16383.
Proof.
  intros H N.
  pose proof (sinf_in_range_bounded s H) as B.
  pose proof (sinf_in_range_between s H) as [_ U].
  destruct (lut_code_between near_one F32.one s 16383 16383) as (z & E & R);
    try reflexivity; try lia; try assumption.
  - apply near_one_bounded.
  - apply one_bounded.
  - split; [|exact U]. destruct B as (V & F & _).
    apply SFleb_spec; try assumption; reflexivity.
  - rewrite E. f_equal. lia.
Qed.

Lemma land_16383_range (c : Z) : 0 <= c -> 0 <= Z.land c 16383 <= 2 ^ 14 - 1.
Proof.
  intros H. change 16383 with (Z.ones 14). rewrite Z.land_ones by lia.
  pose proof (Z.mod_pos_bound c (2 ^ 14) ltac:(lia)). lia.
Qed.

Lemma lut_entry_range (s : spec_float) : 0 <= lut_entry s <= 2 ^ 14 - 1.
Proof.
  unfold lut_entry, F32.to_uint16, float_to_int.
  destruct (truncate (lut_pre s)) as [z|]; [|cbn; lia].
  destruct (Z.leb_spec 0 z) as [P|P]; cbn [andb]; [|cbn; lia].
  destruct (z <=? 2 ^ 16 - 1); [|cbn; lia].
  now apply land_16383_range.
Qed.

Lemma store_spec (l : list Z) : forall (i : nat) (v : Z),
  (i < length l)%nat ->
  exists l', store l i v = Some l' /\ length l' = length l
    /\ nth i l' 0 = v /\ (forall j, j <> i -> nth j l' 0 = nth j l 0).
Proof.
  induction l as [|x l IH]; intros i v Hi; cbn [length] in Hi; [lia|].
  destruct i as [|i]; cbn [store].
  - exists (v :: l). repeat split. intros [|j] Hj; [lia|reflexivity].
  - destruct (IH i v ltac:(lia)) as (l' & E & Len & Ni & Nj).
    rewrite E. cbn [obind]. exists (x :: l'). split; [reflexivity|].
    split; [cbn [length]; lia|]. split; [exact Ni|].
    intros [|j] Hj; [reflexivity|]. cbn [nth]. apply Nj. lia.
Qed.

Lemma write_sineLUT_run (i v : Z) (g : globals) :
  0 <= i -> (Z.to_nat i < length (sineLUT g))%nat ->
  exists l', write_sineLUT i v g
             = ([], Returned tt {| sineLUT := l'; tableCounter := tableCounter g |})
    /\ length l' = length (sineLUT g)
    /\ nth (Z.to_nat i) l' 0 = v
    /\ (forall j, j <> Z.to_nat i -> nth j l' 0 = nth j (sineLUT g) 0).
Proof.
  intros Hi Hl. destruct (store_spec (sineLUT g) (Z.to_nat i) v Hl)
    as (l' & E & R).
  exists l'. split; [|exact R].
  unfold write_sineLUT. cbv beta iota delta [bind get lift put ret undefined].
  rewrite E. reflexivity.
Qed.

Section Table.

Variable b : board.
Variable sinf : spec_float -> spec_float.

Hypothesis sinf_ok : forall i, 0 <= i < TABLE_SIZE ->
  sinf_in_range (sinf (theta b TABLE_SIZE i)).

Lemma buildLUT_loop_run : forall (k fuel : nat) (i : Z) (g : globals),
  0 <= i -> i + Z.of_nat k = TABLE_SIZE -> (k < fuel)%nat ->
  length (sineLUT g) = Z.to_nat TABLE_SIZE ->
  exists tbl,
    buildLUT_loop b sinf fuel TABLE_SIZE DAC_14_BIT i g
    = ([], Returned tt {| sineLUT := tbl; tableCounter := tableCounter g |})
    /\ length tbl = Z.to_nat TABLE_SIZE
    /\ (forall j, i <= j < TABLE_SIZE ->
          nth (Z.to_nat j) tbl 0 = lut_entry (sinf (theta b TABLE_SIZE j)))
    /\ (forall j, 0 <= j < i ->
          nth (Z.to_nat j) tbl 0 = nth (Z.to_nat j) (sineLUT g) 0).
Proof.
  induction k as [|k IH]; intros fuel i g Hi Hk Hf Hl;
    (destruct fuel as [|fuel]; [lia|]); cbn [buildLUT_loop].
  - replace (i <? TABLE_SIZE) with false by (symmetry; apply Z.ltb_ge; lia).
    exists (sineLUT g). split; [destruct g; reflexivity|].
    split; [exact Hl|]. split; [intros j Hj; lia|reflexivity].
  - replace (i <? TABLE_SIZE) with true by (symmetry; apply Z.ltb_lt; lia).
    destruct (lut_code_defined _ (sinf_ok i ltac:(lia))) as (c & Ec & Rc).
    change (lut_code DAC_14_BIT (amp sinf (theta b TABLE_SIZE i)))
      with (F32.to_uint16 (lut_pre (sinf (theta b TABLE_SIZE i)))).
    rewrite Ec. cbn [lift]. rewrite bind_ret.
    destruct (write_sineLUT_run i (Z.land c 16383) g Hi
                ltac:(rewrite Hl; unfold TABLE_SIZE in *; lia))
      as (l' & W & Len & Ni & Nj).
    erewrite bind_returned by exact W.
    unfold TABLE_SIZE in Hk.
    rewrite (to_uint16_small (i + 1)) by lia.
    destruct (IH fuel (i + 1) {| sineLUT := l'; tableCounter := tableCounter g |}
                ltac:(lia) ltac:(unfold TABLE_SIZE; lia) ltac:(lia)
                ltac:(cbn [sineLUT]; congruence))
      as (tbl & E & Lt & Hn & Ho).
    rewrite E. cbn [trace_of outcome_of fst snd app sineLUT tableCounter] in *.
    exists tbl. split; [reflexivity|]. split; [exact Lt|]. split.
    + intros j Hj. destruct (Z.eq_dec j i) as [->|Nji].
      * rewrite Ho by lia. rewrite Ni. unfold lut_entry. now rewrite Ec.
      * apply Hn. lia.
    + intros j Hj. rewrite Ho by lia. apply Nj. lia.
Qed.

End Table.

(** C7.  Let [sinf] return, at each of the 16 angles of the table, a
    binary32 number between -1 and 1, zero at angle 0, and at least
    [1 - 2^-14] at the angle of index [N/4 = 4].  Then
    [buildLUT(16, 16383)] returns, having sent nothing, with a table of 16
    entries in which [Table[0] = 8192], [Table[4] = 16383], and every
    entry lies in [[0, 2^14 - 1]]. *)
Theorem buildLUT_table (b : board) (sinf : spec_float -> spec_float)
        (fuel : nat) (g : globals) :
  (Z.to_nat TABLE_SIZE < fuel)%nat ->
  length (sineLUT g) = Z.to_nat TABLE_SIZE ->
  (forall i, 0 <= i < TABLE_SIZE -> sinf_in_range (sinf (theta b TABLE_SIZE i))) ->
  F32.eqb (sinf (theta b TABLE_SIZE 0)) F32.zero = true ->
  F32.leb near_one (sinf (theta b TABLE_SIZE (TABLE_SIZE / 4))) = true ->
  exists Table : list Z,
    buildLUT b sinf fuel TABLE_SIZE DAC_14_BIT g
    = ([], Returned tt {| sineLUT := Table; tableCounter := tableCounter g |})
    /\ length Table = Z.to_nat TABLE_SIZE
    /\ nth 0 Table 0 = 8192
    /\ nth (Z.to_nat (TABLE_SIZE / 4)) Table 0 = 16383
    /\ Forall (fun c => 0 <= c <= 2 ^ 14 - 1) Table.
Proof.
  intros Hf Hl Hs H0 H4.
  destruct (buildLUT_loop_run b sinf Hs (Z.to_nat TABLE_SIZE) fuel 0 g
              ltac:(lia) ltac:(reflexivity) Hf Hl)
    as (tbl & E & Len & Hn & _).
  exists tbl. split; [exact E|]. split; [exact Len|]. split; [|split].
  - change (nth 0 tbl 0) with (nth (Z.to_nat 0) tbl 0).
    rewrite (Hn 0) by (unfold TABLE_SIZE; lia).
    apply eqb_zero_inv in H0. destruct H0 as [s ->].
    destruct s; vm_compute; reflexivity.
  - rewrite Hn by (unfold TABLE_SIZE; cbn; lia).
    unfold lut_entry.
    rewrite lut_code_near_one;
      [reflexivity|apply Hs; unfold TABLE_SIZE; cbn; lia|exact H4].
  - apply Forall_forall. intros c Hc.
    destruct (In_nth tbl c 0 Hc) as (j & Hj & <-).
    rewrite <- (Nat2Z.id j). rewrite Hn by lia.
    apply lut_entry_range.
Qed.

Lemma sinf_series_in_range (b : board) (i : Z) :
  0 <= i < TABLE_SIZE -> sinf_in_range (sinf_series (theta b TABLE_SIZE i)).
Proof.
  unfold TABLE_SIZE. intros H.
  assert (C : In i [0;1;2;3;4;5;6;7;8;9;10;11;12;13;14;15]) by (cbn [In]; lia).
  cbn [In] in C.
  repeat (destruct C as [<-|C];
          [destruct b; repeat split; vm_compute; reflexivity|]).
  contradiction.
Qed.

Lemma buildLUT_table_witness :
  exists Table : list Z,
    buildLUT AVR8 sinf_series 17 TABLE_SIZE DAC_14_BIT globals_init
    = ([], Returned tt {| sineLUT := Table;
                          tableCounter := tableCounter globals_init |})
    /\ length Table = Z.to_nat TABLE_SIZE
    /\ nth 0 Table 0 = 8192
    /\ nth (Z.to_nat (TABLE_SIZE / 4)) Table 0 = 16383
    /\ Forall (fun c => 0 <= c <= 2 ^ 14 - 1) Table.
Proof.
  apply (buildLUT_table AVR8 sinf_series 17 globals_init).
  - vm_compute. lia.
  - reflexivity.
  - apply sinf_series_in_range.
  - vm_compute. reflexivity.
  - vm_compute. reflexivity.
Defined.

(** ** The ramp *)

Lemma count_from_length (j : Z) (n : nat) : length (count_from j n) = n.
Proof. revert j; induction n; intros j; simpl; [reflexivity|now rewrite IHn]. Qed.

Lemma count_from_nth (n : nat) : forall (j : Z) (i : nat),
  (i < n)%nat -> nth_error (count_from j n) i = Some (j + Z.of_nat i).
Proof.
  induction n as [|n IH]; intros j i Hi; [lia|].
  destruct i as [|i]; simpl.
  - f_equal. lia.
  - rewrite IH by lia. f_equal. lia.
Qed.

Lemma count_from_lower (n : nat) : forall j, Forall (fun y => j <= y) (count_from j n).
Proof.
  induction n as [|n IH]; intros j; simpl; constructor; [lia|].
  eapply Forall_impl; [|apply IH]. simpl. intros; lia.
Qed.

Lemma count_from_sorted (n : nat) : forall j, StronglySorted Z.lt (count_from j n).
Proof.
  induction n as [|n IH]; intros j; simpl; constructor; [apply IH|].
  eapply Forall_impl; [|apply (count_from_lower n (j + 1))].
  simpl. intros; lia.
Qed.

Lemma sorted_mirror (c : Z) (l : list Z) :
  StronglySorted Z.lt l -> StronglySorted Z.gt (map (fun j => c - j) l).
Proof.
  induction 1 as [|x l _ IH Hx]; simpl; constructor; [exact IH|].
  rewrite Forall_map. eapply Forall_impl; [|exact Hx]. simpl. intros; lia.
Qed.

Lemma promoted_small (b : board) (z : Z) : 0 <= z < 65536 -> promoted b z = z.
Proof.
  intros H. unfold promoted. destruct (int_bits b =? 16); [|reflexivity].
  now apply to_uint16_small.
Qed.

Lemma fullRangeTest_up_run (b : board) (bits : Z) (g : globals) :
  0 <= bits < 65535 ->
  forall (k fuel : nat) (j : Z),
    0 <= j -> j + Z.of_nat k = bits + 1 -> (k < fuel)%nat ->
    fullRangeTest_up b fuel bits j g = (frames (count_from j k), Returned tt g).
Proof.
  intros Hb. induction k as [|k IH]; intros fuel j Hj Hk Hf;
    (destruct fuel as [|fuel]; [lia|]); cbn [fullRangeTest_up];
    rewrite (promoted_small b (bits + 1)) by lia.
  - replace (j <? bits + 1) with false by (symmetry; apply Z.ltb_ge; lia).
    reflexivity.
  - replace (j <? bits + 1) with true by (symmetry; apply Z.ltb_lt; lia).
    unfold digitalWrite, SPI_transfer16. rewrite !bind_emit.
    rewrite (to_uint16_small j), (to_uint16_small (j + 1)) by lia.
    rewrite (IH fuel (j + 1)) by lia. reflexivity.
Qed.

Lemma fullRangeTest_down_run (b : board) (bits : Z) (g : globals) :
  0 <= bits < 65535 ->
  forall (k fuel : nat) (j : Z),
    0 <= j -> j + Z.of_nat k = bits + 1 -> (k < fuel)%nat ->
    fullRangeTest_down b fuel bits j g
    = (frames (map (fun i => bits - i) (count_from j k)), Returned tt g).
Proof.
  intros Hb. induction k as [|k IH]; intros fuel j Hj Hk Hf;
    (destruct fuel as [|fuel]; [lia|]); cbn [fullRangeTest_down];
    rewrite (promoted_small b (bits + 1)) by lia.
  - replace (j <? bits + 1) with false by (symmetry; apply Z.ltb_ge; lia).
    reflexivity.
  - replace (j <? bits + 1) with true by (symmetry; apply Z.ltb_lt; lia).
    unfold digitalWrite, SPI_transfer16. rewrite !bind_emit.
    rewrite (promoted_small b (bits - j)) by lia.
    rewrite (to_uint16_small (bits - j)), (to_uint16_small (j + 1)) by lia.
    rewrite (IH fuel (j + 1)) by lia. reflexivity.
Qed.

(** With 32-bit [int] and [bits = 65535] the loop condition
    [j < bits + 1] never fails. *)
Lemma fullRangeTest_up_65535_runs (fuel : nat) : forall (j : Z) (g : globals),
  0 <= j < 65536 ->
  outcome_of (fullRangeTest_up ARM32 fuel 65535 j g) = Running.
Proof.
  induction fuel as [|fuel IH]; intros j g Hj; [reflexivity|].
  cbn [fullRangeTest_up]. change (promoted ARM32 (65535 + 1)) with 65536.
  replace (j <? 65536) with true by (symmetry; apply Z.ltb_lt; lia).
  unfold digitalWrite, SPI_transfer16. rewrite !bind_emit. simpl.
  apply IH. apply to_uint16_range.
Qed.

(** With [bits_max = 65535] a sweep is not [bits_max + 1] codes: where
    [int] has 16 bits, [bits + 1] wraps to 0 and the call returns without
    a single transfer; where it has 32 bits the call never returns. *)
Lemma fullRangeTest_65535 :
  fullRangeTest AVR8 1 true 65535 globals_init = ([], Returned tt globals_init)
  /\ fullRangeTest AVR8 1 false 65535 globals_init
     = ([], Returned tt globals_init)
  /\ (forall fuel, outcome_of (fullRangeTest ARM32 fuel true 65535 globals_init)
                   = Running)
  /\ ~ (forall (b : board) (bits_max : Z), 0 <= bits_max < 65536 ->
        exists (fuel : nat) (t : list event) (g : globals),
          fullRangeTest b fuel true bits_max globals_init = (t, Returned tt g)
          /\ Z.of_nat (length (transfers t)) = bits_max + 1).
Proof.
  split; [reflexivity|]. split; [reflexivity|]. split.
  - intros fuel. apply fullRangeTest_up_65535_runs. lia.
  - intros H. destruct (H ARM32 65535 ltac:(lia)) as (fuel & t & g & E & _).
    pose proof (fullRangeTest_up_65535_runs fuel 0 globals_init ltac:(lia)) as R.
    unfold fullRangeTest in E. rewrite E in R. discriminate R.
Qed.

Lemma drive_full_range (b : board) (fuel : nat) (g : globals) :
  (Z.to_nat DAC_14_BIT + 1 < fuel)%nat ->
  forall n : nat,
    drive b full_range fuel n g
    = (concat (repeat (frames (ramp_up DAC_14_BIT)) n), Returned tt g).
Proof.
  intros Hf.
  assert (E : forall g', loop b full_range fuel g'
              = (frames (ramp_up DAC_14_BIT), Returned tt g')).
  { intros g'. unfold loop, when; cbn [MODE_OUTPUT_SINE_WAVE
      MODE_OUTPUT_FULL_RANGE MODE_OUTPUT_QUICK_CHANGE full_range].
    rewrite bind_ret.
    assert (E0 : fullRangeTest b fuel true DAC_14_BIT g'
                 = (frames (ramp_up DAC_14_BIT), Returned tt g')).
    { unfold fullRangeTest, ramp_up.
      apply fullRangeTest_up_run; unfold DAC_14_BIT in *; lia. }
    erewrite bind_returned by exact E0.
    unfold trace_of, outcome_of, ret. cbn [fst snd].
    now rewrite app_nil_r. }
  induction n as [|n IH]; [reflexivity|].
  cbn [drive]. erewrite bind_returned by apply E.
  rewrite IH. reflexivity.
Qed.

(** C6.  For every maximum code [bits_max] up to 65534 (the sketch
    passes [DAC_14_BIT = 16383]) a call
    [fullRangeTest(true, bits_max)] returns after exactly [bits_max + 1]
    framed transfers, the codes [0, 1, ..., bits_max] in strictly
    increasing order, and [fullRangeTest(false, bits_max)] after exactly
    [bits_max + 1], the codes [bits_max, ..., 1, 0] in strictly decreasing
    order; [n] rounds of the drive loop in full-range mode send the
    ascending sweep of [DAC_14_BIT] [n] times over. *)
Theorem fullRangeTest_ramp (b : board) (fuel : nat) (bits_max : Z) (g : globals) :
  0 <= bits_max < 65535 ->
  (Z.to_nat bits_max + 1 < fuel)%nat ->
  fullRangeTest b fuel true bits_max g
  = (frames (ramp_up bits_max), Returned tt g)
  /\ fullRangeTest b fuel false bits_max g
     = (frames (ramp_down bits_max), Returned tt g)
  /\ Z.of_nat (length (ramp_up bits_max)) = bits_max + 1
  /\ Z.of_nat (length (ramp_down bits_max)) = bits_max + 1
  /\ (forall i, 0 <= i <= bits_max ->
        nth_error (ramp_up bits_max) (Z.to_nat i) = Some i
        /\ nth_error (ramp_down bits_max) (Z.to_nat i) = Some (bits_max - i))
  /\ StronglySorted Z.lt (ramp_up bits_max)
  /\ StronglySorted Z.gt (ramp_down bits_max)
  /\ ((Z.to_nat DAC_14_BIT + 1 < fuel)%nat ->
      forall n : nat,
        drive b full_range fuel n g
        = (concat (repeat (frames (ramp_up DAC_14_BIT)) n), Returned tt g)).
Proof.
  intros Hb Hf.
  assert (Hup : forall i, 0 <= i <= bits_max ->
            nth_error (ramp_up bits_max) (Z.to_nat i) = Some i).
  { intros i Hi. unfold ramp_up. rewrite count_from_nth by lia. f_equal. lia. }
  repeat apply conj.
  - unfold fullRangeTest, ramp_up. apply fullRangeTest_up_run; lia.
  - unfold fullRangeTest, ramp_down, ramp_up. apply fullRangeTest_down_run; lia.
  - unfold ramp_up. rewrite count_from_length. lia.
  - unfold ramp_down, ramp_up. rewrite length_map, count_from_length. lia.
  - intros i Hi. split; [now apply Hup|].
    unfold ramp_down. rewrite nth_error_map, Hup by lia. reflexivity.
  - apply count_from_sorted.
  - apply sorted_mirror, count_from_sorted.
  - intros Hf'. now apply drive_full_range.
Qed.

Lemma fullRangeTest_ramp_witness :
  fullRangeTest AVR8 8 true 5 globals_init
  = (frames (ramp_up 5), Returned tt globals_init)
  /\ fullRangeTest AVR8 8 false 5 globals_init
     = (frames (ramp_down 5), Returned tt globals_init)
  /\ Z.of_nat (length (ramp_up 5)) = 5 + 1
  /\ Z.of_nat (length (ramp_down 5)) = 5 + 1
  /\ (forall i, 0 <= i <= 5 ->
        nth_error (ramp_up 5) (Z.to_nat i) = Some i
        /\ nth_error (ramp_down 5) (Z.to_nat i) = Some (5 - i))
  /\ StronglySorted Z.lt (ramp_up 5)
  /\ StronglySorted Z.gt (ramp_down 5)
  /\ ((Z.to_nat DAC_14_BIT + 1 < 8)%nat ->
      forall n : nat,
        drive AVR8 full_range 8 n globals_init
        = (concat (repeat (frames (ramp_up DAC_14_BIT)) n),
           Returned tt globals_init)).
Proof.
  apply (fullRangeTest_ramp AVR8 8 5 globals_init).
  - lia.
  - simpl. lia.
Defined.

(** ** The toggle *)

Lemma toggle_length (n : nat) (bits : Z) : forall val,
  length (toggle n bits val) = n.
Proof. induction n; intros val; simpl; [reflexivity|now rewrite IHn]. Qed.

Lemma toggle_nth (bits : Z) (n : nat) : forall (val : bool) (i : nat),
  (i < n)%nat ->
  nth_error (toggle n bits val) i
  = Some (if xorb val (Nat.odd i) then bits else 0).
Proof.
  induction n as [|n IH]; intros val i Hi; [lia|].
  destruct i as [|i]; simpl toggle; simpl nth_error.
  - now rewrite xorb_false_r.
  - rewrite IH by lia. rewrite Nat.odd_succ, <- Nat.negb_odd.
    destruct val, (Nat.odd i); reflexivity.
Qed.

Lemma quickChangeTest_loop_run (bits : Z) (g : globals) :
  0 <= bits < 65536 ->
  forall (fuel : nat) (val : bool),
    quickChangeTest_loop fuel bits val g = (frames (toggle fuel bits val), Running).
Proof.
  intros Hb. induction fuel as [|fuel IH]; intros val; [reflexivity|].
  cbn [quickChangeTest_loop]. unfold digitalWrite. rewrite bind_emit.
  assert (E : (if val
               then SPI_transfer16 bits ;;; ret false
               else SPI_transfer16 0 ;;; ret true) g
              = ([Transfer16 (if val then bits else 0)], Returned (negb val) g)).
  { destruct val; unfold SPI_transfer16; rewrite bind_emit; cbn;
      [now rewrite to_uint16_small by lia | reflexivity]. }
  erewrite bind_returned by exact E.
  rewrite bind_emit, IH. reflexivity.
Qed.

(** C9.  Entered with the maximum code [2^bits - 1] of a width [bits] in
    (0,14] (the sketch passes [DAC_14_BIT = 2^14 - 1 = 16383]),
    [quickChangeTest] has not returned after any number of rounds of its
    loop; its [i]-th transfer is the minimum code [0] for even [i] and
    the maximum code [2^bits - 1] for odd [i], so no two consecutive
    transfers carry the same value; and [loop()] in quick-change mode is
    that call, so it never returns either. *)
Theorem quickChangeTest_alternates (fuel : nat) (bits : Z) (g : globals) :
  0 < bits <= 14 ->
  outcome_of (quickChangeTest fuel (2 ^ bits - 1) g) = Running
  /\ length (transfers (trace_of (quickChangeTest fuel (2 ^ bits - 1) g)))
     = fuel
  /\ (forall i : nat, (i < fuel)%nat ->
        nth_error
          (transfers (trace_of (quickChangeTest fuel (2 ^ bits - 1) g))) i
        = Some (if Nat.even i then 0 else 2 ^ bits - 1))
  /\ (forall i : nat, (S i < fuel)%nat ->
        nth_error
          (transfers (trace_of (quickChangeTest fuel (2 ^ bits - 1) g))) i
        <> nth_error
             (transfers (trace_of (quickChangeTest fuel (2 ^ bits - 1) g)))
             (S i))
  /\ DAC_14_BIT = 2 ^ 14 - 1
  /\ (forall b : board,
        loop b quick_change fuel g = quickChangeTest fuel DAC_14_BIT g
        /\ outcome_of (loop b quick_change fuel g) = Running).
Proof.
  intros Hb. unfold quickChangeTest.
  assert (P : 2 <= 2 ^ bits <= 2 ^ 14).
  { split.
    - change 2 with (2 ^ 1) at 1. apply Z.pow_le_mono_r; lia.
    - apply Z.pow_le_mono_r; lia. }
  change (2 ^ 14) with 16384 in P.
  assert (E : forall c, 0 <= c < 65536 ->
            quickChangeTest_loop fuel c false g
            = (frames (toggle fuel c false), Running))
    by (intros c Hc; now apply quickChangeTest_loop_run).
  rewrite (E (2 ^ bits - 1)) by lia.
  unfold trace_of, outcome_of. cbn [fst snd]. rewrite transfers_frames.
  assert (N : forall i : nat, (i < fuel)%nat ->
            nth_error (toggle fuel (2 ^ bits - 1) false) i
            = Some (if Nat.even i then 0 else 2 ^ bits - 1)).
  { intros i Hi. rewrite toggle_nth by exact Hi. cbn [xorb].
    rewrite <- Nat.negb_even. now destruct (Nat.even i). }
  repeat apply conj.
  - reflexivity.
  - apply toggle_length.
  - exact N.
  - intros i Hi. rewrite !N by lia. rewrite Nat.even_succ, <- Nat.negb_even.
    destruct (Nat.even i); cbn [negb]; intros [= H]; lia.
  - reflexivity.
  - intros b.
    assert (L : loop b quick_change fuel g
                = quickChangeTest_loop fuel DAC_14_BIT false g).
    { unfold loop, when; cbn [MODE_OUTPUT_SINE_WAVE
        MODE_OUTPUT_FULL_RANGE MODE_OUTPUT_QUICK_CHANGE quick_change].
      rewrite !bind_ret. reflexivity. }
    split; [exact L|].
    rewrite L, E by (unfold DAC_14_BIT; lia). reflexivity.
Qed.

Lemma quickChangeTest_alternates_witness :
  outcome_of (quickChangeTest 6 (2 ^ 14 - 1) globals_init) = Running
  /\ length (transfers (trace_of (quickChangeTest 6 (2 ^ 14 - 1) globals_init)))
     = 6%nat
  /\ (forall i : nat, (i < 6)%nat ->
        nth_error
          (transfers (trace_of (quickChangeTest 6 (2 ^ 14 - 1) globals_init))) i
        = Some (if Nat.even i then 0 else 2 ^ 14 - 1))
  /\ (forall i : nat, (S i < 6)%nat ->
        nth_error
          (transfers (trace_of (quickChangeTest 6 (2 ^ 14 - 1) globals_init))) i
        <> nth_error
             (transfers
                (trace_of (quickChangeTest 6 (2 ^ 14 - 1) globals_init)))
             (S i))
  /\ DAC_14_BIT = 2 ^ 14 - 1
  /\ (forall b : board,
        loop b quick_change 6 globals_init
        = quickChangeTest 6 DAC_14_BIT globals_init
        /\ outcome_of (loop b quick_change 6 globals_init) = Running).
Proof.
  apply (quickChangeTest_alternates 6 14 globals_init). lia.
Defined.

(** ** Sine playback *)

Lemma loop_sine_wave (b : board) (fuel : nat) (g : globals) :
  length (sineLUT g) = Z.to_nat TABLE_SIZE ->
  0 <= tableCounter g < TABLE_SIZE ->
  loop b sine_wave fuel g
  = (frame (sample (sineLUT g) (tableCounter g) 0),
     Returned tt (with_tableCounter g ((tableCounter g + 1) mod TABLE_SIZE))).
Proof.
  intros Hlen Hc. unfold TABLE_SIZE in *.
  unfold loop, when; cbn [MODE_OUTPUT_SINE_WAVE MODE_OUTPUT_FULL_RANGE
    MODE_OUTPUT_QUICK_CHANGE sine_wave].
  assert (Hn : nth_error (sineLUT g) (Z.to_nat (tableCounter g))
               = Some (nth (Z.to_nat (tableCounter g)) (sineLUT g) 0)).
  { apply nth_error_nth'. lia. }
  cbv beta iota delta [bind digitalWrite emit get read_sineLUT SPI_transfer16
    put ret lift].
  rewrite Hn.
  cbv beta iota delta [bind emit put ret lift app].
  unfold frame, sample, with_tableCounter, TABLE_SIZE.
  rewrite Z.add_0_r, (Z.mod_small (tableCounter g)) by lia.
  do 3 f_equal. f_equal.
  rewrite to_uint16_small by lia.
  destruct (Z.geb_spec (tableCounter g + 1) 16) as [H|H].
  - replace (tableCounter g + 1) with 16 by lia. reflexivity.
  - now rewrite Z.mod_small by lia.
Qed.

Lemma drive_sine_wave (b : board) (fuel : nat) (lut : list Z) :
  length lut = Z.to_nat TABLE_SIZE ->
  forall (n : nat) (c : Z),
    0 <= c < TABLE_SIZE ->
    drive b sine_wave fuel n {| sineLUT := lut; tableCounter := c |}
    = (frames (map (sample lut c) (seq 0 n)),
       Returned tt {| sineLUT := lut;
                      tableCounter := (c + Z.of_nat n) mod TABLE_SIZE |}).
Proof.
  intros Hlen. induction n as [|n IH]; intros c Hc.
  - cbn [drive seq map frames flat_map]. unfold ret.
    now rewrite Z.add_0_r, Z.mod_small by lia.
  - cbn [drive]. erewrite bind_returned by (now apply loop_sine_wave).
    unfold with_tableCounter; cbn [sineLUT tableCounter].
    rewrite IH by (apply Z.mod_pos_bound; reflexivity).
    unfold trace_of, outcome_of; cbn [fst snd].
    f_equal.
    + cbn [seq map frames flat_map]. unfold frames. f_equal.
      f_equal. rewrite <- seq_shift, map_map. apply map_ext. intros k.
      unfold sample. do 3 f_equal.
      rewrite Zplus_mod_idemp_l. f_equal. lia.
    + do 2 f_equal. rewrite Zplus_mod_idemp_l. f_equal. lia.
Qed.

(** C8.  Started with the cursor anywhere in [0, N), playback is back at
    the same cursor (and the same globals) after exactly [N = TABLE_SIZE]
    rounds, having sent [N] words; and it goes on for ever: for every [n]
    the first [n] rounds return, send exactly [n] words, the [k]-th being
    [sineLUT[(cursor + k) mod N]], and leave the cursor at
    [(cursor + n) mod N], ready for the next round. *)
Theorem sine_playback_period (b : board) (fuel : nat) (g : globals) :
  length (sineLUT g) = Z.to_nat TABLE_SIZE ->
  0 <= tableCounter g < TABLE_SIZE ->
  (exists t : list event,
      drive b sine_wave fuel (Z.to_nat TABLE_SIZE) g = (t, Returned tt g)
      /\ length (transfers t) = Z.to_nat TABLE_SIZE)
  /\ (forall n : nat, exists t : list event,
        drive b sine_wave fuel n g
        = (t, Returned tt
                (with_tableCounter g
                   ((tableCounter g + Z.of_nat n) mod TABLE_SIZE)))
        /\ transfers t = map (sample (sineLUT g) (tableCounter g)) (seq 0 n)
        /\ length (transfers t) = n).
Proof.
  intros Hlen Hc. destruct g as [lut c]; cbn [sineLUT tableCounter] in *.
  split.
  - eexists. split.
    + rewrite (drive_sine_wave b fuel lut Hlen _ c Hc). do 2 f_equal.
      f_equal. unfold TABLE_SIZE in *. rewrite Z2Nat.id by lia.
      rewrite <- (Z.mul_1_l 16) at 1. rewrite Z.mod_add by lia.
      apply Z.mod_small. lia.
    + now rewrite transfers_frames, length_map, length_seq.
  - intros n. eexists. split; [|split].
    + apply (drive_sine_wave b fuel lut Hlen n c Hc).
    + apply transfers_frames.
    + now rewrite transfers_frames, length_map, length_seq.
Qed.

Lemma sine_playback_period_witness :
  (exists t : list event,
      drive AVR8 sine_wave 0 (Z.to_nat TABLE_SIZE)
        (with_tableCounter globals_init 5)
      = (t, Returned tt (with_tableCounter globals_init 5))
      /\ length (transfers t) = Z.to_nat TABLE_SIZE)
  /\ (forall n : nat, exists t : list event,
        drive AVR8 sine_wave 0 n (with_tableCounter globals_init 5)
        = (t, Returned tt
                (with_tableCounter (with_tableCounter globals_init 5)
                   ((tableCounter (with_tableCounter globals_init 5)
                     + Z.of_nat n) mod TABLE_SIZE)))
        /\ transfers t
           = map (sample (sineLUT (with_tableCounter globals_init 5))
                    (tableCounter (with_tableCounter globals_init 5)))
               (seq 0 n)
        /\ length (transfers t) = n).
Proof.
  apply (sine_playback_period AVR8 0 (with_tableCounter globals_init 5)).
  - reflexivity.
  - unfold TABLE_SIZE. cbn. lia.
Defined.

(** ** The command format on the bus *)

Lemma safe_ret {A} (Q : A -> Prop) (a : A) : Q a -> safe Q (ret a).
Proof.
  intros H g Hg. split; [constructor|].
  intros a' g' [= <- <-]. now split.
Qed.

Lemma safe_bind {A B} (Q : A -> Prop) (R : B -> Prop) (m : M A) (k : A -> M B) :
  safe Q m -> (forall a, Q a -> safe R (k a)) -> safe R (bind m k).
Proof.
  intros Hm Hk g Hg. destruct (Hm g Hg) as [T P]. unfold bind.
  destruct (m g) as [t [a g'| |]] eqn:E; cbn [trace_of outcome_of fst snd] in *.
  - destruct (P a g' eq_refl) as [Hg' Qa].
    destruct (Hk a Qa g' Hg') as [T' P'].
    destruct (k a g') as [t' o']; cbn [trace_of outcome_of fst snd] in *.
    split; [|exact P'].
    rewrite transfers_app. apply Forall_app. now split.
  - split; [exact T|]. intros a g' [=].
  - split; [exact T|]. intros a g' [=].
Qed.

Lemma safe_out_of_fuel {A} (Q : A -> Prop) : safe Q out_of_fuel.
Proof. intros g Hg. split; [constructor|]. intros a g' [=]. Qed.

Lemma safe_lift {A} (Q : A -> Prop) (o : option A) :
  (forall a, o = Some a -> Q a) -> safe Q (lift o).
Proof.
  intros H. destruct o as [a|]; cbn [lift].
  - apply safe_ret. now apply H.
  - intros g Hg. split; [constructor|]. intros a g' [=].
Qed.

Lemma safe_get : safe lut_ok get.
Proof.
  intros g Hg. split; [constructor|]. intros a g' [= <- <-]. now split.
Qed.

Lemma safe_put (g0 : globals) : lut_ok g0 -> safe (fun _ => True) (put g0).
Proof.
  intros H g Hg. split; [constructor|]. intros a g' [= _ <-]. now split.
Qed.

Lemma safe_digitalWrite (l : level) : safe (fun _ => True) (digitalWrite l).
Proof.
  intros g Hg. split; [constructor|]. intros a g' [= _ <-]. now split.
Qed.

Lemma safe_transfer16 (w : Z) :
  code_ok w -> safe (fun _ => True) (SPI_transfer16 w).
Proof.
  intros H g Hg. unfold SPI_transfer16, emit. cbn.
  rewrite to_uint16_small by (unfold code_ok in H; lia).
  split; [constructor; [exact H|constructor]|].
  intros a g' [= _ <-]. now split.
Qed.

Lemma safe_when (c : bool) (m : M unit) :
  safe (fun _ => True) m -> safe (fun _ => True) (when c m).
Proof. intros H. destruct c; [exact H|now apply safe_ret]. Qed.

Ltac safe_step :=
  first [ apply safe_digitalWrite
        | eapply safe_bind; [apply safe_digitalWrite|intros _ _] ].

Lemma safe_fullRangeTest_up (b : board) (fuel : nat) : forall j,
  0 <= j -> safe (fun _ => True) (fullRangeTest_up b fuel DAC_14_BIT j).
Proof.
  induction fuel as [|fuel IH]; intros j Hj; cbn [fullRangeTest_up].
  - apply safe_out_of_fuel.
  - rewrite promoted_small by (unfold DAC_14_BIT; lia).
    unfold DAC_14_BIT. destruct (Z.ltb_spec j (16383 + 1)) as [L|L].
    + safe_step. eapply safe_bind; [apply safe_transfer16; unfold code_ok; lia|].
      intros _ _. safe_step. apply IH. apply to_uint16_range.
    + now apply safe_ret.
Qed.

Lemma safe_quickChangeTest_loop (fuel : nat) : forall val,
  safe (fun _ => True) (quickChangeTest_loop fuel DAC_14_BIT val).
Proof.
  induction fuel as [|fuel IH]; intros val; cbn [quickChangeTest_loop].
  - apply safe_out_of_fuel.
  - safe_step. eapply (safe_bind (fun _ => True)).
    + destruct val;
        (eapply safe_bind;
         [apply safe_transfer16; unfold code_ok, DAC_14_BIT; lia
         |intros _ _; now apply safe_ret]).
    + intros val' _. safe_step. apply IH.
Qed.

Lemma store_Forall (P : Z -> Prop) (l : list Z) : forall i v l',
  store l i v = Some l' -> Forall P l -> P v -> Forall P l'.
Proof.
  induction l as [|x l IH]; intros i v l' E Hl Hv; [discriminate E|].
  inversion Hl as [|? ? Hx Hl']; subst.
  destruct i as [|i]; cbn [store] in E.
  - injection E as <-. now constructor.
  - destruct (store l i v) as [l''|] eqn:E'; [|discriminate E].
    cbn [obind] in E. injection E as <-.
    constructor; [exact Hx|]. eapply IH; eassumption.
Qed.

Lemma safe_write_sineLUT (i v : Z) :
  code_ok v -> safe (fun _ => True) (write_sineLUT i v).
Proof.
  intros Hv g Hg. unfold write_sineLUT.
  cbv beta iota delta [bind get lift put ret undefined].
  destruct (store (sineLUT g) (Z.to_nat i) v) as [l|] eqn:E;
    cbn [trace_of outcome_of fst snd app transfers].
  - split; [constructor|]. intros a g' [= _ <-]. split; [|exact I].
    unfold lut_ok; cbn [sineLUT]. eapply store_Forall; eassumption.
  - split; [constructor|]. intros a g' [=].
Qed.

Lemma safe_read_sineLUT (i : Z) : safe code_ok (read_sineLUT i).
Proof.
  intros g Hg. unfold read_sineLUT.
  cbv beta iota delta [bind get lift ret undefined].
  destruct (nth_error (sineLUT g) (Z.to_nat i)) as [w|] eqn:E;
    cbn [trace_of outcome_of fst snd app transfers].
  - split; [constructor|]. intros a g' [= <- <-]. split; [exact Hg|].
    apply nth_error_In in E. unfold lut_ok in Hg.
    rewrite Forall_forall in Hg. now apply Hg.
  - split; [constructor|]. intros a g' [=].
Qed.

Section SafeSketch.

Variable b : board.
Variable sinf : spec_float -> spec_float.
Variable cfg : config.

Lemma safe_buildLUT_loop (fuel : nat) : forall tableSize bits i,
  safe (fun _ => True) (buildLUT_loop b sinf fuel tableSize bits i).
Proof.
  induction fuel as [|fuel IH]; intros tableSize bits i; cbn [buildLUT_loop].
  - apply safe_out_of_fuel.
  - destruct (i <? tableSize); [|now apply safe_ret].
    eapply (safe_bind (fun c => 0 <= c)).
    + apply safe_lift. intros c. unfold lut_code, F32.to_uint16, float_to_int.
      destruct (truncate _) as [z|]; [|discriminate].
      destruct (Z.leb_spec 0 z); cbn [andb]; [|discriminate].
      destruct (z <=? 2 ^ 16 - 1); [|discriminate]. now intros [= <-].
    + intros c Hc. eapply safe_bind.
      * apply safe_write_sineLUT. unfold code_ok.
        pose proof (land_16383_range c Hc). change (2 ^ 14 - 1) with 16383 in H.
        exact H.
      * intros _ _. apply IH.
Qed.

Lemma safe_setup (fuel : nat) : safe (fun _ => True) (setup b sinf cfg fuel).
Proof.
  unfold setup, pinMode_OUTPUT, SPI_begin, SPI_beginTransaction.
  assert (E : forall e, (forall w, e <> Transfer16 w) ->
                        safe (fun _ : unit => True) (emit e)).
  { intros e He g Hg. unfold emit. cbn [trace_of outcome_of fst snd].
    split; [destruct e; try constructor; now destruct (He w)|].
    intros a g' [= _ <-]. now split. }
  eapply safe_bind; [apply E; discriminate|intros _ _].
  safe_step.
  eapply safe_bind; [apply safe_when, safe_buildLUT_loop|intros _ _].
  eapply safe_bind; [apply E; discriminate|intros _ _].
  eapply safe_bind; [apply E; discriminate|intros _ _].
  apply safe_when.
  eapply (safe_bind code_ok).
  - apply safe_lift. intros c Hc. unfold call_dacBipolarVoltageToCode in Hc.
    apply dacBipolarVoltageToCode_range in Hc; [|vm_compute; discriminate].
    change (2 ^ Z.min (to_uint8 DAC_14_BIT) 14 - 1) with 16383 in Hc.
    exact Hc.
  - intros c Hc. safe_step.
    eapply safe_bind; [now apply safe_transfer16|intros _ _]. safe_step.
Qed.

Lemma safe_loop (fuel : nat) : safe (fun _ => True) (loop b cfg fuel).
Proof.
  unfold loop.
  eapply safe_bind; [apply safe_when|intros _ _].
  - safe_step. eapply safe_bind; [apply safe_get|intros g0 Hg0].
    eapply safe_bind; [apply safe_read_sineLUT|intros w Hw].
    eapply safe_bind; [now apply safe_transfer16|intros _ _].
    safe_step. now apply safe_put.
  - eapply safe_bind; [apply safe_when|intros _ _].
    + unfold fullRangeTest. apply safe_fullRangeTest_up. lia.
    + apply safe_when. apply safe_quickChangeTest_loop.
Qed.

Lemma safe_drive (fuel n : nat) : safe (fun _ => True) (drive b cfg fuel n).
Proof.
  induction n as [|n IH]; cbn [drive].
  - now apply safe_ret.
  - eapply safe_bind; [apply safe_loop|intros _ _; exact IH].
Qed.

Lemma safe_sketch (fuel n : nat) : safe (fun _ => True) (sketch b sinf cfg fuel n).
Proof.
  unfold sketch.
  eapply safe_bind; [apply safe_setup|intros _ _; apply safe_drive].
Qed.

End SafeSketch.

Lemma code_ok_top_bits (w : Z) : code_ok w -> Z.land w 49152 = 0.
Proof.
  intros H. unfold code_ok in H.
  rewrite <- (Z.mod_small w (2 ^ 14)) by (change (2 ^ 14) with 16384; lia).
  rewrite <- Z.land_ones by lia.
  rewrite <- Z.land_assoc. change (Z.land (Z.ones 14) 49152) with 0.
  apply Z.land_0_r.
Qed.

(** C3.  On every board, with any [sinf], whichever modes are switched
    on and whatever the single-value voltage, every word handed to
    [SPI.transfer16] during [setup()] and any number of rounds of
    [loop()] is at most [0x3FFF = 16383]: its bits 15 and 14 are zero. *)
Theorem transfers_fit_14_bits (b : board) (sinf : spec_float -> spec_float)
        (cfg : config) (fuel n : nat) :
  Forall (fun w => 0 <= w <= 16383 /\ Z.land w 49152 = 0)
    (transfers (trace_of (sketch b sinf cfg fuel n globals_init))).
Proof.
  assert (I : lut_ok globals_init).
  { unfold lut_ok, globals_init; cbn [sineLUT]. apply Forall_forall.
    intros x Hx. apply repeat_spec in Hx. subst x. unfold code_ok. lia. }
  destruct (safe_sketch b sinf cfg fuel n globals_init I) as [T _].
  eapply Forall_impl; [|exact T].
  intros w Hw. split; [exact Hw|now apply code_ok_top_bits].
Qed.

(** * Further properties *)

(** ** The converter outside its nominal range *)

Lemma magnitude_spec (vref : spec_float) :
  F32.valid vref = true -> is_finite vref = true -> SF2R vref <> 0%R ->
  F32.valid (magnitude vref) = true /\ is_finite (magnitude vref) = true
  /\ (0 < SF2R (magnitude vref))%R.
Proof.
  intros V F NZ. unfold magnitude, F32.geb.
  destruct (SFleb F32.zero vref) eqn:E.
  - apply SFleb_spec in E; try assumption; try reflexivity.
    cbn [SF2R F32.zero] in E. repeat split; try assumption. lra.
  - unfold F32.neg. rewrite valid_opp, is_finite_opp, SF2R_opp.
    repeat split; try assumption.
    destruct (Rle_lt_dec 0 (SF2R vref)) as [P|P]; [|lra].
    assert (SFleb F32.zero vref = true); [|congruence].
    apply SFleb_spec; try assumption; try reflexivity.
Qed.

Lemma positive_is_finite_false (V : spec_float) :
  is_finite V = true -> (0 < SF2R V)%R -> exists m e, V = S754_finite false m e.
Proof.
  intros F P. destruct V as [s|s| |s m e]; try discriminate F.
  - cbn [SF2R] in P. lra.
  - destruct s; [|now exists m, e].
    cbn [SF2R cond_Zopp] in P. pose proof (F2R_pos m e) as Q.
    unfold F2R in *. change (Z.neg m) with (- Z.pos m) in P.
    rewrite opp_IZR in P. lra.
Qed.

Lemma clamp_vout_finite (V v : spec_float) :
  F32.valid V = true -> is_finite V = true -> (0 < SF2R V)%R ->
  F32.valid v = true -> is_finite v = true ->
  F32.valid (clamp_vout V v) = true /\ is_finite (clamp_vout V v) = true
  /\ SF2R (clamp_vout V v) = Rmax (- SF2R V) (Rmin (SF2R V) (SF2R v)).
Proof.
  intros VV FV PV Vv Fv. unfold clamp_vout, F32.gtb, F32.ltb, F32.neg.
  assert (VN : F32.valid (SFopp V) = true) by now rewrite valid_opp.
  assert (FN : is_finite (SFopp V) = true) by now rewrite is_finite_opp.
  pose proof (SF2R_opp V) as ON.
  destruct (SFltb V v) eqn:G.
  - apply SFltb_spec in G; try assumption.
    destruct (SFltb V (SFopp V)) eqn:L.
    + apply SFltb_spec in L; try assumption. lra.
    + repeat split; try assumption.
      unfold Rmax, Rmin.
      destruct (Rle_dec (SF2R V) (SF2R v)); destruct (Rle_dec _ _); lra.
  - assert (G' : (SF2R v <= SF2R V)%R).
    { destruct (Rle_lt_dec (SF2R v) (SF2R V)) as [H|H]; [exact H|].
      apply SFltb_spec in H; try assumption. congruence. }
    destruct (SFltb v (SFopp V)) eqn:L.
    + apply SFltb_spec in L; try assumption.
      repeat split; try assumption. rewrite ON.
      unfold Rmax, Rmin.
      destruct (Rle_dec (SF2R V) (SF2R v)); destruct (Rle_dec _ _); lra.
    + assert (L' : (SF2R (SFopp V) <= SF2R v)%R).
      { destruct (Rle_lt_dec (SF2R (SFopp V)) (SF2R v)) as [H|H]; [exact H|].
        apply SFltb_spec in H; try assumption. congruence. }
      repeat split; try assumption.
      unfold Rmax, Rmin.
      destruct (Rle_dec (SF2R V) (SF2R v)); destruct (Rle_dec _ _); lra.
Qed.

Lemma clamp_vout_infinite (m : positive) (e : Z) (s : bool) :
  clamp_vout (S754_finite false m e) (S754_infinity s)
  = S754_finite s m e.
Proof.
  destruct s; unfold clamp_vout, F32.gtb, F32.ltb, F32.neg, SFltb;
    cbn [SFcompare SFopp negb]; reflexivity.
Qed.

(** The clamped voltage is a binary32 number between [-VREF] and [VREF],
    whatever the (non-NaN) voltage. *)
Lemma clamp_vout_spec (V v : spec_float) :
  F32.valid V = true -> is_finite V = true -> (0 < SF2R V)%R ->
  F32.valid v = true -> is_nan v = false ->
  F32.valid (clamp_vout V v) = true /\ is_finite (clamp_vout V v) = true
  /\ (- SF2R V <= SF2R (clamp_vout V v) <= SF2R V)%R.
Proof.
  intros VV FV PV Vv Nv.
  destruct (is_finite v) eqn:Fv.
  - destruct (clamp_vout_finite V v VV FV PV Vv Fv) as (A & B & C).
    split; [exact A|]. split; [exact B|]. rewrite C.
    unfold Rmax, Rmin.
    destruct (Rle_dec (SF2R V) (SF2R v)); destruct (Rle_dec _ _); lra.
  - destruct v as [s|s| |s m e]; try discriminate Fv; try discriminate Nv.
    destruct (positive_is_finite_false V FV PV) as (m & e & ->).
    rewrite clamp_vout_infinite.
    destruct s.
    + change (S754_finite true m e) with (SFopp (S754_finite false m e)).
      rewrite valid_opp, SF2R_opp. repeat split; try assumption; lra.
    + repeat split; try assumption; lra.
Qed.

Lemma clamp_vout_mono (V v1 v2 : spec_float) :
  F32.valid V = true -> is_finite V = true -> (0 < SF2R V)%R ->
  F32.valid v1 = true -> F32.valid v2 = true ->
  F32.leb v1 v2 = true ->
  (SF2R (clamp_vout V v1) <= SF2R (clamp_vout V v2))%R.
Proof.
  intros VV FV PV V1 V2 L.
  assert (N1 : is_nan v1 = false) by (destruct v1; try reflexivity; discriminate L).
  assert (N2 : is_nan v2 = false)
    by (destruct v2; try reflexivity; destruct v1 as [| | |]; discriminate L).
  destruct (clamp_vout_spec V v1 VV FV PV V1 N1) as (_ & _ & B1).
  destruct (clamp_vout_spec V v2 VV FV PV V2 N2) as (_ & _ & B2).
  destruct (is_finite v1) eqn:F1; destruct (is_finite v2) eqn:F2.
  - destruct (clamp_vout_finite V v1 VV FV PV V1 F1) as (_ & _ & C1).
    destruct (clamp_vout_finite V v2 VV FV PV V2 F2) as (_ & _ & C2).
    apply SFleb_spec in L; try assumption.
    rewrite C1, C2. unfold Rmax, Rmin.
    repeat destruct (Rle_dec _ _); lra.
  - destruct v2 as [s|s| |s m e]; try discriminate F2; try discriminate N2.
    destruct (positive_is_finite_false V FV PV) as (m & e & ->).
    destruct s.
    + destruct v1 as [s1|s1| |s1 m1 e1]; try discriminate F1;
        try destruct s1; discriminate L.
    + rewrite (clamp_vout_infinite m e false). lra.
  - destruct v1 as [s|s| |s m e]; try discriminate F1; try discriminate N1.
    destruct (positive_is_finite_false V FV PV) as (m & e & ->).
    destruct s.
    + rewrite (clamp_vout_infinite m e true).
      change (S754_finite true m e) with (SFopp (S754_finite false m e)).
      rewrite SF2R_opp. lra.
    + destruct v2 as [s2|s2| |s2 m2 e2]; try discriminate F2;
        try destruct s2; discriminate L.
  - destruct v1 as [s1|s1| |s1 m1 e1]; try discriminate F1; try discriminate N1.
    destruct v2 as [s2|s2| |s2 m2 e2]; try discriminate F2; try discriminate N2.
    destruct (positive_is_finite_false V FV PV) as (m & e & ->).
    rewrite !clamp_vout_infinite.
    destruct s1, s2; try discriminate L; try lra.
    change (S754_finite true m e) with (SFopp (S754_finite false m e)).
    rewrite SF2R_opp. lra.
Qed.

Lemma quantize_code_plus_half (bits : Z) (q : spec_float) :
  0 < bits <= 14 ->
  quantize bits q
  = (code_i <- F32.to_int32 (code_plus_half bits q) ;;
     Some (clamp_code bits code_i)).
Proof.
  intros Hb. unfold quantize, code_plus_half.
  assert (H : to_uint32 (Z.shiftl 1 (bits - 1)) = 2 ^ (bits - 1)).
  { unfold to_uint32, wrap. rewrite Z.shiftl_mul_pow2, Z.mul_1_l by lia.
    pose proof (pow2_lt_32 (bits - 1) ltac:(lia)).
    apply Z.mod_small. change (2 ^ 32) with 4294967296. lia. }
  rewrite H, of_Z_pow2 by lia. reflexivity.
Qed.

(** The converter past its two early returns: the quotient of the
    clamped voltage by the magnitude of the reference is quantized on
    [min bits 14] bits. *)
Lemma dacBipolarVoltageToCode_normalized (bits : Z) (vref vout : spec_float) :
  0 < bits ->
  F32.valid vref = true -> is_finite vref = true -> SF2R vref <> 0%R ->
  dacBipolarVoltageToCode bits vref vout
  = quantize (Z.min bits 14)
      (F32.div (clamp_vout (magnitude vref) vout) (magnitude vref)).
Proof.
  intros Hb Vr Fr NZ. unfold dacBipolarVoltageToCode.
  replace (bits =? 0) with false by (symmetry; apply Z.eqb_neq; lia).
  replace (if bits >? 14 then 14 else bits) with (Z.min bits 14)
    by (destruct (Z.gtb_spec bits 14); lia).
  change (if F32.geb vref F32.zero then vref else F32.neg vref)
    with (magnitude vref).
  destruct (magnitude_spec vref Vr Fr NZ) as (VV & FV & PV).
  assert (Z : F32.eqb (magnitude vref) F32.zero = false).
  { unfold F32.eqb, SFeqb.
    pose proof (SFcompare_spec (magnitude vref) F32.zero VV eq_refl FV eq_refl)
      as C.
    destruct (SFcompare (magnitude vref) F32.zero) as [[| |]|];
      try reflexivity.
    cbn [compare_agrees SF2R F32.zero] in C. lra. }
  rewrite Z. reflexivity.
Qed.

Lemma magnitude_zero (s : bool) (bits : Z) (vout : spec_float) :
  dacBipolarVoltageToCode bits (S754_zero s) vout = Some 0.
Proof.
  unfold dacBipolarVoltageToCode. destruct (bits =? 0); [reflexivity|].
  destruct s; reflexivity.
Qed.

Lemma finite_nonzero (s : bool) (m : positive) (e : Z) :
  SF2R (S754_finite s m e) <> 0%R.
Proof.
  pose proof (F2R_pos m e) as Q. cbn [SF2R]. unfold F2R in *.
  destruct s; cbn [cond_Zopp]; [|lra].
  change (Z.neg m) with (- Z.pos m). rewrite opp_IZR. lra.
Qed.

Lemma clamped_quotient (V v : spec_float) :
  F32.valid V = true -> is_finite V = true -> (0 < SF2R V)%R ->
  F32.valid v = true -> is_nan v = false ->
  bounded_by 0 (F32.div (clamp_vout V v) V).
Proof.
  intros VV FV PV Vv Nv.
  destruct (clamp_vout_spec V v VV FV PV Vv Nv) as (A & B & C).
  apply div_bounded; try assumption.
  apply Rabs_le. lra.
Qed.

Lemma quantize_clamped (bits : Z) (V v : spec_float) :
  0 < bits <= 14 ->
  F32.valid V = true -> is_finite V = true -> (0 < SF2R V)%R ->
  F32.valid v = true -> is_nan v = false ->
  exists code, quantize bits (F32.div (clamp_vout V v) V) = Some code
    /\ 0 <= code <= 2 ^ bits - 1.
Proof.
  intros Hb VV FV PV Vv Nv.
  rewrite quantize_code_plus_half by exact Hb.
  pose proof (clamped_quotient _ _ VV FV PV Vv Nv) as Q.
  apply (code_plus_half_bounded bits) in Q; [|exact Hb].
  destruct (to_int32_bounded _ Q) as (z & _ & ->).
  cbn [obind]. eexists. split; [reflexivity|].
  now apply clamp_code_range.
Qed.

(** X1.  The converter is total on numbers: for a width that fits
    [uint8_t], a finite reference (zero and negative included) and any
    voltage that is not NaN (the infinities included), it returns a
    code, and the code is at most [2^min(bits,14) - 1]. *)
Theorem dacBipolarVoltageToCode_total (bits : Z) (vref vout : spec_float) :
  0 <= bits < 256 ->
  F32.valid vref = true -> is_finite vref = true ->
  F32.valid vout = true -> is_nan vout = false ->
  exists code, dacBipolarVoltageToCode bits vref vout = Some code
    /\ 0 <= code <= 2 ^ Z.min bits 14 - 1.
Proof.
  intros Hb Vr Fr Vv Nv.
  destruct (Z.eq_dec bits 0) as [->|NZb].
  { exists 0. split; [reflexivity|]. cbn. lia. }
  assert (P : 0 <= 2 ^ Z.min bits 14 - 1)
    by (pose proof (Z.pow_pos_nonneg 2 (Z.min bits 14)); lia).
  destruct vref as [s|s| |s m e]; try discriminate Fr.
  { exists 0. rewrite magnitude_zero. split; [reflexivity|lia]. }
  pose proof (finite_nonzero s m e) as NZ.
  rewrite dacBipolarVoltageToCode_normalized by (assumption || lia).
  destruct (magnitude_spec _ Vr Fr NZ) as (VV & FV & PV).
  apply quantize_clamped; try assumption. lia.
Qed.

Lemma dacBipolarVoltageToCode_total_witness :
  exists code,
    dacBipolarVoltageToCode 200 (F32.neg (REF_VOLT AVR8)) (S754_infinity false)
    = Some code
    /\ 0 <= code <= 2 ^ Z.min 200 14 - 1.
Proof.
  apply (dacBipolarVoltageToCode_total 200 (F32.neg (REF_VOLT AVR8))
           (S754_infinity false)); try reflexivity. lia.
Defined.

(** X2.  Saturation.  With a finite non-zero reference, every voltage
    above [|vref|] (up to [+inf]) gives the top code [2^min(bits,14) - 1]
    and every voltage below [-|vref|] (down to [-inf]) gives code 0. *)
Theorem dacBipolarVoltageToCode_saturates (bits : Z) (vref vout : spec_float) :
  0 < bits < 256 ->
  F32.valid vref = true -> is_finite vref = true ->
  F32.eqb vref F32.zero = false ->
  (F32.gtb vout (magnitude vref) = true ->
   dacBipolarVoltageToCode bits vref vout = Some (2 ^ Z.min bits 14 - 1))
  /\ (F32.ltb vout (F32.neg (magnitude vref)) = true ->
      dacBipolarVoltageToCode bits vref vout = Some 0).
Proof.
  intros Hb Vr Fr Zr.
  destruct vref as [s|s| |s m e]; try discriminate Fr.
  { destruct s; discriminate Zr. }
  pose proof (finite_nonzero s m e) as NZ.
  destruct (magnitude_spec _ Vr Fr NZ) as (VV & FV & PV).
  destruct (positive_is_finite_false _ FV PV) as (m' & e' & E).
  destruct (quantize_endpoints (Z.min bits 14) ltac:(lia)) as (_ & Top & Bot).
  split; intros G;
    rewrite dacBipolarVoltageToCode_normalized by (assumption || lia);
    rewrite E in *; unfold clamp_vout.
  - rewrite G.
    replace (F32.ltb (S754_finite false m' e')
               (F32.neg (S754_finite false m' e'))) with false by reflexivity.
    rewrite div_same. exact Top.
  - assert (G' : F32.gtb vout (S754_finite false m' e') = false).
    { unfold F32.gtb, F32.ltb, F32.neg, SFltb in *.
      cbn [SFopp negb] in G.
      destruct vout as [sv|sv| |sv mv ev]; try destruct sv;
        try discriminate G; reflexivity. }
    rewrite G', G. change (F32.neg (S754_finite false m' e'))
      with (S754_finite true m' e').
    rewrite div_same. exact Bot.
Qed.

Lemma dacBipolarVoltageToCode_saturates_witness :
  (F32.gtb (F32.of_Z 5) (magnitude (F32.neg (REF_VOLT AVR8))) = true ->
   dacBipolarVoltageToCode 14 (F32.neg (REF_VOLT AVR8)) (F32.of_Z 5)
   = Some (2 ^ Z.min 14 14 - 1))
  /\ (F32.ltb (F32.of_Z 5) (F32.neg (magnitude (F32.neg (REF_VOLT AVR8)))) = true ->
      dacBipolarVoltageToCode 14 (F32.neg (REF_VOLT AVR8)) (F32.of_Z 5) = Some 0).
Proof.
  apply (dacBipolarVoltageToCode_saturates 14 (F32.neg (REF_VOLT AVR8))
           (F32.of_Z 5)); try reflexivity. lia.
Defined.

(** X3.  NaN is not filtered: for a non-zero width, a NaN reference,
    or a NaN voltage with a non-zero reference, passes every comparison
    and reaches the conversion to [int32_t], whose behaviour is
    undefined. *)
Theorem dacBipolarVoltageToCode_nan (bits : Z) (vref vout : spec_float) :
  bits <> 0 ->
  is_nan vref = true \/ (is_nan vout = true /\ F32.eqb vref F32.zero = false) ->
  dacBipolarVoltageToCode bits vref vout = None.
Proof.
  intros Hb H. unfold dacBipolarVoltageToCode.
  replace (bits =? 0) with false by (symmetry; now apply Z.eqb_neq).
  destruct H as [H|[H Z]].
  - destruct vref; try discriminate H.
    destruct vout as [sv|sv| |sv mv ev]; reflexivity.
  - destruct vout; try discriminate H.
    destruct vref as [s|s| |s m e]; try (destruct s; discriminate Z);
      try destruct s; reflexivity.
Qed.

Lemma dacBipolarVoltageToCode_nan_witness :
  dacBipolarVoltageToCode 14 (REF_VOLT AVR8) S754_nan = None.
Proof.
  apply (dacBipolarVoltageToCode_nan 14 (REF_VOLT AVR8) S754_nan).
  - lia.
  - right. split; reflexivity.
Defined.

Lemma dacBipolarVoltageToCode_infinite (bits : Z) (s : bool) (vout : spec_float) :
  0 < bits ->
  dacBipolarVoltageToCode bits (S754_infinity s) vout
  = quantize (Z.min bits 14)
      (F32.div (clamp_vout (S754_infinity false) vout) (S754_infinity false)).
Proof.
  intros Hb. unfold dacBipolarVoltageToCode.
  replace (bits =? 0) with false by (symmetry; apply Z.eqb_neq; lia).
  replace (if bits >? 14 then 14 else bits) with (Z.min bits 14)
    by (destruct (Z.gtb_spec bits 14); lia).
  destruct s; reflexivity.
Qed.

(** X4.  An infinite reference: every finite voltage is converted
    to mid-scale [2^(min(bits,14)-1)]; an infinite or NaN voltage makes
    the quotient NaN and the conversion to [int32_t] undefined. *)
Theorem dacBipolarVoltageToCode_infinite_reference
        (bits : Z) (s : bool) (vout : spec_float) :
  0 < bits < 256 ->
  (is_finite vout = true ->
   dacBipolarVoltageToCode bits (S754_infinity s) vout
   = Some (2 ^ (Z.min bits 14 - 1)))
  /\ (is_finite vout = false ->
      dacBipolarVoltageToCode bits (S754_infinity s) vout = None).
Proof.
  intros Hb. rewrite dacBipolarVoltageToCode_infinite by lia.
  destruct (quantize_endpoints (Z.min bits 14) ltac:(lia)) as (Mid & _).
  split; intros F.
  - destruct vout as [sv|sv| |sv mv ev]; try discriminate F.
    + replace (F32.div _ _) with (S754_zero sv) by (destruct sv; reflexivity).
      apply Mid.
    + replace (F32.div _ _) with (S754_zero sv) by (destruct sv; reflexivity).
      apply Mid.
  - destruct vout as [sv|sv| |sv mv ev]; try discriminate F.
    + destruct sv; reflexivity.
    + reflexivity.
Qed.

Lemma dacBipolarVoltageToCode_infinite_reference_witness :
  (is_finite (F32.of_Z 3) = true ->
   dacBipolarVoltageToCode 14 (S754_infinity true) (F32.of_Z 3)
   = Some (2 ^ (Z.min 14 14 - 1)))
  /\ (is_finite (F32.of_Z 3) = false ->
      dacBipolarVoltageToCode 14 (S754_infinity true) (F32.of_Z 3) = None).
Proof.
  apply (dacBipolarVoltageToCode_infinite_reference 14 true (F32.of_Z 3)). lia.
Defined.

(** X5.  The converter is monotone on the whole line: for any finite
    reference and any two voltages [v1 <= v2], inside or outside the
    range, infinite or not, both conversions return and the code of [v1]
    is at most the code of [v2]. *)
Theorem dacBipolarVoltageToCode_monotone_everywhere
  (bits : Z) (vref v1 v2 : spec_float) :
  0 <= bits < 256 ->
  F32.valid vref = true -> is_finite vref = true ->
  F32.valid v1 = true -> F32.valid v2 = true ->
  F32.leb v1 v2 = true ->
  exists c1 c2,
    dacBipolarVoltageToCode bits vref v1 = Some c1
    /\ dacBipolarVoltageToCode bits vref v2 = Some c2
    /\ c1 <= c2.
Proof.
  intros Hb Vr Fr V1 V2 L.
  destruct (Z.eq_dec bits 0) as [->|NZb].
  { exists 0, 0. repeat split; lia. }
  destruct vref as [s|s| |s m e]; try discriminate Fr.
  { exists 0, 0. rewrite !magnitude_zero. repeat split; lia. }
  assert (N1 : is_nan v1 = false)
    by (destruct v1; try reflexivity; discriminate L).
  assert (N2 : is_nan v2 = false)
    by (destruct v2; try reflexivity; destruct v1 as [| | |]; discriminate L).
  pose proof (finite_nonzero s m e) as NZ.
  rewrite !dacBipolarVoltageToCode_normalized by (assumption || lia).
  destruct (magnitude_spec _ Vr Fr NZ) as (VV & FV & PV).
  set (V := magnitude (S754_finite s m e)) in *.
  set (b := Z.min bits 14). assert (Hb' : 0 < b <= 14) by (unfold b; lia).
  rewrite !quantize_code_plus_half by exact Hb'.
  pose proof (clamped_quotient _ _ VV FV PV V1 N1) as Q1.
  pose proof (clamped_quotient _ _ VV FV PV V2 N2) as Q2.
  destruct (clamp_vout_spec V v1 VV FV PV V1 N1) as (A1 & B1 & C1).
  destruct (clamp_vout_spec V v2 VV FV PV V2 N2) as (A2 & B2 & C2).
  pose proof (clamp_vout_mono V v1 v2 VV FV PV V1 V2 L) as Mv.
  assert (Mq : (SF2R (F32.div (clamp_vout V v1) V)
                <= SF2R (F32.div (clamp_vout V v2) V))%R).
  { apply div_mono; try assumption; apply Rabs_le; lra. }
  pose proof (code_plus_half_mono b _ _ Hb' Q1 Q2 Mq) as Mc.
  pose proof (code_plus_half_bounded b _ Hb' Q1) as K1.
  pose proof (code_plus_half_bounded b _ Hb' Q2) as K2.
  destruct (to_int32_bounded _ K1) as (z1 & T1 & ->).
  destruct (to_int32_bounded _ K2) as (z2 & T2 & ->).
  cbn [obind]. do 2 eexists. split; [reflexivity|]. split; [reflexivity|].
  rewrite !clamp_code_spec by exact Hb'.
  assert (z1 <= z2).
  { apply (truncate_mono _ _ z1 z2 (proj1 (proj2 K1)) (proj1 (proj2 K2)) T1 T2 Mc). }
  lia.
Qed.

Lemma dacBipolarVoltageToCode_monotone_everywhere_witness :
  exists c1 c2,
    dacBipolarVoltageToCode 12 (F32.neg (REF_VOLT AVR8)) (S754_infinity true)
    = Some c1
    /\ dacBipolarVoltageToCode 12 (F32.neg (REF_VOLT AVR8)) (F32.of_Z 7)
       = Some c2
    /\ c1 <= c2.
Proof.
  apply (dacBipolarVoltageToCode_monotone_everywhere 12
           (F32.neg (REF_VOLT AVR8)) (S754_infinity true) (F32.of_Z 7));
    try reflexivity. lia.
Defined.

Lemma SFcompare_shift_exponent (k : Z) (x y : spec_float) :
  SFcompare (shift_exponent k x) (shift_exponent k y) = SFcompare x y.
Proof.
  destruct x as [sx|sx| |sx mx ex], y as [sy|sy| |sy my ey];
    try reflexivity.
  cbn [shift_exponent SFcompare].
  now rewrite (Z.add_comm ex k), (Z.add_comm ey k), Z.add_compare_mono_l.
Qed.

Lemma neg_shift_exponent (k : Z) (x : spec_float) :
  F32.neg (shift_exponent k x) = shift_exponent k (F32.neg x).
Proof. destruct x; reflexivity. Qed.

Lemma ltb_shift_exponent (k : Z) (x y : spec_float) :
  F32.ltb (shift_exponent k x) (shift_exponent k y) = F32.ltb x y.
Proof. unfold F32.ltb, SFltb. now rewrite SFcompare_shift_exponent. Qed.

Lemma gtb_shift_exponent (k : Z) (x y : spec_float) :
  F32.gtb (shift_exponent k x) (shift_exponent k y) = F32.gtb x y.
Proof. apply ltb_shift_exponent. Qed.

Lemma geb_shift_exponent_zero (k : Z) (x : spec_float) :
  F32.geb (shift_exponent k x) F32.zero = F32.geb x F32.zero.
Proof.
  unfold F32.geb, SFleb.
  change F32.zero with (shift_exponent k F32.zero) at 1.
  now rewrite SFcompare_shift_exponent.
Qed.

Lemma eqb_shift_exponent_zero (k : Z) (x : spec_float) :
  F32.eqb (shift_exponent k x) F32.zero = F32.eqb x F32.zero.
Proof.
  unfold F32.eqb, SFeqb.
  change F32.zero with (shift_exponent k F32.zero) at 1.
  now rewrite SFcompare_shift_exponent.
Qed.

Lemma div_shift_exponent (k : Z) (x y : spec_float) :
  F32.div (shift_exponent k x) (shift_exponent k y) = F32.div x y.
Proof.
  destruct x as [sx|sx| |sx mx ex], y as [sy|sy| |sy my ey];
    try reflexivity.
  unfold F32.div, shift_exponent, SFdiv, SFdiv_core_binary.
  replace (Zdigits2 (Z.pos mx) + (ex + k) - (Zdigits2 (Z.pos my) + (ey + k)))
    with (Zdigits2 (Z.pos mx) + ex - (Zdigits2 (Z.pos my) + ey)) by lia.
  replace (ex + k - (ey + k)) with (ex - ey) by lia. reflexivity.
Qed.

Lemma SF2R_shift_exponent (k : Z) (x : spec_float) :
  SF2R (shift_exponent k x) = (SF2R x * bpow k)%R.
Proof.
  destruct x as [s|s| |s m e]; cbn [shift_exponent SF2R]; try ring.
  unfold F2R. rewrite bpow_plus. ring.
Qed.

(** When the shifted representation is a binary32 number, it is the
    product by [2^k] that the binary32 multiplication returns: the
    product is exact. *)
Lemma mul_pow2_exact (k : Z) (x : spec_float) :
  -126 <= k <= 127 ->
  F32.valid x = true -> F32.valid (shift_exponent k x) = true ->
  (Rabs (SF2R x) * bpow k < bpow 100)%R ->
  F32.mul x (pow2 k) = shift_exponent k x.
Proof.
  intros Hk Vx Vs B.
  destruct x as [s|s| |s m e]; try (destruct s; reflexivity); try reflexivity.
  destruct (pow2_spec k Hk) as (Vp & Fp & Rp).
  assert (N : nearest (SF2R (S754_finite s m e) * bpow k)
                (F32.mul (S754_finite s m e) (pow2 k))).
  { rewrite <- Rp. apply SFmul_nearest; try assumption; try reflexivity.
    rewrite Rp, Rabs_mult, (Rabs_pos_eq (bpow k)); [exact B|].
    pose proof (bpow_gt_0 k). lra. }
  pose proof (nearest_exact _ _ (shift_exponent k (S754_finite s m e)) N Vs
                eq_refl (SF2R_shift_exponent k _)) as E.
  rewrite <- (SF2R_shift_exponent k (S754_finite s m e)) in E.
  destruct N as (Vm & Fm & _).
  destruct (SF2R_inj _ _ Vm Vs Fm eq_refl E) as [H|(sx & sy & _ & H)];
    [exact H|discriminate H].
Qed.

Lemma bounded_scaled (K k : Z) (x : spec_float) :
  bounded_by K x -> K + k < 100 ->
  (Rabs (SF2R x) * bpow k < bpow 100)%R.
Proof.
  intros (_ & _ & B) H.
  apply Rle_lt_trans with (bpow (K + k)); [|now apply bpow_lt].
  rewrite bpow_plus. apply Rmult_le_compat_r; [|exact B].
  pose proof (bpow_gt_0 k). lra.
Qed.

(** On representations, the comparisons and the division of the
    converter depend on the two exponents only through their
    difference. *)
Lemma dacBipolarVoltageToCode_shift_exponent
  (bits k : Z) (vref vout : spec_float) :
  dacBipolarVoltageToCode bits (shift_exponent k vref) (shift_exponent k vout)
  = dacBipolarVoltageToCode bits vref vout.
Proof.
  unfold dacBipolarVoltageToCode.
  destruct (bits =? 0); [reflexivity|].
  rewrite geb_shift_exponent_zero.
  destruct (F32.geb vref F32.zero); rewrite ?neg_shift_exponent;
    rewrite eqb_shift_exponent_zero;
    (destruct (F32.eqb _ F32.zero); [reflexivity|]);
    rewrite gtb_shift_exponent;
    (destruct (F32.gtb vout _));
    rewrite ?neg_shift_exponent, ltb_shift_exponent;
    (destruct (F32.ltb _ _)); rewrite ?neg_shift_exponent, div_shift_exponent;
    reflexivity.
Qed.

(** X6.  Only the ratio of the two voltages matters.  Let the
    reference and the voltage be binary32 numbers whose products by
    [2^k] are exact: the exponents shifted by [k] stay in the format (no
    overflow, no underflow), for [k] in [-126, 127] and magnitudes below
    [2^100].  Then the binary32 products by [2^k] are binary32 numbers
    of exactly those values, and the converter returns for them what it
    returns for the reference and the voltage. *)
Theorem dacBipolarVoltageToCode_scale_invariant
  (bits k : Z) (vref vout : spec_float) :
  -126 <= k <= 127 ->
  F32.valid vref = true -> F32.valid vout = true ->
  F32.valid (shift_exponent k vref) = true ->
  F32.valid (shift_exponent k vout) = true ->
  (Rabs (SF2R vref) * bpow k < bpow 100)%R ->
  (Rabs (SF2R vout) * bpow k < bpow 100)%R ->
  F32.valid (F32.mul vref (pow2 k)) = true
  /\ F32.valid (F32.mul vout (pow2 k)) = true
  /\ SF2R (F32.mul vref (pow2 k)) = (SF2R vref * bpow k)%R
  /\ SF2R (F32.mul vout (pow2 k)) = (SF2R vout * bpow k)%R
  /\ dacBipolarVoltageToCode bits (F32.mul vref (pow2 k)) (F32.mul vout (pow2 k))
     = dacBipolarVoltageToCode bits vref vout.
Proof.
  intros Hk Vr Vv Sr Sv Br Bv.
  rewrite (mul_pow2_exact k vref Hk Vr Sr Br).
  rewrite (mul_pow2_exact k vout Hk Vv Sv Bv).
  split; [exact Sr|]. split; [exact Sv|].
  split; [apply SF2R_shift_exponent|]. split; [apply SF2R_shift_exponent|].
  apply dacBipolarVoltageToCode_shift_exponent.
Qed.

Lemma dacBipolarVoltageToCode_scale_invariant_witness :
  F32.valid (F32.mul (REF_VOLT AVR8) (pow2 3)) = true
  /\ F32.valid (F32.mul outputThisVoltage_init (pow2 3)) = true
  /\ SF2R (F32.mul (REF_VOLT AVR8) (pow2 3))
     = (SF2R (REF_VOLT AVR8) * bpow 3)%R
  /\ SF2R (F32.mul outputThisVoltage_init (pow2 3))
     = (SF2R outputThisVoltage_init * bpow 3)%R
  /\ dacBipolarVoltageToCode 14 (F32.mul (REF_VOLT AVR8) (pow2 3))
       (F32.mul outputThisVoltage_init (pow2 3))
     = dacBipolarVoltageToCode 14 (REF_VOLT AVR8) outputThisVoltage_init.
Proof.
  apply (dacBipolarVoltageToCode_scale_invariant 14 3 (REF_VOLT AVR8)
           outputThisVoltage_init); try reflexivity.
  - lia.
  - apply (bounded_scaled 3); [|lia].
    apply bounded_of_leb; [lia|reflexivity|reflexivity|reflexivity].
  - apply (bounded_scaled 3); [|lia].
    apply bounded_of_leb; [lia|reflexivity|reflexivity|reflexivity].
Defined.

(** ** Accuracy of the converter *)

Lemma Rabs_le_elim (x a : R) : (Rabs x <= a)%R -> (- a <= x <= a)%R.
Proof. unfold Rabs. destruct (Rcase_abs x); lra. Qed.

(** Every [n * 2^E] with at most 24 digits is a binary32 number. *)
Lemma representable (n E : Z) :
  0 <= n <= 2 ^ 24 -> -149 <= E <= 100 ->
  exists g, F32.valid g = true /\ is_finite g = true /\ SF2R g = F2R n E.
Proof.
  intros Hn HE.
  destruct (Z.eq_dec n 0) as [->|N0].
  { exists (pack 0 E). apply pack_spec; auto; lia. }
  destruct (Z.eq_dec n (2 ^ 24)) as [->|N24].
  { exists (pack (2 ^ 24) E). apply pack_spec; auto; lia. }
  destruct n as [|m|m]; try lia.
  pose proof (digits2_pos_bounds m) as D.
  set (d := Z.pos (digits2_pos m)) in *.
  assert (Hd : 0 < d <= 24).
  { split; [unfold d; lia|].
    destruct (Z_lt_le_dec 24 d) as [C|C]; [|exact C].
    assert (2 ^ 24 <= 2 ^ (d - 1)) by (apply Z.pow_le_mono_r; lia). lia. }
  set (E' := fexp32 (d + E)).
  assert (HE' : -149 <= E' <= E) by (unfold E', fexp32; lia).
  exists (pack (Z.pos m * 2 ^ (E - E')) E').
  assert (P : 0 < 2 ^ (E - E')) by (apply Z.pow_pos_nonneg; lia).
  destruct (pack_spec (Z.pos m * 2 ^ (E - E')) E') as (A & B & C).
  - lia.
  - lia.
  - right; left. rewrite Zdigits2_shift by lia. fold d.
    replace (d + (E - E') + E') with (d + E) by lia. reflexivity.
  - split; [exact A|]. split; [exact B|]. rewrite C. unfold F2R.
    rewrite mult_IZR, <- bpow_IZR by lia.
    replace E with ((E - E') + E') at 2 by lia.
    rewrite bpow_plus. ring.
Qed.

(** The error of one rounding of a number of magnitude at most [2^k]. *)
Lemma rounding_error (x : R) (f : spec_float) (k : Z) :
  nearest x f -> -125 <= k <= 100 -> (Rabs x <= bpow k)%R ->
  (Rabs (SF2R f - x) <= bpow (k - 24))%R.
Proof.
  intros (_ & _ & N) Hk Hx.
  set (E := k - 24).
  set (y := (Rabs x * bpow (- E))%R).
  pose proof (bpow_gt_0 (- E)) as PE. pose proof (bpow_gt_0 E) as PE'.
  pose proof (Rabs_pos x) as Px.
  assert (Hy : (0 <= y <= IZR (2 ^ 24))%R).
  { unfold y. split; [apply Rmult_le_pos; lra|].
    rewrite <- bpow_IZR by lia.
    replace 24 with (k + - E) by (unfold E; lia).
    rewrite bpow_plus. apply Rmult_le_compat_r; lra. }
  destruct (archimed y) as [U1 U2].
  set (n := up y - 1).
  assert (Hn : (IZR n <= y < IZR n + 1)%R).
  { unfold n. rewrite minus_IZR. lra. }
  assert (Hn' : 0 <= n <= 2 ^ 24).
  { split.
    - assert (0 < n + 1); [|lia]. apply lt_IZR. rewrite plus_IZR. lra.
    - apply le_IZR. lra. }
  destruct (representable n E Hn' ltac:(unfold E; lia)) as (g & Vg & Fg & Rg).
  assert (Y : (Rabs x = y * bpow E)%R).
  { unfold y. now rewrite scaled_back. }
  assert (G : (0 <= Rabs x - SF2R g <= bpow E)%R).
  { rewrite Rg, Y. unfold F2R.
    replace (y * bpow E - IZR n * bpow E)%R with ((y - IZR n) * bpow E)%R by ring.
    split; [apply Rmult_le_pos; lra|].
    rewrite <- (Rmult_1_l (bpow E)) at 2.
    apply Rmult_le_compat_r; lra. }
  destruct (Rle_lt_dec 0 x) as [S|S].
  - rewrite (Rabs_pos_eq x S) in G.
    eapply Rle_trans; [apply (N g Vg Fg)|].
    apply Rabs_le. lra.
  - rewrite (Rabs_left x S) in G.
    assert (Vo : F32.valid (SFopp g) = true) by now rewrite valid_opp.
    assert (Fo : is_finite (SFopp g) = true) by now rewrite is_finite_opp.
    eapply Rle_trans; [apply (N (SFopp g) Vo Fo)|].
    rewrite SF2R_opp. apply Rabs_le. lra.
Qed.

Lemma magnitude_value (vref : spec_float) :
  F32.valid vref = true -> is_finite vref = true ->
  SF2R (magnitude vref) = Rabs (SF2R vref).
Proof.
  intros V F. unfold magnitude, F32.geb.
  destruct (SFleb F32.zero vref) eqn:E.
  - apply SFleb_spec in E; try assumption; try reflexivity.
    cbn [SF2R F32.zero] in E. now rewrite Rabs_pos_eq.
  - unfold F32.neg. rewrite SF2R_opp.
    destruct (Rle_lt_dec 0 (SF2R vref)) as [P|P].
    + assert (SFleb F32.zero vref = true); [|congruence].
      apply SFleb_spec; try assumption; try reflexivity.
    + now rewrite Rabs_left.
Qed.

(** The value converted to an integer is the ideal code plus one half,
    up to the error of four roundings. *)
Lemma code_plus_half_error (bits : Z) (V v : spec_float) :
  0 < bits <= 14 ->
  F32.valid V = true -> is_finite V = true -> (0 < SF2R V)%R ->
  F32.valid v = true -> is_finite v = true ->
  (- SF2R V <= SF2R v <= SF2R V)%R ->
  (Rabs (SF2R (code_plus_half bits (F32.div v V))
         - (SF2R v / SF2R V * bpow (bits - 1) + bpow (bits - 1) + / 2))
   <= / 256)%R.
Proof.
  intros Hb VV FV PV Vv Fv Rv.
  destruct (div_bounded v V Vv Fv FV PV) as (Nq & Bq); [apply Rabs_le; lra|].
  set (q := F32.div v V) in *. set (r := (SF2R v / SF2R V)%R) in *.
  assert (Hr : (-1 <= r <= 1)%R).
  { unfold r. split.
    - apply Rmult_le_reg_r with (SF2R V); [lra|].
      unfold Rdiv. rewrite Rmult_assoc, Rinv_l by lra. lra.
    - apply Rmult_le_reg_r with (SF2R V); [lra|].
      unfold Rdiv. rewrite Rmult_assoc, Rinv_l by lra. lra. }
  pose proof (rounding_error r q 0 Nq ltac:(lia) ltac:(rewrite bpow_0; apply Rabs_le; lra)) as Eq.
  pose proof (pow2_bounded (bits - 1) ltac:(lia)) as BH.
  destruct (pow2_spec (bits - 1) ltac:(lia)) as (_ & _ & RH).
  destruct (mul_bounded 0 (bits - 1) q (pow2 (bits - 1)) Bq BH ltac:(lia))
    as (Np & Bp).
  set (p := F32.mul q (pow2 (bits - 1))) in *.
  rewrite RH in Np. rewrite Z.add_0_l in Bp.
  set (H := bpow (bits - 1)) in *.
  assert (HH : (1 <= H <= 8192)%R).
  { unfold H. split.
    - rewrite <- bpow_0. apply bpow_le. lia.
    - replace 8192%R with (bpow 13) by (rewrite bpow_IZR by lia; reflexivity).
      apply bpow_le. lia. }
  assert (Aq : (- 1 <= SF2R q <= 1)%R).
  { destruct Bq as (_ & _ & Bq). rewrite bpow_0 in Bq.
    apply Rabs_le_elim in Bq. exact Bq. }
  assert (Ep : (Rabs (SF2R p - SF2R q * H) <= bpow (bits - 1 - 24))%R).
  { apply rounding_error; [exact Np|lia|].
    rewrite Rabs_mult, (Rabs_pos_eq H) by lra.
    apply Rle_trans with (1 * H)%R; [|fold H; lra].
    apply Rmult_le_compat_r; [lra|].
    apply Rabs_le. lra. }
  destruct (add_bounded (bits - 1) p (pow2 (bits - 1)) Bp BH ltac:(lia))
    as (Ns & Bs).
  set (s := F32.add p (pow2 (bits - 1))) in *.
  rewrite RH in Ns. replace (bits - 1 + 1) with bits in Bs by lia.
  assert (Es : (Rabs (SF2R s - (SF2R p + H)) <= bpow (bits - 24))%R).
  { apply rounding_error; [exact Ns|lia|].
    destruct Bp as (_ & _ & Bp). fold H in Bp.
    replace bits with (bits - 1 + 1) at 1 by lia.
    rewrite <- bpow_double. fold H.
    apply Rabs_le_elim in Bp. apply Rabs_le. lra. }
  pose proof (bounded_weaken (-1) bits _ half_bounded ltac:(lia)) as Bh.
  destruct (add_bounded bits s F32.half Bs Bh ltac:(lia)) as (Nt & Bt).
  assert (Rh : SF2R F32.half = (/ 2)%R).
  { change F32.half with (pow2 (-1)).
    destruct (pow2_spec (-1) ltac:(lia)) as (_ & _ & ->). apply bpow_m1. }
  rewrite Rh in Nt.
  assert (Et : (Rabs (SF2R (F32.add s F32.half) - (SF2R s + / 2))
                <= bpow (bits + 1 - 24))%R).
  { apply rounding_error; [exact Nt|lia|].
    destruct Bs as (_ & _ & Bs).
    rewrite <- bpow_double.
    apply Rabs_le_elim in Bs. apply Rabs_le.
    assert (1 <= bpow bits)%R by (rewrite <- bpow_0; apply bpow_le; lia).
    lra. }
  unfold code_plus_half. fold q p s.
  assert (K1 : bpow (bits - 1 - 24) = (H * bpow (-24))%R).
  { unfold H. rewrite <- bpow_plus. f_equal. }
  assert (K2 : bpow (bits - 24) = (H * 2 * bpow (-24))%R).
  { unfold H. rewrite <- bpow_1, <- !bpow_plus. f_equal. lia. }
  assert (K3 : bpow (bits + 1 - 24) = (H * 4 * bpow (-24))%R).
  { unfold H. replace 4%R with (bpow 2) by (rewrite bpow_IZR by lia; reflexivity).
    rewrite <- !bpow_plus. f_equal. lia. }
  assert (K0 : bpow (0 - 24) = bpow (-24)) by reflexivity.
  assert (K : bpow (-24) = (/ 16777216)%R).
  { change (bpow (-24)) with (bpow (Z.opp 24)).
    rewrite bpow_opp, bpow_IZR by lia. reflexivity. }
  rewrite K0 in Eq. rewrite K1 in Ep. rewrite K2 in Es. rewrite K3 in Et.
  rewrite K in *.
  apply Rabs_le_elim in Eq, Ep, Es, Et.
  assert (Eq' : (- (/ 16777216 * H) <= SF2R q * H - r * H <= / 16777216 * H)%R).
  { replace (SF2R q * H - r * H)%R with ((SF2R q - r) * H)%R by ring.
    split.
    - replace (- (/ 16777216 * H))%R with ((- / 16777216) * H)%R by ring.
      apply Rmult_le_compat_r; lra.
    - apply Rmult_le_compat_r; lra. }
  apply Rabs_le. lra.
Qed.

(** X7.  Accuracy.  For a finite non-zero reference and a finite
    voltage, with [b = min(bits,14)], the code is the ideal code
    [v / |vref| * 2^(b-1) + 2^(b-1)] of the clamped voltage, capped at
    [2^b - 1] and rounded to the nearest integer: it is off by at most
    [1/2 + 1/256], the [1/256] covering the four binary32 roundings. *)
Theorem dacBipolarVoltageToCode_accuracy (bits : Z) (vref vout : spec_float) :
  0 < bits < 256 ->
  F32.valid vref = true -> is_finite vref = true ->
  F32.eqb vref F32.zero = false ->
  F32.valid vout = true -> is_finite vout = true ->
  exists code,
    dacBipolarVoltageToCode bits vref vout = Some code
    /\ (Rabs (IZR code
              - Rmin (ideal_code (Z.min bits 14) (Rabs (SF2R vref)) (SF2R vout))
                     (IZR (2 ^ Z.min bits 14 - 1)))
        <= / 2 + / 256)%R.
Proof.
  intros Hb Vr Fr Zr Vv Fv.
  destruct vref as [s|s| |s m e]; try discriminate Fr.
  { destruct s; discriminate Zr. }
  pose proof (finite_nonzero s m e) as NZ.
  rewrite dacBipolarVoltageToCode_normalized by (assumption || lia).
  destruct (magnitude_spec _ Vr Fr NZ) as (VV & FV & PV).
  rewrite <- (magnitude_value _ Vr Fr).
  set (V := magnitude (S754_finite s m e)) in *.
  set (b := Z.min bits 14). assert (Hb' : 0 < b <= 14) by (unfold b; lia).
  rewrite quantize_code_plus_half by exact Hb'.
  destruct (clamp_vout_finite V vout VV FV PV Vv Fv) as (Vc & Fc & Rc).
  assert (Nv : is_nan vout = false) by (destruct vout; try reflexivity; discriminate Fv).
  destruct (clamp_vout_spec V vout VV FV PV Vv Nv) as (_ & _ & Bc).
  pose proof (code_plus_half_error b V _ Hb' VV FV PV Vc Fc Bc) as Err.
  pose proof (clamped_quotient _ _ VV FV PV Vv Nv) as Q.
  apply (code_plus_half_bounded b) in Q; [|exact Hb'].
  destruct (to_int32_bounded _ Q) as (z & T & ->).
  cbn [obind]. eexists. split; [reflexivity|].
  rewrite clamp_code_spec by exact Hb'.
  unfold ideal_code. rewrite <- Rc.
  set (t := code_plus_half b (F32.div (clamp_vout V vout) V)) in *.
  set (r := (SF2R (clamp_vout V vout) / SF2R V)%R) in *.
  set (H := bpow (b - 1)) in *.
  assert (Hr : (-1 <= r <= 1)%R).
  { unfold r. split.
    - apply Rmult_le_reg_r with (SF2R V); [lra|].
      unfold Rdiv. rewrite Rmult_assoc, Rinv_l by lra. lra.
    - apply Rmult_le_reg_r with (SF2R V); [lra|].
      unfold Rdiv. rewrite Rmult_assoc, Rinv_l by lra. lra. }
  assert (HH : (1 <= H)%R).
  { unfold H. rewrite <- bpow_0. apply bpow_le. lia. }
  assert (HM : IZR (2 ^ b) = (2 * H)%R).
  { rewrite <- bpow_IZR by lia. unfold H. rewrite <- bpow_1, <- bpow_plus.
    f_equal. lia. }
  assert (I0 : (0 <= r * H + H <= 2 * H)%R).
  { replace (r * H + H)%R with ((r + 1) * H)%R by ring.
    split; [apply Rmult_le_pos; lra|].
    apply Rmult_le_compat_r; lra. }
  set (ideal := (r * H + H)%R) in *.
  apply Rabs_le_elim in Err.
  destruct (truncate_spec t (proj1 (proj2 Q))) as (z' & T' & Pos & _).
  rewrite T in T'. injection T' as <-.
  destruct Pos as [Fl Z0]; [lra|].
  rewrite minus_IZR, HM. change (IZR 1) with 1%R.
  set (M := 2 ^ b) in *.
  destruct (Z_lt_le_dec z M) as [C|C].
  - replace (Z.min (Z.max z 0) (M - 1)) with z by lia.
    assert (IZR z <= IZR M - 1)%R
      by (rewrite <- (minus_IZR M 1); apply IZR_le; lia).
    rewrite HM in *.
    unfold Rmin. destruct (Rle_dec _ _); apply Rabs_le; lra.
  - replace (Z.min (Z.max z 0) (M - 1)) with (M - 1) by lia.
    apply IZR_le in C. rewrite HM in C.
    rewrite minus_IZR, HM. change (IZR 1) with 1%R.
    unfold Rmin. destruct (Rle_dec _ _); apply Rabs_le; lra.
Qed.

Lemma dacBipolarVoltageToCode_accuracy_witness :
  exists code,
    dacBipolarVoltageToCode 14 (REF_VOLT AVR8) outputThisVoltage_init
    = Some code
    /\ (Rabs (IZR code
              - Rmin (ideal_code (Z.min 14 14) (Rabs (SF2R (REF_VOLT AVR8)))
                        (SF2R outputThisVoltage_init))
                     (IZR (2 ^ Z.min 14 14 - 1)))
        <= / 2 + / 256)%R.
Proof.
  apply (dacBipolarVoltageToCode_accuracy 14 (REF_VOLT AVR8)
           outputThisVoltage_init); try reflexivity. lia.
Defined.

(** ** A table of any size *)

Lemma of_Z_uint16 (bits : Z) :
  0 <= bits < 65536 ->
  bounded_by 16 (F32.of_Z bits) /\ (0 <= SF2R (F32.of_Z bits) <= 65535)%R.
Proof.
  intros Hb.
  assert (I : (0 <= IZR bits <= 65535)%R)
    by (split; apply IZR_le; lia).
  assert (P16 : bpow 16 = 65536%R) by (rewrite bpow_IZR by lia; reflexivity).
  assert (N : nearest (IZR bits) (F32.of_Z bits)).
  { replace (IZR bits) with (F2R bits 0)
      by (unfold F2R; rewrite bpow_0; ring).
    apply binary_normalize_nearest.
    unfold F2R. rewrite bpow_0, Rmult_1_r, Rabs_pos_eq by lra.
    pose proof (bpow_lt 16 100 ltac:(lia)). lra. }
  split.
  - apply (nearest_bounded (IZR bits)); [exact N|lia|].
    rewrite Rabs_pos_eq; lra.
  - split.
    + apply (nearest_ge (IZR bits) _ F32.zero N); try reflexivity.
      cbn [SF2R F32.zero]. lra.
    + destruct (representable 65535 0 ltac:(lia) ltac:(lia)) as (g & Vg & Fg & Rg).
      unfold F2R in Rg. rewrite bpow_0, Rmult_1_r in Rg.
      rewrite <- Rg. apply (nearest_le (IZR bits) _ g N Vg Fg). lra.
Qed.

Lemma half_value : SF2R F32.half = (/ 2)%R.
Proof.
  change F32.half with (pow2 (-1)).
  destruct (pow2_spec (-1) ltac:(lia)) as (_ & _ & ->). apply bpow_m1.
Qed.

(** [amp * (float)bits + 0.5f] converts to [uint16_t] for every [bits],
    when [sinf] returned a number between -1 and 1. *)
Lemma lut_code_total (bits : Z) (s : spec_float) :
  0 <= bits < 65536 -> sinf_in_range s ->
  exists code,
    F32.to_uint16
      (F32.add (F32.mul (F32.add (F32.mul s F32.half) F32.half)
                  (F32.of_Z bits)) F32.half) = Some code
    /\ 0 <= code < 65536.
Proof.
  intros Hb Hs. apply sinf_in_range_bounded in Hs.
  pose proof half_value as Rh.
  destruct (mul_bounded 0 (-1) s F32.half Hs half_bounded ltac:(lia))
    as (_ & B1).
  cbn [Z.add] in B1.
  set (a1 := F32.mul s F32.half) in *.
  destruct (add_bounded (-1) a1 F32.half B1 half_bounded ltac:(lia))
    as (Na & Ba).
  change (-1 + 1) with 0 in Ba. rewrite Rh in Na.
  set (a := F32.add a1 F32.half) in *.
  assert (Ra : (0 <= SF2R a <= 1)%R).
  { split.
    - apply (nearest_ge _ _ F32.zero Na); try reflexivity.
      destruct B1 as (_ & _ & B1). rewrite bpow_m1 in B1.
      apply Rabs_le_elim in B1. cbn [SF2R F32.zero]. lra.
    - destruct Ba as (_ & _ & Ba). rewrite bpow_0 in Ba.
      apply Rabs_le_elim in Ba. lra. }
  destruct (of_Z_uint16 bits Hb) as (BB & RB).
  set (B := F32.of_Z bits) in *.
  destruct (mul_bounded 0 16 a B Ba BB ltac:(lia)) as (Nm & Bm).
  cbn [Z.add] in Bm.
  set (m := F32.mul a B) in *.
  destruct (representable 65535 0 ltac:(lia) ltac:(lia)) as (g & Vg & Fg & Rg).
  unfold F2R in Rg. rewrite bpow_0, Rmult_1_r in Rg.
  assert (Rm : (0 <= SF2R m <= 65535)%R).
  { split.
    - apply (nearest_ge _ _ F32.zero Nm); try reflexivity.
      cbn [SF2R F32.zero]. apply Rmult_le_pos; lra.
    - rewrite <- Rg. apply (nearest_le _ _ g Nm Vg Fg). rewrite Rg.
      apply Rle_trans with (1 * SF2R B)%R; [|lra].
      apply Rmult_le_compat_r; lra. }
  destruct (add_bounded 16 m F32.half Bm
              (bounded_weaken _ 16 _ half_bounded ltac:(lia)) ltac:(lia))
    as (Nt & Bt).
  rewrite Rh in Nt.
  set (t := F32.add m F32.half) in *.
  destruct (representable 131071 (-1) ltac:(lia) ltac:(lia))
    as (g' & Vg' & Fg' & Rg').
  unfold F2R in Rg'. rewrite bpow_m1 in Rg'.
  assert (Rt : (0 <= SF2R t <= 65535 + / 2)%R).
  { split.
    - apply (nearest_ge _ _ F32.zero Nt); try reflexivity.
      cbn [SF2R F32.zero]. lra.
    - replace (65535 + / 2)%R with (SF2R g') by (rewrite Rg'; lra).
      apply (nearest_le _ _ g' Nt Vg' Fg'). rewrite Rg'. lra. }
  destruct (truncate_spec t (proj1 (proj2 Bt))) as (z & T & Pos & _).
  destruct Pos as [Fl Z0]; [lra|].
  assert (z < 65536) by (apply lt_IZR; lra).
  exists z. split; [|lia].
  unfold F32.to_uint16, float_to_int. rewrite T.
  replace (0 <=? z) with true by (symmetry; apply Z.leb_le; lia).
  replace (z <=? 2 ^ 16 - 1) with true
    by (symmetry; apply Z.leb_le; change (2 ^ 16) with 65536; lia).
  reflexivity.
Qed.

Lemma store_out_of_range (l : list Z) : forall (i : nat) (v : Z),
  (length l <= i)%nat -> store l i v = None.
Proof.
  induction l as [|x l IH]; intros i v Hi; [reflexivity|].
  cbn [length] in Hi. destruct i as [|i]; [lia|].
  cbn [store]. now rewrite IH by lia.
Qed.

Section TableOfAnySize.

Variable b : board.
Variable sinf : spec_float -> spec_float.
Variables tableSize bits : Z.

Hypothesis bits_uint16 : 0 <= bits < 65536.
Hypothesis tableSize_uint16 : 0 <= tableSize < 65536.

(** [k] rounds of the loop of [buildLUT], while the counter stays
    inside the table and below [tableSize]. *)
Lemma buildLUT_loop_steps : forall (k fuel : nat) (i : Z) (g : globals),
  0 <= i -> i + Z.of_nat k <= tableSize ->
  i + Z.of_nat k <= Z.of_nat (length (sineLUT g)) ->
  (forall j, i <= j < i + Z.of_nat k ->
     sinf_in_range (sinf (theta b tableSize j))) ->
  exists tbl,
    buildLUT_loop b sinf (k + fuel) tableSize bits i g
    = buildLUT_loop b sinf fuel tableSize bits (i + Z.of_nat k)
        {| sineLUT := tbl; tableCounter := tableCounter g |}
    /\ length tbl = length (sineLUT g)
    /\ (forall j, i <= j < i + Z.of_nat k ->
          exists code,
            lut_code bits (amp sinf (theta b tableSize j)) = Some code
            /\ nth (Z.to_nat j) tbl 0 = Z.land code 16383)
    /\ (forall j, 0 <= j < i \/ i + Z.of_nat k <= j ->
          nth (Z.to_nat j) tbl 0 = nth (Z.to_nat j) (sineLUT g) 0).
Proof.
  induction k as [|k IH]; intros fuel i g Hi Hk Hl Hs.
  - exists (sineLUT g). cbn [Nat.add]. rewrite Z.add_0_r.
    split; [destruct g; reflexivity|]. split; [reflexivity|].
    split; [intros j Hj; lia|reflexivity].
  - cbn [Nat.add buildLUT_loop].
    replace (i <? tableSize) with true by (symmetry; apply Z.ltb_lt; lia).
    destruct (lut_code_total bits _ bits_uint16 (Hs i ltac:(lia)))
      as (c & Ec & Rc).
    assert (Ec' : lut_code bits (amp sinf (theta b tableSize i)) = Some c)
      by exact Ec.
    rewrite Ec'. cbn [lift]. rewrite bind_ret.
    destruct (write_sineLUT_run i (Z.land c 16383) g Hi ltac:(lia))
      as (l' & W & Len & Ni & Nj).
    erewrite bind_returned by exact W.
    rewrite (to_uint16_small (i + 1)) by lia.
    destruct (IH fuel (i + 1) {| sineLUT := l'; tableCounter := tableCounter g |}
                ltac:(lia) ltac:(lia) ltac:(cbn [sineLUT]; rewrite Len; lia)
                ltac:(intros j Hj; apply Hs; lia))
      as (tbl & E & Lt & Hn & Ho).
    rewrite E. cbn [sineLUT tableCounter app] in *.
    replace (i + 1 + Z.of_nat k) with (i + Z.of_nat (S k)) by lia.
    exists tbl. split.
    { symmetry. apply surjective_pairing. }
    split; [congruence|]. split.
    + intros j Hj. destruct (Z.eq_dec j i) as [->|Nji].
      * exists c. split; [exact Ec'|]. rewrite Ho by lia. exact Ni.
      * apply Hn. lia.
    + intros j Hj. rewrite Ho by lia. apply Nj. lia.
Qed.

End TableOfAnySize.

Lemma sinf_in_rangeb_spec (s : spec_float) :
  sinf_in_rangeb s = true -> sinf_in_range s.
Proof.
  unfold sinf_in_rangeb, sinf_in_range. intros H.
  apply andb_prop in H as [H H3]. apply andb_prop in H as [H1 H2].
  now repeat split.
Qed.

Lemma sinf_series_in_range_upto (tableSize : Z) (n : nat) (j : Z) :
  forallb (fun i => sinf_in_rangeb (sinf_series (theta AVR8 tableSize i)))
    (count_from 0 n) = true ->
  0 <= j < Z.of_nat n ->
  sinf_in_range (sinf_series (theta AVR8 tableSize j)).
Proof.
  intros H Hj. apply sinf_in_rangeb_spec.
  rewrite forallb_forall in H. apply H.
  apply nth_error_In with (Z.to_nat j).
  rewrite count_from_nth by lia. f_equal. lia.
Qed.

(** X8.  [buildLUT] for any table size up to [TABLE_SIZE] and any
    [uint16_t] scale: when [sinf] returns numbers between -1 and 1, it
    returns without an event, leaves the cursor alone, writes exactly the
    first [tableSize] entries, each the converted sample masked to 14
    bits, and leaves the other entries as they were. *)
Theorem buildLUT_fills (b : board) (sinf : spec_float -> spec_float)
        (fuel : nat) (tableSize bits : Z) (g : globals) :
  0 <= bits < 65536 -> 0 <= tableSize <= TABLE_SIZE ->
  length (sineLUT g) = Z.to_nat TABLE_SIZE ->
  (Z.to_nat tableSize < fuel)%nat ->
  (forall j, 0 <= j < tableSize -> sinf_in_range (sinf (theta b tableSize j))) ->
  exists tbl,
    buildLUT b sinf fuel tableSize bits g
    = ([], Returned tt {| sineLUT := tbl; tableCounter := tableCounter g |})
    /\ length tbl = Z.to_nat TABLE_SIZE
    /\ (forall j, 0 <= j < tableSize ->
          exists code,
            lut_code bits (amp sinf (theta b tableSize j)) = Some code
            /\ nth (Z.to_nat j) tbl 0 = Z.land code 16383
            /\ 0 <= nth (Z.to_nat j) tbl 0 <= 16383)
    /\ (forall j, tableSize <= j ->
          nth (Z.to_nat j) tbl 0 = nth (Z.to_nat j) (sineLUT g) 0).
Proof.
  intros Hb Ht Hl Hf Hs. unfold TABLE_SIZE in *.
  destruct (buildLUT_loop_steps b sinf tableSize bits Hb ltac:(lia)
              (Z.to_nat tableSize) (fuel - Z.to_nat tableSize) 0 g
              ltac:(lia) ltac:(lia) ltac:(lia)
              ltac:(intros j Hj; apply Hs; lia))
    as (tbl & E & Len & Hn & Ho).
  exists tbl. unfold buildLUT.
  replace fuel with (Z.to_nat tableSize + (fuel - Z.to_nat tableSize))%nat
    at 1 by lia.
  rewrite E.
  destruct (fuel - Z.to_nat tableSize)%nat as [|fuel'] eqn:F; [lia|].
  cbn [buildLUT_loop].
  replace (0 + Z.of_nat (Z.to_nat tableSize) <? tableSize) with false
    by (symmetry; apply Z.ltb_ge; lia).
  split; [reflexivity|]. split; [congruence|]. split.
  - intros j Hj. destruct (Hn j ltac:(lia)) as (c & Ec & Nc).
    exists c. split; [exact Ec|]. split; [exact Nc|].
    rewrite Nc.
    assert (0 <= c).
    { unfold lut_code, F32.to_uint16, float_to_int in Ec.
      destruct (truncate _) as [z|]; [|discriminate].
      destruct (Z.leb_spec 0 z); cbn [andb] in Ec; [|discriminate].
      destruct (z <=? 2 ^ 16 - 1); [|discriminate]. injection Ec as <-. lia. }
    pose proof (land_16383_range c ltac:(lia)) as R.
    change (2 ^ 14 - 1) with 16383 in R. exact R.
  - intros j Hj. apply Ho. lia.
Qed.

Lemma buildLUT_fills_witness :
  exists tbl,
    buildLUT AVR8 sinf_series 9 8 65535 globals_init
    = ([], Returned tt {| sineLUT := tbl;
                          tableCounter := tableCounter globals_init |})
    /\ length tbl = Z.to_nat TABLE_SIZE
    /\ (forall j, 0 <= j < 8 ->
          exists code,
            lut_code 65535 (amp sinf_series (theta AVR8 8 j)) = Some code
            /\ nth (Z.to_nat j) tbl 0 = Z.land code 16383
            /\ 0 <= nth (Z.to_nat j) tbl 0 <= 16383)
    /\ (forall j, 8 <= j ->
          nth (Z.to_nat j) tbl 0 = nth (Z.to_nat j) (sineLUT globals_init) 0).
Proof.
  apply (buildLUT_fills AVR8 sinf_series 9 8 65535 globals_init).
  - lia.
  - unfold TABLE_SIZE. lia.
  - reflexivity.
  - cbn. lia.
  - intros j Hj. apply (sinf_series_in_range_upto 8 8); [vm_compute; reflexivity|lia].
Defined.

(** X9.  [buildLUT] with a table size above [TABLE_SIZE] writes
    [sineLUT[TABLE_SIZE]], past the end of the array: undefined
    behaviour, reached after the 16 entries were filled. *)
Theorem buildLUT_overflow (b : board) (sinf : spec_float -> spec_float)
        (fuel : nat) (tableSize bits : Z) (g : globals) :
  0 <= bits < 65536 -> TABLE_SIZE < tableSize < 65536 ->
  length (sineLUT g) = Z.to_nat TABLE_SIZE ->
  (Z.to_nat TABLE_SIZE < fuel)%nat ->
  (forall j, 0 <= j <= TABLE_SIZE -> sinf_in_range (sinf (theta b tableSize j))) ->
  buildLUT b sinf fuel tableSize bits g = ([], Undefined).
Proof.
  intros Hb Ht Hl Hf Hs. unfold TABLE_SIZE in *.
  destruct (buildLUT_loop_steps b sinf tableSize bits Hb ltac:(lia)
              16 (fuel - 16) 0 g
              ltac:(lia) ltac:(lia) ltac:(lia)
              ltac:(intros j Hj; apply Hs; lia))
    as (tbl & E & Len & _).
  unfold buildLUT.
  replace fuel with (16 + (fuel - 16))%nat at 1 by lia.
  rewrite E.
  destruct (fuel - 16)%nat as [|fuel'] eqn:F; [lia|].
  cbn [buildLUT_loop].
  replace (0 + Z.of_nat 16 <? tableSize) with true
    by (symmetry; apply Z.ltb_lt; lia).
  destruct (lut_code_total bits _ Hb (Hs 16 ltac:(lia))) as (c & Ec & _).
  assert (Ec' : lut_code bits (amp sinf (theta b tableSize (0 + Z.of_nat 16)))
                = Some c) by exact Ec.
  rewrite Ec'. cbn [lift]. rewrite bind_ret.
  unfold write_sineLUT.
  cbv beta iota delta [bind get lift put ret undefined sineLUT].
  rewrite store_out_of_range; [reflexivity|].
  rewrite Len, Hl. cbn. lia.
Qed.

Lemma buildLUT_overflow_witness :
  buildLUT AVR8 sinf_series 18 17 DAC_14_BIT globals_init
  = ([], Undefined).
Proof.
  apply (buildLUT_overflow AVR8 sinf_series 18 17 DAC_14_BIT globals_init).
  - unfold DAC_14_BIT. lia.
  - unfold TABLE_SIZE. lia.
  - reflexivity.
  - cbn. lia.
  - unfold TABLE_SIZE. intros j Hj.
    apply (sinf_series_in_range_upto 17 17); [vm_compute; reflexivity|lia].
Defined.

Lemma land_16383_small (c : Z) : 0 <= c <= 16383 -> Z.land c 16383 = c.
Proof.
  intros H. change 16383 with (Z.ones 14).
  rewrite Z.land_ones by lia. apply Z.mod_small.
  change (2 ^ 14) with 16384. lia.
Qed.

(** X10.  The table entry is monotone in the value of [sinf]: a
    larger sample, between -1 and 1, never gets a smaller code. *)
Theorem lut_entry_monotone (s1 s2 : spec_float) :
  sinf_in_range s1 -> sinf_in_range s2 -> F32.leb s1 s2 = true ->
  lut_entry s1 <= lut_entry s2.
Proof.
  intros H1 H2 L.
  pose proof (sinf_in_range_bounded s1 H1) as B1.
  pose proof (sinf_in_range_bounded s2 H2) as B2.
  assert (R : (SF2R s1 <= SF2R s2)%R).
  { apply SFleb_spec; try assumption; [apply B1|apply B2|apply B1|apply B2]. }
  pose proof (lut_pre_mono s1 s2 B1 B2 R) as M.
  pose proof (lut_pre_bounded s1 B1) as P1.
  pose proof (lut_pre_bounded s2 B2) as P2.
  destruct (lut_code_defined s1 H1) as (z1 & E1 & R1).
  destruct (lut_code_defined s2 H2) as (z2 & E2 & R2).
  unfold lut_entry. rewrite E1, E2.
  rewrite !land_16383_small by lia.
  unfold F32.to_uint16, float_to_int in E1, E2.
  destruct (truncate (lut_pre s1)) as [t1|] eqn:T1; [|discriminate].
  destruct (truncate (lut_pre s2)) as [t2|] eqn:T2; [|discriminate].
  destruct ((0 <=? t1) && (t1 <=? 2 ^ 16 - 1)); [|discriminate].
  destruct ((0 <=? t2) && (t2 <=? 2 ^ 16 - 1)); [|discriminate].
  injection E1 as <-. injection E2 as <-.
  apply (truncate_mono _ _ t1 t2 (proj1 (proj2 P1)) (proj1 (proj2 P2)) T1 T2 M).
Qed.

Lemma lut_entry_monotone_witness :
  lut_entry (F32.neg F32.half) <= lut_entry F32.half.
Proof.
  apply (lut_entry_monotone (F32.neg F32.half) F32.half);
    repeat split; reflexivity.
Defined.

(** ** Framing *)

Lemma frames_app (ws ws' : list Z) : frames (ws ++ ws') = frames ws ++ frames ws'.
Proof. apply flat_map_app. Qed.

Lemma framed_ret {A} (a : A) : framed (ret a).
Proof.
  intros g Hg. split; [now exists []|]. split; [discriminate|].
  intros a' g' [= _ <-]. exact Hg.
Qed.

Lemma framed_out_of_fuel {A} : framed (@out_of_fuel A).
Proof.
  intros g Hg. split; [now exists []|]. split; discriminate.
Qed.

Lemma framed_bind {A B} (m : M A) (k : A -> M B) :
  framed m -> (forall a, framed (k a)) -> framed (bind m k).
Proof.
  intros Hm Hk g Hg. destruct (Hm g Hg) as ((ws & T) & U & R).
  unfold bind, trace_of, outcome_of in *.
  destruct (m g) as [t [a g1| |]]; cbn [fst snd] in *.
  - destruct (Hk a g1 (R a g1 eq_refl)) as ((ws' & T') & U' & R').
    unfold trace_of, outcome_of in *.
    destruct (k a g1) as [t' o']; cbn [fst snd] in *.
    split; [exists (ws ++ ws'); now rewrite frames_app, T, T'|].
    split; assumption.
  - split; [now exists ws|]. split; discriminate.
  - contradiction.
Qed.

Lemma framed_frame {A} (w : Z) (k : M A) :
  framed k ->
  framed (digitalWrite LOW ;;; SPI_transfer16 w ;;; digitalWrite HIGH ;;; k).
Proof.
  intros Hk g Hg. destruct (Hk g Hg) as ((ws & T) & U & R).
  unfold digitalWrite, SPI_transfer16. rewrite !bind_emit.
  cbn [trace_of outcome_of fst snd]. fold (trace_of (k g)) (outcome_of (k g)).
  split; [exists (to_uint16 w :: ws); now rewrite T|].
  split; assumption.
Qed.

Lemma framed_when (c : bool) (m : M unit) : framed m -> framed (when c m).
Proof. destruct c; [trivial|intros _; apply framed_ret]. Qed.

Lemma framed_fullRangeTest_up (b : board) (bits : Z) (fuel : nat) : forall j,
  framed (fullRangeTest_up b fuel bits j).
Proof.
  induction fuel as [|fuel IH]; intros j; cbn [fullRangeTest_up].
  - apply framed_out_of_fuel.
  - destruct (j <? promoted b (bits + 1)); [|apply framed_ret].
    apply framed_frame, IH.
Qed.

Lemma framed_fullRangeTest_down (b : board) (bits : Z) (fuel : nat) : forall j,
  framed (fullRangeTest_down b fuel bits j).
Proof.
  induction fuel as [|fuel IH]; intros j; cbn [fullRangeTest_down].
  - apply framed_out_of_fuel.
  - destruct (j <? promoted b (bits + 1)); [|apply framed_ret].
    apply framed_frame, IH.
Qed.

Lemma framed_quickChangeTest_loop (bits : Z) (fuel : nat) : forall val,
  framed (quickChangeTest_loop fuel bits val).
Proof.
  induction fuel as [|fuel IH]; intros val; cbn [quickChangeTest_loop].
  - apply framed_out_of_fuel.
  - intros g Hg.
    destruct (IH (negb val) g Hg) as ((ws & T) & U & R).
    unfold digitalWrite. rewrite bind_emit.
    assert (E : (if val
                 then SPI_transfer16 bits ;;; ret false
                 else SPI_transfer16 0 ;;; ret true) g
                = ([Transfer16 (to_uint16 (if val then bits else 0))],
                   Returned (negb val) g)).
    { destruct val; unfold SPI_transfer16; rewrite bind_emit; reflexivity. }
    erewrite bind_returned by exact E.
    rewrite bind_emit.
    cbn [trace_of outcome_of fst snd app].
    fold (trace_of (quickChangeTest_loop fuel bits (negb val) g))
         (outcome_of (quickChangeTest_loop fuel bits (negb val) g)).
    split; [exists (to_uint16 (if val then bits else 0) :: ws); now rewrite T|].
    split; assumption.
Qed.

Lemma sine_step_run (g : globals) :
  table_ok g ->
  sine_step g
  = (frame (sample (sineLUT g) (tableCounter g) 0),
     Returned tt (with_tableCounter g ((tableCounter g + 1) mod TABLE_SIZE))).
Proof.
  intros [Hlen Hc]. unfold TABLE_SIZE in *. unfold sine_step.
  assert (Hn : nth_error (sineLUT g) (Z.to_nat (tableCounter g))
               = Some (nth (Z.to_nat (tableCounter g)) (sineLUT g) 0)).
  { apply nth_error_nth'. lia. }
  cbv beta iota delta [bind digitalWrite emit get read_sineLUT SPI_transfer16
    put ret lift].
  rewrite Hn.
  cbv beta iota delta [bind emit put ret lift app].
  unfold frame, sample, with_tableCounter, TABLE_SIZE.
  rewrite Z.add_0_r, (Z.mod_small (tableCounter g)) by lia.
  do 3 f_equal. f_equal.
  rewrite to_uint16_small by lia.
  destruct (Z.geb_spec (tableCounter g + 1) 16) as [H|H].
  - replace (tableCounter g + 1) with 16 by lia. reflexivity.
  - now rewrite Z.mod_small by lia.
Qed.

Lemma framed_sine_step : framed sine_step.
Proof.
  intros g Hg. rewrite (sine_step_run g Hg).
  cbn [trace_of outcome_of fst snd].
  split; [exists [sample (sineLUT g) (tableCounter g) 0]; reflexivity|].
  split; [discriminate|].
  intros a g' [= _ <-]. destruct Hg as [Hl Hc].
  split; [exact Hl|]. cbn [with_tableCounter tableCounter].
  apply Z.mod_pos_bound. reflexivity.
Qed.

Lemma loop_parts (b : board) (cfg : config) (fuel : nat) :
  loop b cfg fuel
  = (when (MODE_OUTPUT_SINE_WAVE cfg) sine_step ;;;
     when (MODE_OUTPUT_FULL_RANGE cfg) (fullRangeTest b fuel true DAC_14_BIT) ;;;
     when (MODE_OUTPUT_QUICK_CHANGE cfg) (quickChangeTest fuel DAC_14_BIT)).
Proof. reflexivity. Qed.

Lemma framed_loop (b : board) (cfg : config) (fuel : nat) :
  framed (loop b cfg fuel).
Proof.
  rewrite loop_parts.
  apply framed_bind; [apply framed_when, framed_sine_step|intros _].
  apply framed_bind;
    [apply framed_when, framed_fullRangeTest_up|intros _].
  apply framed_when, framed_quickChangeTest_loop.
Qed.

Lemma framed_drive (b : board) (cfg : config) (fuel n : nat) :
  framed (drive b cfg fuel n).
Proof.
  induction n as [|n IH]; cbn [drive]; [apply framed_ret|].
  apply framed_bind; [apply framed_loop|intros _; exact IH].
Qed.

Lemma bind_running {A B} (m : M A) (k : A -> M B) g t :
  m g = (t, Running) -> bind m k g = (t, Running).
Proof. intros E. unfold bind. now rewrite E. Qed.

Lemma bind_undefined {A B} (m : M A) (k : A -> M B) g t :
  m g = (t, Undefined) -> bind m k g = (t, Undefined).
Proof. intros E. unfold bind. now rewrite E. Qed.

Lemma store_length (l : list Z) : forall i v l',
  store l i v = Some l' -> length l' = length l.
Proof.
  induction l as [|x l IH]; intros i v l' E; [discriminate E|].
  destruct i as [|i]; cbn [store] in E.
  - now injection E as <-.
  - destruct (store l i v) as [l''|] eqn:E'; [|discriminate E].
    cbn [obind] in E. injection E as <-. cbn [length]. f_equal.
    eapply IH; eassumption.
Qed.

(** [buildLUT] emits nothing, and changes neither the size of the table
    nor the cursor, whatever [sinf] returns. *)
Lemma buildLUT_loop_silent (b : board) (sinf : spec_float -> spec_float)
      (tableSize bits : Z) (fuel : nat) : forall (i : Z) (g : globals),
  trace_of (buildLUT_loop b sinf fuel tableSize bits i g) = []
  /\ forall a g',
       outcome_of (buildLUT_loop b sinf fuel tableSize bits i g) = Returned a g' ->
       length (sineLUT g') = length (sineLUT g)
       /\ tableCounter g' = tableCounter g.
Proof.
  induction fuel as [|fuel IH]; intros i g; cbn [buildLUT_loop].
  - split; [reflexivity|discriminate].
  - destruct (i <? tableSize).
    + destruct (lut_code bits (amp sinf (theta b tableSize i))) as [c|];
        cbn [lift].
      * rewrite bind_ret. unfold write_sineLUT.
        cbv beta iota delta [bind get lift put ret undefined].
        destruct (store (sineLUT g) (Z.to_nat i) (Z.land c 16383)) as [l|] eqn:E.
        -- destruct (IH (to_uint16 (i + 1))
                       {| sineLUT := l; tableCounter := tableCounter g |})
             as (T & R).
           unfold trace_of, outcome_of in *.
           destruct (buildLUT_loop b sinf fuel tableSize bits _ _) as [t o].
           cbn [fst snd app sineLUT tableCounter] in *.
           split; [exact T|]. intros a g' Ho.
           destruct (R a g' Ho) as [L C]. split; [|exact C].
           rewrite L. eapply store_length; eassumption.
        -- split; [reflexivity|discriminate].
      * split; [reflexivity|discriminate].
    + split; [reflexivity|]. intros a g' [= _ <-]. split; reflexivity.
Qed.

Lemma table_ok_init : table_ok globals_init.
Proof. split; [apply repeat_length|]. cbn. unfold TABLE_SIZE. lia. Qed.

(** How [setup()] ends, from the zero-initialised globals: inside
    [buildLUT], at the conversion of the voltage, or by returning. *)
Lemma setup_run (b : board) (sinf : spec_float -> spec_float) (cfg : config)
      (fuel : nat) :
  (trace_of (setup b sinf cfg fuel globals_init)
   = [PinModeOutput; DigitalWrite HIGH]
   /\ MODE_OUTPUT_SINE_WAVE cfg = true
   /\ forall a g', outcome_of (setup b sinf cfg fuel globals_init)
                   <> Returned a g')
  \/ (setup b sinf cfg fuel globals_init = (bus_setup, Undefined)
      /\ MODE_OUTPUT_SINGLE_VALUE cfg = true
      /\ call_dacBipolarVoltageToCode DAC_14_BIT (REF_VOLT b)
           (outputThisVoltage cfg) = None)
  \/ (exists ws g',
        setup b sinf cfg fuel globals_init
        = (bus_setup ++ frames ws, Returned tt g')
        /\ table_ok g').
Proof.
  unfold setup, pinMode_OUTPUT, digitalWrite, SPI_begin, SPI_beginTransaction.
  rewrite !bind_emit.
  assert (B : exists o,
            when (MODE_OUTPUT_SINE_WAVE cfg)
              (buildLUT b sinf fuel TABLE_SIZE DAC_14_BIT) globals_init = ([], o)
            /\ ((exists g', o = Returned tt g' /\ table_ok g')
                \/ (MODE_OUTPUT_SINE_WAVE cfg = true
                    /\ forall a g', o <> Returned a g'))).
  { destruct (MODE_OUTPUT_SINE_WAVE cfg); cbn [when].
    - destruct (buildLUT_loop_silent b sinf TABLE_SIZE DAC_14_BIT fuel 0
                  globals_init) as (T & R).
      unfold buildLUT, trace_of, outcome_of in *.
      destruct (buildLUT_loop _ _ _ _ _ _ _) as [t o]. cbn [fst snd] in *.
      subst t. exists o. split; [reflexivity|].
      destruct o as [[] g'| |].
      + left. exists g'. split; [reflexivity|].
        destruct (R tt g' eq_refl) as [L C].
        destruct table_ok_init as [L0 C0].
        split; [congruence|]. rewrite C. exact C0.
      + right. split; [reflexivity|discriminate].
      + right. split; [reflexivity|discriminate].
    - exists (Returned tt globals_init). split; [reflexivity|].
      left. exists globals_init. split; [reflexivity|apply table_ok_init]. }
  destruct B as (o & E & [(g' & -> & Hg')|[S N]]).
  - erewrite bind_returned by exact E. rewrite !bind_emit.
    cbn [trace_of outcome_of fst snd app].
    destruct (MODE_OUTPUT_SINGLE_VALUE cfg); cbn [when].
    + destruct (call_dacBipolarVoltageToCode DAC_14_BIT (REF_VOLT b)
                  (outputThisVoltage cfg)) as [c|]; cbn [lift].
      * right; right. exists [to_uint16 c], g'.
        rewrite bind_ret. unfold digitalWrite, SPI_transfer16, emit, bind.
        cbn. split; [reflexivity|exact Hg'].
      * right; left. repeat split.
    + right; right. exists [], g'. split; [reflexivity|exact Hg'].
  - left.
    destruct o as [a g'| |]; [now destruct (N a g')| |];
      [erewrite bind_running by exact E|erewrite bind_undefined by exact E];
      cbn [trace_of outcome_of fst snd];
      (split; [reflexivity|]; split; [exact S|]; intros a g'; discriminate).
Qed.

(** ** The modes, end to end *)

(** X11.  One round of [loop()] for every combination of the mode
    switches: the sine sample (if enabled), then one ascending ramp (if
    enabled), then the toggle (if enabled); the round returns exactly
    when the toggle is off, and only the sine part moves the cursor. *)
Theorem loop_modes (b : board) (cfg : config) (fuel : nat) (g : globals) :
  table_ok g -> (Z.to_nat DAC_14_BIT + 1 < fuel)%nat ->
  loop b cfg fuel g
  = ((if MODE_OUTPUT_SINE_WAVE cfg
      then frame (sample (sineLUT g) (tableCounter g) 0) else [])
     ++ (if MODE_OUTPUT_FULL_RANGE cfg
         then frames (ramp_up DAC_14_BIT) else [])
     ++ (if MODE_OUTPUT_QUICK_CHANGE cfg
         then frames (toggle fuel DAC_14_BIT false) else []),
     if MODE_OUTPUT_QUICK_CHANGE cfg then Running
     else Returned tt
            (if MODE_OUTPUT_SINE_WAVE cfg
             then with_tableCounter g ((tableCounter g + 1) mod TABLE_SIZE)
             else g)).
Proof.
  intros Hg Hf. rewrite loop_parts.
  set (g1 := if MODE_OUTPUT_SINE_WAVE cfg
             then with_tableCounter g ((tableCounter g + 1) mod TABLE_SIZE)
             else g).
  assert (E1 : when (MODE_OUTPUT_SINE_WAVE cfg) sine_step g
               = (if MODE_OUTPUT_SINE_WAVE cfg
                  then frame (sample (sineLUT g) (tableCounter g) 0) else [],
                  Returned tt g1)).
  { unfold g1. destruct (MODE_OUTPUT_SINE_WAVE cfg); cbn [when];
      [now apply sine_step_run|reflexivity]. }
  assert (E2 : when (MODE_OUTPUT_FULL_RANGE cfg)
                 (fullRangeTest b fuel true DAC_14_BIT) g1
               = (if MODE_OUTPUT_FULL_RANGE cfg
                  then frames (ramp_up DAC_14_BIT) else [],
                  Returned tt g1)).
  { destruct (MODE_OUTPUT_FULL_RANGE cfg); cbn [when]; [|reflexivity].
    unfold fullRangeTest, ramp_up.
    apply fullRangeTest_up_run; unfold DAC_14_BIT in *; lia. }
  assert (E3 : when (MODE_OUTPUT_QUICK_CHANGE cfg)
                 (quickChangeTest fuel DAC_14_BIT) g1
               = (if MODE_OUTPUT_QUICK_CHANGE cfg
                  then frames (toggle fuel DAC_14_BIT false) else [],
                  if MODE_OUTPUT_QUICK_CHANGE cfg then Running
                  else Returned tt g1)).
  { destruct (MODE_OUTPUT_QUICK_CHANGE cfg); cbn [when]; [|reflexivity].
    unfold quickChangeTest.
    apply quickChangeTest_loop_run. unfold DAC_14_BIT. lia. }
  erewrite bind_returned by exact E1.
  erewrite bind_returned by exact E2.
  rewrite E3. reflexivity.
Qed.

Lemma loop_modes_witness :
  loop AVR8
    {| MODE_OUTPUT_SINGLE_VALUE := false; MODE_OUTPUT_FULL_RANGE := true;
       MODE_OUTPUT_SINE_WAVE := true; MODE_OUTPUT_QUICK_CHANGE := false;
       outputThisVoltage := outputThisVoltage_init |}
    (Z.to_nat 20000) globals_init
  = ((frame (sample (sineLUT globals_init) (tableCounter globals_init) 0))
     ++ frames (ramp_up DAC_14_BIT) ++ [],
     Returned tt
       (with_tableCounter globals_init
          ((tableCounter globals_init + 1) mod TABLE_SIZE))).
Proof.
  apply (loop_modes AVR8
    {| MODE_OUTPUT_SINGLE_VALUE := false; MODE_OUTPUT_FULL_RANGE := true;
       MODE_OUTPUT_SINE_WAVE := true; MODE_OUTPUT_QUICK_CHANGE := false;
       outputThisVoltage := outputThisVoltage_init |}
    (Z.to_nat 20000) globals_init).
  - split; [reflexivity|]. unfold TABLE_SIZE. cbn. lia.
  - unfold DAC_14_BIT. lia.
Defined.

(** X12.  Any number of rounds of [loop()], in any mode, started with
    the cursor inside the table: the select line frames every transfer
    (low, one word, high), there is no undefined behaviour (the table is
    never read outside its bounds), and the cursor stays inside the
    table. *)
Theorem drive_framed (b : board) (cfg : config) (fuel n : nat) (g : globals) :
  length (sineLUT g) = Z.to_nat TABLE_SIZE ->
  0 <= tableCounter g < TABLE_SIZE ->
  (exists ws, trace_of (drive b cfg fuel n g) = frames ws)
  /\ outcome_of (drive b cfg fuel n g) <> Undefined
  /\ forall g', outcome_of (drive b cfg fuel n g) = Returned tt g' ->
       length (sineLUT g') = Z.to_nat TABLE_SIZE
       /\ 0 <= tableCounter g' < TABLE_SIZE.
Proof.
  intros Hl Hc.
  destruct (framed_drive b cfg fuel n g (conj Hl Hc)) as (T & U & R).
  split; [exact T|]. split; [exact U|]. intros g'. apply R.
Qed.

Lemma drive_framed_witness :
  (exists ws, trace_of (drive ARM32 sine_wave 5 3 globals_init) = frames ws)
  /\ outcome_of (drive ARM32 sine_wave 5 3 globals_init) <> Undefined
  /\ forall g', outcome_of (drive ARM32 sine_wave 5 3 globals_init)
                = Returned tt g' ->
       length (sineLUT g') = Z.to_nat TABLE_SIZE
       /\ 0 <= tableCounter g' < TABLE_SIZE.
Proof.
  apply (drive_framed ARM32 sine_wave 5 3 globals_init).
  - reflexivity.
  - unfold TABLE_SIZE. cbn. lia.
Defined.

(** X13.  The sketch from power-up, on any board, in any mode, with
    any [sinf]: either the pin and the bus are set up and every event
    after that is part of a whole frame, the only possible undefined
    behaviour being the conversion of the single-value voltage; or the
    sketch stopped inside [buildLUT], before [SPI.begin()], having only
    configured the select pin. *)
Theorem sketch_framed (b : board) (sinf : spec_float -> spec_float)
        (cfg : config) (fuel n : nat) :
  (exists ws,
      trace_of (sketch b sinf cfg fuel n globals_init) = bus_setup ++ frames ws
      /\ (outcome_of (sketch b sinf cfg fuel n globals_init) = Undefined ->
          MODE_OUTPUT_SINGLE_VALUE cfg = true
          /\ call_dacBipolarVoltageToCode DAC_14_BIT (REF_VOLT b)
               (outputThisVoltage cfg) = None))
  \/ (trace_of (sketch b sinf cfg fuel n globals_init)
      = [PinModeOutput; DigitalWrite HIGH]
      /\ MODE_OUTPUT_SINE_WAVE cfg = true
      /\ forall a g',
           outcome_of (sketch b sinf cfg fuel n globals_init) <> Returned a g').
Proof.
  unfold sketch.
  destruct (setup_run b sinf cfg fuel)
    as [(T & S & N)|[(E & S & C)|(ws & g' & E & Hg')]].
  - right. unfold trace_of, outcome_of in *.
    destruct (setup b sinf cfg fuel globals_init) as [t o] eqn:E.
    cbn [fst snd] in *. subst t.
    destruct o as [a g'| |]; [now destruct (N a g')| |].
    + erewrite bind_running by exact E. cbn [fst snd].
      split; [reflexivity|]. split; [exact S|]. discriminate.
    + erewrite bind_undefined by exact E. cbn [fst snd].
      split; [reflexivity|]. split; [exact S|]. discriminate.
  - left. exists []. erewrite bind_undefined by exact E.
    cbn [trace_of outcome_of fst snd frames flat_map].
    split; [now rewrite app_nil_r|]. intros _. split; assumption.
  - left. erewrite bind_returned by exact E.
    destruct (framed_drive b cfg fuel n g' Hg') as ((ws' & T) & U & _).
    cbn [trace_of outcome_of fst snd].
    fold (trace_of (drive b cfg fuel n g')) (outcome_of (drive b cfg fuel n g')).
    exists (ws ++ ws'). split.
    + now rewrite T, frames_app, app_assoc.
    + intros H. contradiction.
Qed.

Section SineSketch.

Variable b : board.
Variable sinf : spec_float -> spec_float.

Hypothesis sinf_ok : forall i, 0 <= i < TABLE_SIZE ->
  sinf_in_range (sinf (theta b TABLE_SIZE i)).

Lemma setup_sine_wave (fuel : nat) :
  (Z.to_nat TABLE_SIZE < fuel)%nat ->
  exists tbl,
    setup b sinf sine_wave fuel globals_init
    = (bus_setup, Returned tt {| sineLUT := tbl; tableCounter := 0 |})
    /\ length tbl = Z.to_nat TABLE_SIZE
    /\ forall j, 0 <= j < TABLE_SIZE ->
         nth (Z.to_nat j) tbl 0 = lut_entry (sinf (theta b TABLE_SIZE j)).
Proof.
  intros Hf.
  destruct (buildLUT_loop_run b sinf sinf_ok (Z.to_nat TABLE_SIZE) fuel 0
              globals_init ltac:(lia) ltac:(unfold TABLE_SIZE; lia) Hf
              ltac:(reflexivity))
    as (tbl & E & Len & Hn & _).
  exists tbl. split; [|split; [exact Len|exact Hn]].
  unfold setup, pinMode_OUTPUT, digitalWrite, SPI_begin, SPI_beginTransaction.
  rewrite !bind_emit.
  cbn [sine_wave MODE_OUTPUT_SINE_WAVE MODE_OUTPUT_SINGLE_VALUE when].
  unfold buildLUT. erewrite bind_returned by exact E.
  rewrite !bind_emit. reflexivity.
Qed.

End SineSketch.

(** X14.  The sine mode end to end: when [sinf] returns numbers
    between -1 and 1 at the 16 angles, the sketch sets up the bus and
    then, round after round, sends the sample of angle [k mod 16],
    converted to a 14-bit code. *)
Theorem sketch_sine_wave (b : board) (sinf : spec_float -> spec_float)
        (fuel n : nat) :
  (Z.to_nat TABLE_SIZE < fuel)%nat ->
  (forall i, 0 <= i < TABLE_SIZE -> sinf_in_range (sinf (theta b TABLE_SIZE i))) ->
  exists tbl,
    sketch b sinf sine_wave fuel n globals_init
    = (bus_setup
         ++ frames (map (fun k => lut_entry
                                    (sinf (theta b TABLE_SIZE
                                             (Z.of_nat k mod TABLE_SIZE))))
                        (seq 0 n)),
       Returned tt {| sineLUT := tbl;
                      tableCounter := Z.of_nat n mod TABLE_SIZE |}).
Proof.
  intros Hf Hs.
  destruct (setup_sine_wave b sinf Hs fuel Hf) as (tbl & E & Len & Hn).
  exists tbl. unfold sketch. erewrite bind_returned by exact E.
  rewrite (drive_sine_wave b fuel tbl Len n 0) by (unfold TABLE_SIZE; lia).
  cbn [trace_of outcome_of fst snd]. rewrite Z.add_0_l.
  do 3 f_equal. apply map_ext. intros k. unfold sample.
  rewrite Z.add_0_l.
  assert (R : 0 <= Z.of_nat k mod TABLE_SIZE < TABLE_SIZE)
    by (apply Z.mod_pos_bound; reflexivity).
  rewrite (Hn _ R).
  pose proof (lut_entry_range (sinf (theta b TABLE_SIZE (Z.of_nat k mod TABLE_SIZE)))).
  apply to_uint16_small. change (2 ^ 14 - 1) with 16383 in *. lia.
Qed.

Lemma sketch_sine_wave_witness :
  exists tbl,
    sketch AVR8 sinf_series sine_wave 17 40 globals_init
    = (bus_setup
         ++ frames (map (fun k => lut_entry
                                    (sinf_series (theta AVR8 TABLE_SIZE
                                                    (Z.of_nat k mod TABLE_SIZE))))
                        (seq 0 40)),
       Returned tt {| sineLUT := tbl;
                      tableCounter := Z.of_nat 40 mod TABLE_SIZE |}).
Proof.
  apply (sketch_sine_wave AVR8 sinf_series 17 40).
  - unfold TABLE_SIZE. cbn. lia.
  - apply sinf_series_in_range.
Defined.

Lemma REF_VOLT_finite (b : board) :
  F32.valid (REF_VOLT b) = true /\ is_finite (REF_VOLT b) = true
  /\ SF2R (REF_VOLT b) <> 0%R.
Proof.
  assert (E : exists s m e, REF_VOLT b = S754_finite s m e)
    by (destruct b; vm_compute; eauto).
  destruct E as (s & m & e & E).
  split; [destruct b; vm_compute; reflexivity|].
  rewrite E. split; [reflexivity|apply finite_nonzero].
Qed.

(** X15.  The single-value mode end to end: for every voltage that
    is not NaN, [setup()] sends exactly one framed word, the code of the
    voltage for the 4.096 V reference, at most 16383, and [loop()] sends
    nothing. *)
Theorem sketch_single_value_sends_one (b : board)
        (sinf : spec_float -> spec_float) (v : spec_float) (fuel n : nat) :
  F32.valid v = true -> is_nan v = false ->
  exists code,
    dacBipolarVoltageToCode 14 (REF_VOLT b) v = Some code
    /\ 0 <= code <= 16383
    /\ sketch b sinf (single_value v) fuel n globals_init
       = (bus_setup ++ frame code, Returned tt globals_init).
Proof.
  intros Vv Nv. destruct (REF_VOLT_finite b) as (Vr & Fr & NZ).
  destruct (magnitude_spec _ Vr Fr NZ) as (VV & FV & PV).
  destruct (quantize_clamped 14 _ v ltac:(lia) VV FV PV Vv Nv)
    as (c & Ec & Rc).
  change (2 ^ 14 - 1) with 16383 in Rc.
  assert (E14 : dacBipolarVoltageToCode 14 (REF_VOLT b) v = Some c)
    by (rewrite dacBipolarVoltageToCode_normalized by (assumption || lia);
        exact Ec).
  assert (E255 : call_dacBipolarVoltageToCode DAC_14_BIT (REF_VOLT b) v
                 = Some c).
  { change (call_dacBipolarVoltageToCode DAC_14_BIT (REF_VOLT b) v)
      with (dacBipolarVoltageToCode 255 (REF_VOLT b) v).
    rewrite dacBipolarVoltageToCode_normalized by (assumption || lia).
    exact Ec. }
  exists c. split; [exact E14|]. split; [exact Rc|].
  unfold sketch.
  assert (E : setup b sinf (single_value v) fuel globals_init
              = (bus_setup ++ frame c, Returned tt globals_init)).
  { unfold setup, pinMode_OUTPUT, digitalWrite, SPI_begin,
      SPI_beginTransaction, SPI_transfer16.
    cbn [single_value MODE_OUTPUT_SINE_WAVE MODE_OUTPUT_SINGLE_VALUE when
         outputThisVoltage].
    rewrite !bind_emit, bind_ret, !bind_emit.
    rewrite E255. cbn [lift]. rewrite bind_ret, !bind_emit.
    rewrite to_uint16_small by lia. reflexivity. }
  erewrite bind_returned by exact E.
  rewrite drive_single_value. cbn [trace_of outcome_of fst snd].
  now rewrite app_nil_r.
Qed.

Lemma sketch_single_value_sends_one_witness :
  exists code,
    dacBipolarVoltageToCode 14 (REF_VOLT ARM32) (S754_infinity false) = Some code
    /\ 0 <= code <= 16383
    /\ sketch ARM32 sinf_series (single_value (S754_infinity false)) 1 2
         globals_init
       = (bus_setup ++ frame code, Returned tt globals_init).
Proof.
  apply (sketch_single_value_sends_one ARM32 sinf_series (S754_infinity false)
           1 2); reflexivity.
Defined.

Lemma count_from_snoc (n : nat) : forall j,
  count_from j (S n) = count_from j n ++ [j + Z.of_nat n].
Proof.
  induction n as [|n IH]; intros j.
  - cbn. now rewrite Z.add_0_r.
  - change (count_from j (S (S n))) with (j :: count_from (j + 1) (S n)).
    rewrite IH. cbn [count_from app]. do 3 f_equal. lia.
Qed.

Lemma mirror_count_from (c : Z) (n : nat) : forall j,
  map (fun i => c - i) (count_from j n)
  = rev (count_from (c - j - Z.of_nat n + 1) n).
Proof.
  induction n as [|n IH]; intros j; [reflexivity|].
  rewrite (count_from_snoc n (c - j - Z.of_nat (S n) + 1)), rev_app_distr.
  cbn [count_from map rev app].
  f_equal; [lia|]. rewrite IH. do 2 f_equal. lia.
Qed.

(** X16.  The descending branch of [fullRangeTest] sends the words
    of the ascending branch in reverse order. *)
Theorem fullRangeTest_down_reverses (b : board) (fuel : nat) (bits : Z)
        (g : globals) :
  0 <= bits < 65535 -> (Z.to_nat bits + 1 < fuel)%nat ->
  transfers (trace_of (fullRangeTest b fuel false bits g))
  = rev (transfers (trace_of (fullRangeTest b fuel true bits g))).
Proof.
  intros Hb Hf. unfold fullRangeTest.
  rewrite (fullRangeTest_up_run b bits g Hb (S (Z.to_nat bits)) fuel 0)
    by lia.
  rewrite (fullRangeTest_down_run b bits g Hb (S (Z.to_nat bits)) fuel 0)
    by lia.
  cbn [trace_of fst]. rewrite !transfers_frames.
  rewrite mirror_count_from. do 2 f_equal. lia.
Qed.

Lemma fullRangeTest_down_reverses_witness :
  transfers (trace_of (fullRangeTest AVR8 9 false 7 globals_init))
  = rev (transfers (trace_of (fullRangeTest AVR8 9 true 7 globals_init))).
Proof.
  apply (fullRangeTest_down_reverses AVR8 9 7 globals_init); lia.
Defined.

Lemma nth_error_concat_repeat {A} (l : list A) (n : nat) : forall k,
  (k < n * length l)%nat ->
  nth_error (concat (repeat l n)) k = nth_error l (k mod length l).
Proof.
  induction n as [|n IH]; intros k Hk; [lia|].
  cbn [repeat concat].
  assert (L : (0 < length l)%nat) by (destruct (length l); lia).
  destruct (Nat.lt_ge_cases k (length l)) as [C|C].
  - rewrite nth_error_app1 by exact C. now rewrite Nat.mod_small.
  - rewrite nth_error_app2 by exact C.
    rewrite IH by lia. f_equal.
    replace k with ((k - length l) + 1 * length l)%nat at 2 by lia.
    now rewrite Nat.Div0.mod_add.
Qed.

Lemma transfers_concat_frames (l : list Z) (n : nat) :
  transfers (concat (repeat (frames l) n)) = concat (repeat l n).
Proof.
  induction n as [|n IH]; [reflexivity|].
  cbn [repeat concat]. now rewrite transfers_app, transfers_frames, IH.
Qed.

(** X17.  The sketch as shipped (full-range mode), end to end: after
    the bus set-up, [n] rounds of [loop()] send [n * 16384] words, the
    [k]-th being [k mod 16384], and return with the globals untouched. *)
Theorem sketch_full_range (b : board) (sinf : spec_float -> spec_float)
        (fuel n : nat) :
  (Z.to_nat DAC_14_BIT + 1 < fuel)%nat ->
  sketch b sinf full_range fuel n globals_init
  = (bus_setup ++ concat (repeat (frames (ramp_up DAC_14_BIT)) n),
     Returned tt globals_init)
  /\ Z.of_nat
       (length (transfers
                  (trace_of (sketch b sinf full_range fuel n globals_init))))
     = Z.of_nat n * 16384
  /\ forall k : nat, Z.of_nat k < Z.of_nat n * 16384 ->
       nth_error
         (transfers (trace_of (sketch b sinf full_range fuel n globals_init))) k
       = Some (Z.of_nat k mod 16384).
Proof.
  intros Hf.
  assert (E : sketch b sinf full_range fuel n globals_init
              = (bus_setup ++ concat (repeat (frames (ramp_up DAC_14_BIT)) n),
                 Returned tt globals_init)).
  { unfold sketch.
    assert (E : setup b sinf full_range fuel globals_init
                = (bus_setup, Returned tt globals_init)) by reflexivity.
    erewrite bind_returned by exact E.
    now rewrite (drive_full_range b fuel globals_init Hf n). }
  rewrite E. cbn [trace_of fst].
  rewrite transfers_app, transfers_concat_frames.
  change (transfers bus_setup) with (@nil Z). cbn [app].
  assert (L : Z.of_nat (length (ramp_up DAC_14_BIT)) = 16384).
  { unfold ramp_up. rewrite count_from_length. unfold DAC_14_BIT. lia. }
  split; [reflexivity|]. split.
  - clear E. induction n as [|n IH]; [reflexivity|].
    cbn [repeat concat]. rewrite length_app. lia.
  - intros k Hk. rewrite nth_error_concat_repeat by nia.
    assert (M : (k mod length (ramp_up DAC_14_BIT)
                 < length (ramp_up DAC_14_BIT))%nat)
      by (apply Nat.mod_upper_bound; lia).
    unfold ramp_up at 1. rewrite count_from_nth.
    + f_equal. rewrite Z.add_0_l, Nat2Z.inj_mod, L. reflexivity.
    + unfold ramp_up in M. rewrite count_from_length in M.
      unfold ramp_up. rewrite count_from_length. exact M.
Qed.

Lemma sketch_full_range_witness :
  sketch AVR8 sinf_series full_range (Z.to_nat 20000) 3 globals_init
  = (bus_setup ++ concat (repeat (frames (ramp_up DAC_14_BIT)) 3),
     Returned tt globals_init)
  /\ Z.of_nat
       (length (transfers
                  (trace_of (sketch AVR8 sinf_series full_range
                               (Z.to_nat 20000) 3 globals_init))))
     = Z.of_nat 3 * 16384
  /\ forall k : nat, Z.of_nat k < Z.of_nat 3 * 16384 ->
       nth_error
         (transfers (trace_of (sketch AVR8 sinf_series full_range
                                 (Z.to_nat 20000) 3 globals_init))) k
       = Some (Z.of_nat k mod 16384).
Proof.
  apply (sketch_full_range AVR8 sinf_series (Z.to_nat 20000) 3).
  unfold DAC_14_BIT. lia.
Defined.
